(** * tutel: fast dispatch of a sparsely gated mixture of experts

    A shallow embedding of [tutel/impls/fast_dispatch.py] and
    [tutel/impls/jit_compiler.py], and the properties of the routing
    ([extract_critical]), of the dispatcher ([TutelMoeFastDispatcher]) and of
    the gating operators ([GatingEncoder], [GatingDecoder]).

    Numbers.  Tensor elements of a floating dtype are rationals ([Qc], the
    canonical rationals, so that equal values are equal terms): sums, products
    and quotients of tensor elements are exact, their rounding and NaN are
    not represented.  The dtype of a tensor is kept as a tag, because the
    code branches on it.  Integer tensors hold [Z]; the conversion to int32
    wraps and is written out.  The one product of Python floats, that of
    [capacity_factor] in the capacity, is rounded as a float64 is, because
    [int] truncates it.

    Buffers.  What [torch.zeros] and [torch.ones] return is known; what
    [torch.empty] returns is not, and is an argument of the passes that
    allocate such buffers.

    What the two files import from the rest of the package is not part of
    them: [fast_cumsum_sub_one] of [jit_kernels/gating.py], the three
    [create_...] functions of [jit_kernels/sparse.py] and the compiled
    kernels they hand out.  Their definitions below follow the description of
    the package and are marked as such. *)

From Stdlib Require Import QArith Qcanon ZArith Lia Ascii.
From stdpp Require Import base numbers list gmap strings sorting.

Local Open Scope Z_scope.

(** ** Outcomes

    A call returns a value, raises a Python exception, or leaves the contract
    of a compiled kernel (the kernel is handed buffers it was not built for:
    nothing is known of the result). *)

Inductive outcome (A : Type) : Type :=
  | Ok (a : A)
  | Raise (msg : string)
  | OutOfContract.
Arguments Ok {A} a.
Arguments Raise {A} msg.
Arguments OutOfContract {A}.

Definition outcome_bind {A B} (f : A → outcome B) (m : outcome A) : outcome B :=
  match m with
  | Ok a => f a
  | Raise msg => Raise msg
  | OutOfContract => OutOfContract
  end.

Global Instance outcome_ret : MRet outcome := λ A a, Ok a.
Global Instance outcome_mbind : MBind outcome := λ A B f m, outcome_bind f m.

(** ** Element types *)

Inductive dtype : Type := float16 | bfloat16 | float32 | float64.

Global Instance dtype_eq_dec : EqDecision dtype.
Proof. solve_decision. Defined.

Definition pow2_inv (n : positive) : Qc := Q2Qc (1 # (2 ^ n)).

(** [torch.finfo(dtype).eps] *)
Definition finfo_eps (d : dtype) : Qc :=
  match d with
  | float16 => pow2_inv 10
  | bfloat16 => pow2_inv 7
  | float32 => pow2_inv 23
  | float64 => pow2_inv 52
  end.

(** [x.to(torch.int32)] on an integer tensor element: two's complement wrap. *)
Definition to_int32 (z : Z) : Z := (z + 2 ^ 31) `mod` 2 ^ 32 - 2 ^ 31.

(** Python's [int(x)] on a number: truncation towards zero. *)
Definition int_of (q : Qc) : Z := Qnum (this q) `quot` Zpos (Qden (this q)).

(** *** Python floats

    A Python float is a float64, and a product of floats is the float64
    nearest to the exact product, ties going to the even significand.
    [exponent n d] is the exponent [e] of a positive [n / d]:
    [2 ^ e ≤ n / d < 2 ^ (e + 1)].  [round64 a] is the float64 nearest to the
    rational [a]: the nearest multiple of [2 ^ (e - 52)], and of [2 ^ -1074]
    where [a] is subnormal.  Infinities and NaN are not represented, and the
    multiples are never coarser than the whole numbers: from [2 ^ 53] on,
    where a float64 leaves whole numbers out (no tensor has that many rows),
    [round64 a] is the whole number nearest to [a]. *)
Definition exponent (n d : Z) : Z :=
  let e := Z.log2 n - Z.log2 d in
  if bool_decide (d * 2 ^ Z.max 0 e ≤ n * 2 ^ Z.max 0 (- e)) then e else e - 1.

(** The whole number nearest to [p / q], the even one of two that are as
    near. *)
Definition round_half_even (p q : Z) : Z :=
  let f := p `div` q in
  let r := p `mod` q in
  if bool_decide (2 * r < q) then f
  else if bool_decide (q < 2 * r) then f + 1
  else if Z.even f then f else f + 1.

Definition round64 (a : Qc) : Qc :=
  let n := Qnum (this a) in
  let d := Zpos (Qden (this a)) in
  let k := Z.min 1074 (Z.max 0 (52 - exponent (Z.abs n) d)) in
  Q2Qc (round_half_even (n * 2 ^ k) d # Z.to_pos (2 ^ k)).

Definition Qcmax (a b : Qc) : Qc := if bool_decide (a ≤ b)%Qc then b else a.

Global Instance Qc_inhabited : Inhabited Qc := populate 0%Qc.

(** ** Tensor operations used by the routing *)

Definition sumZ (l : list Z) : Z := foldr Z.add 0 l.
Definition sumQc (l : list Qc) : Qc := foldr Qcplus 0%Qc l.

(** [torch.sum(m, dim=1)] *)
Definition sum_dim1_Z (m : list (list Z)) : list Z := sumZ <$> m.
Definition sum_dim1_Qc (m : list (list Qc)) : list Qc := sumQc <$> m.

(** [torch.sum(m, dim=0)] of a matrix with [cols] columns. *)
Definition sum_dim0_Z (cols : nat) (m : list (list Z)) : list Z :=
  foldr (zip_with Z.add) (replicate cols 0) m.
Definition sum_dim0_Qc (cols : nat) (m : list (list Qc)) : list Qc :=
  foldr (zip_with Qcplus) (replicate cols 0%Qc) m.

(** One row of [gates.max(dim=1)[0]]; the rows are not empty where it is
    called. *)
Definition max_row (r : list Qc) : Qc :=
  match r with
  | [] => 0%Qc
  | a :: r' => foldr Qcmax a r'
  end.

(** Elementwise product of two integer matrices of one shape. *)
Definition mul_ZZ (a b : list (list Z)) : list (list Z) :=
  zip_with (zip_with Z.mul) a b.

(** [gates * mask]: a floating matrix times an integer one, promoted. *)
Definition mul_QZ (a : list (list Qc)) (b : list (list Z)) : list (list Qc) :=
  zip_with (zip_with (λ g z, (g * Qc_of_Z z)%Qc)) a b.

(** [m + row]: a row broadcast over the rows of [m]. *)
Definition add_row (m : list (list Z)) (row : list Z) : list (list Z) :=
  (λ r : list Z, zip_with Z.add r row) <$> m.

(** [torch.cumsum(m, dim=0)] *)
Fixpoint cumsum_from (acc : list Z) (m : list (list Z)) : list (list Z) :=
  match m with
  | [] => []
  | r :: m' => let acc' := zip_with Z.add acc r in acc' :: cumsum_from acc' m'
  end.

Definition cumsum_dim0 (m : list (list Z)) : list (list Z) :=
  match m with
  | [] => []
  | r :: m' => r :: cumsum_from r m'
  end.

(** Modelled from the spec: [fast_cumsum_sub_one] of [jit_kernels/gating.py],
    which is not among the sources.  The spec calls it the
    cumulative-sum-minus-one along the token axis: the first token assigned to
    an expert gets location 0. *)
Definition fast_cumsum_sub_one (data : list (list Z)) : list (list Z) :=
  (λ r : list Z, (λ z, z - 1) <$> r) <$> cumsum_dim0 data.

(** *** Sorting positions

    [torch.argsort] and [torch.topk] return positions.  Positions are sorted
    by insertion, the earlier position first among equal keys; torch leaves
    the order of equal keys open, and no statement below depends on it. *)

Section sort_positions.
Context {K : Type} (precedes : K → K → bool).

Fixpoint insert_position (x : K * nat) (l : list (K * nat)) : list (K * nat) :=
  match l with
  | [] => [x]
  | y :: l' => if precedes y.1 x.1 then y :: insert_position x l' else x :: l
  end.

Definition sort_positions (keys : list K) : list nat :=
  (foldr insert_position [] (zip keys (seq 0 (length keys)))).*2.
End sort_positions.

(** [scores.argsort(dim=0)]: ascending. *)
Definition argsort (scores : list Qc) : list nat :=
  sort_positions (λ a b, bool_decide (a < b)%Qc) scores.

(** [argsort] of an integer tensor of positions. *)
Definition argsort_pos (p : list nat) : list nat :=
  sort_positions Nat.ltb p.

(** One row of [torch.topk(gates, k, dim=1).indices]: the positions of the
    [k] largest entries, the largest first. *)
Definition topk_row (k : nat) (row : list Qc) : list nat :=
  take k (sort_positions (λ a b, bool_decide (b < a)%Qc) row).

(** [x[order]]: the rows of [x] picked by a tensor of positions. *)
Definition index_rows {A} `{Inhabited A} (x : list A) (order : list nat) : list A :=
  (λ i, x !!! i) <$> order.

(** ** Gate matrices *)

Record GateTensor : Type := {
  g_dtype : dtype;
  g_is_cuda : bool;
  g_size1 : nat;                 (* gates.size(1): the number of experts *)
  g_data : list (list Qc)        (* one row per token *)
}.

Definition g_size0 (gates : GateTensor) : nat := length (g_data gates).

Definition well_shaped (gates : GateTensor) : Prop :=
  Forall (λ r, length r = g_size1 gates) (g_data gates).

(** ** fast_dispatch.py: the slot assigner *)

(** [zeros([n, num_classes]).scatter_(1, data.unsqueeze(-1), 1)]; the dtype is
    that of the indices, an integer one, at the only call.  Every index given
    by [topk] is a column of the matrix. *)
Definition one_hot_with_dtype (data : list nat) (num_classes : nat) : list (list Z) :=
  (λ i, <[i := 1]> (replicate num_classes 0)) <$> data.

Definition compute_sorted_location (x : list (list Z)) (importance_scores : list Qc)
    : list (list Z) :=
  let order := argsort importance_scores in
  let sorted_x := index_rows x order in
  let sorted_cumsum := mul_ZZ (fast_cumsum_sub_one sorted_x) sorted_x in
  index_rows sorted_cumsum (argsort_pos order).

Definition load_balance (gates : GateTensor) (mask1 : list (list Z))
    (num_global_experts : nat) (fp32_gate : bool) : outcome Qc :=
  let n := Z.of_nat (g_size0 gates) in
  if bool_decide (g_dtype gates = float32) || fp32_gate then
    let me := sum_dim0_Qc (g_size1 gates) (g_data gates) in
    let ce := Qc_of_Z <$> sum_dim0_Z (g_size1 gates) mask1 in
    if bool_decide (n * n = 0) then Raise "division by zero"
    else Ok (sumQc (zip_with Qcmult me ce)
             * (Qc_of_Z (Z.of_nat num_global_experts) / Qc_of_Z (n * n)))%Qc
  else
    let me := (λ s, s / Qc_of_Z n)%Qc <$> sum_dim0_Qc (g_size1 gates) (g_data gates) in
    let ce := (λ s, Qc_of_Z s / Qc_of_Z n)%Qc <$> sum_dim0_Z (g_size1 gates) mask1 in
    Ok (sumQc (zip_with Qcmult me ce) * Qc_of_Z (Z.of_nat num_global_experts))%Qc.

(** The tuple returned by [extract_critical]; [c_is_cuda] is the device class
    of its tensors and [c_dtype] the dtype of its gate streams, those of the
    gates. *)
Record CriticalData : Type := {
  c_num_global_experts : nat;
  c_indices_s : list (list Z);
  c_locations_s : list (list Z);
  c_gates_s : list (list Qc);
  c_capacity : Z;
  c_is_cuda : bool;
  c_dtype : dtype
}.

(** The loop [for k in range(1, top_k)] of [extract_critical]: [prev] is
    [masks_se[k - 1]] and [rest] holds [masks_se[k]] onwards. *)
Fixpoint locations_above (compute_location : list (list Z) → list (list Z))
    (cols : nat) (acc_base : option (list Z)) (prev : list (list Z))
    (rest : list (list (list Z))) : list (list Z) :=
  match rest with
  | [] => []
  | mask :: rest' =>
    let s := sum_dim0_Z cols prev in
    let acc := match acc_base with None => s | Some a => zip_with Z.add a s end in
    let locations2 := add_row (compute_location mask) acc in
    (to_int32 <$> sum_dim1_Z (mul_ZZ locations2 mask))
      :: locations_above compute_location cols (Some acc) mask rest'
  end.

(** [extract_critical]; [capacity_factor] is a Python float: the float64
    nearest to the number given.  Its product with the whole number
    [(size(0) + experts - 1) // experts] is a float64 again, which [int]
    truncates. *)
Definition extract_critical (gates : GateTensor) (top_k : nat) (capacity_factor : Qc)
    (fp32_gate : bool) (batch_prioritized_routing : bool)
    : outcome (CriticalData * Qc) :=
  let num_global_experts := g_size1 gates in
  if bool_decide (num_global_experts < top_k)%nat
  then Raise "selected index k out of range" else
  let topk_indices := topk_row top_k <$> g_data gates in
  if bool_decide (top_k = 0%nat)
  then Raise "chunk expects `chunks` to be greater than 0, got: 0" else
  let indices_s := (λ k, (λ row : list nat, row !!! k) <$> topk_indices) <$> seq 0 top_k in
  let masks_se := (λ x, one_hot_with_dtype x num_global_experts) <$> indices_s in
  let gates_s := (λ x, sum_dim1_Qc (mul_QZ (g_data gates) x)) <$> masks_se in
  l_loss ← load_balance gates (masks_se !!! 0%nat) num_global_experts fp32_gate;
  let compute_location :=
    if batch_prioritized_routing then
      let importance_scores :=
        (λ r : list Qc, (-1 * max_row r)%Qc) <$> g_data gates in
      λ x, compute_sorted_location x importance_scores
    else fast_cumsum_sub_one in
  let locations1 := compute_location (masks_se !!! 0%nat) in
  let locations_s :=
    (to_int32 <$> sum_dim1_Z (mul_ZZ locations1 (masks_se !!! 0%nat)))
      :: locations_above compute_location num_global_experts None
           (masks_se !!! 0%nat) (drop 1 masks_se) in
  let gates_s :=
    if bool_decide (1 < top_k)%nat then
      let total := foldl (zip_with Qcplus) (replicate (g_size0 gates) 0%Qc) gates_s in
      let denom_s := Qcmax (finfo_eps (g_dtype gates)) <$> total in
      (λ x : list Qc, zip_with Qcdiv x denom_s) <$> gates_s
    else gates_s in
  let indices_s := (λ x : list nat, (λ i, to_int32 (Z.of_nat i)) <$> x) <$> indices_s in
  let capacity :=
    Z.of_nat top_k
    * int_of (round64
                (round64 capacity_factor
                 * Qc_of_Z ((Z.of_nat (g_size0 gates) + Z.of_nat num_global_experts - 1)
                            `div` Z.of_nat num_global_experts)))%Qc in
  Ok ({| c_num_global_experts := num_global_experts;
         c_indices_s := indices_s;
         c_locations_s := locations_s;
         c_gates_s := gates_s;
         c_capacity := capacity;
         c_is_cuda := g_is_cuda gates;
         c_dtype := g_dtype gates |}, l_loss).

(** ** Buffers of the dispatcher

    A floating tensor of two dimensions keeps its dtype, its trailing size
    and its rows; a floating tensor with one entry per token (a gate stream,
    a gate gradient, the helper of ones) keeps its dtype and its entries.  All
    tensors of one call live on the device of the indices. *)

Record Tensor : Type := {
  t_dtype : dtype;
  t_size1 : nat;
  t_data : list (list Qc)
}.

Record Vector : Type := {
  v_dtype : dtype;
  v_data : list Qc
}.

(** [x.to(dtype)] *)
Definition tensor_to (d : dtype) (x : Tensor) : Tensor :=
  {| t_dtype := d; t_size1 := t_size1 x; t_data := t_data x |}.
Definition vector_to (d : dtype) (x : Vector) : Vector :=
  {| v_dtype := d; v_data := v_data x |}.

(** [torch.zeros([rows, cols], dtype=d)] and [torch.ones([n, 2], dtype=d)],
    the helper of ones, with one entry per token. *)
Definition zeros (rows cols : nat) (d : dtype) : Tensor :=
  {| t_dtype := d; t_size1 := cols; t_data := replicate rows (replicate cols 0%Qc) |}.
Definition ones_vector (n : nat) (d : dtype) : Vector :=
  {| v_dtype := d; v_data := replicate n 1%Qc |}.

(** [torch.empty] hands out a buffer that is not initialised: it holds
    whatever was left where it is allocated.  A [Memory] stands for what the
    allocator holds during one pass: [fresh_rows k r c] is entry [(r, c)] of
    the buffer of two dimensions handed out for stream [k], and
    [fresh_entries k t] is entry [t] of the buffer of one dimension handed
    out for stream [k].  Nothing is assumed of a [Memory]. *)
Record Memory : Type := {
  fresh_rows : nat → nat → nat → Qc;
  fresh_entries : nat → nat → Qc
}.

(** Row [r] of the fresh buffer of stream [k], with [cols] entries. *)
Definition fresh_row (mem : Memory) (k cols r : nat) : list Qc :=
  fresh_rows mem k r <$> seq 0 cols.

(** [torch.empty([rows, cols], dtype=d)] and [torch.empty([n,], dtype=d)],
    for stream [k]. *)
Definition empty (mem : Memory) (k rows cols : nat) (d : dtype) : Tensor :=
  {| t_dtype := d; t_size1 := cols; t_data := fresh_row mem k cols <$> seq 0 rows |}.
Definition empty_vector (mem : Memory) (k n : nat) (d : dtype) : Vector :=
  {| v_dtype := d; v_data := fresh_entries mem k <$> seq 0 n |}.

(** [a + b] on tensors of one shape. *)
Definition tensor_add (a b : Tensor) : Tensor :=
  {| t_dtype := t_dtype a; t_size1 := t_size1 a;
     t_data := zip_with (zip_with Qcplus) (t_data a) (t_data b) |}.

Definition scale (g : Qc) (row : list Qc) : list Qc := (λ v, (g * v)%Qc) <$> row.
Definition add_rows (a b : list Qc) : list Qc := zip_with Qcplus a b.
Definition dot (a b : list Qc) : Qc := sumQc (zip_with Qcmult a b).

(** ** The scatter kernel interface *)

Inductive primitive : Type :=
  | forward_scatter
  | backward_data_gather
  | backward_gate_reduce.

(** What a primitive is handed: a vector with one entry per token (the gate,
    or the output of the reduction), the indices and locations of one stream,
    a buffer with one row per token and a buffer with one row per slot; it
    returns them as it leaves them. *)
Record Buffers : Type := {
  b_vector : Vector;
  b_tokens : Tensor;
  b_slots : Tensor
}.

Definition get {A} (l : list A) (t : nat) : outcome A :=
  match l !! t with
  | Some a => Ok a
  | None => OutOfContract
  end.

(** The slot row [index * capacity + location] of a token that is kept. *)
Definition slot_of (capacity index location : Z) (rows : nat) : outcome nat :=
  if bool_decide (0 ≤ index ∧ 0 ≤ location
                  ∧ index * capacity + location < Z.of_nat rows)
  then Ok (Z.to_nat (index * capacity + location))
  else OutOfContract.

(** Modelled from the spec: the three primitives of the scatter kernel
    interface, whose sources (the compiled extension and
    [jit_kernels/sparse.py]) are not among the sources.  With
    [extra = [token_count, aligned_dim, capacity]], for every token [t]:
    - [forward_scatter]: if [location[t] < capacity],
      [dst[index[t] * capacity + location[t]] += gate[t] * src[t]];
    - [backward_data_gather]:
      [dst_grad[t] += gate[t] * src_grad[index[t] * capacity + location[t]]];
    - [backward_gate_reduce]:
      [out[t] = dot(lhs[t], rhs[index[t] * capacity + location[t]])].
    The spec writes the test on the location for the scatter and says of an
    assignment beyond the capacity that neither its value nor its gradient
    reaches the buffer and that the primitive checks the bound and skips: the
    two other primitives skip such a token as well.  A token whose entries are
    missing, a row outside the buffer and rows of different widths are outside
    the contract. *)
Definition primitive_step (kernel_type : primitive) (indices locations : list Z)
    (capacity : Z) (b : Buffers) (t : nat) : outcome Buffers :=
  index ← get indices t;
  location ← get locations t;
  if bool_decide (location < capacity) then
    slot ← slot_of capacity index location (length (t_data (b_slots b)));
    gate ← get (v_data (b_vector b)) t;
    token_row ← get (t_data (b_tokens b)) t;
    slot_row ← get (t_data (b_slots b)) slot;
    if bool_decide (length token_row = length slot_row) then
      match kernel_type with
      | forward_scatter =>
        Ok {| b_vector := b_vector b; b_tokens := b_tokens b;
              b_slots :=
                {| t_dtype := t_dtype (b_slots b); t_size1 := t_size1 (b_slots b);
                   t_data := <[slot := add_rows slot_row (scale gate token_row)]>
                               (t_data (b_slots b)) |} |}
      | backward_data_gather =>
        Ok {| b_vector := b_vector b; b_slots := b_slots b;
              b_tokens :=
                {| t_dtype := t_dtype (b_tokens b); t_size1 := t_size1 (b_tokens b);
                   t_data := <[t := add_rows token_row (scale gate slot_row)]>
                               (t_data (b_tokens b)) |} |}
      | backward_gate_reduce =>
        Ok {| b_tokens := b_tokens b; b_slots := b_slots b;
              b_vector :=
                {| v_dtype := v_dtype (b_vector b);
                   v_data := <[t := dot token_row slot_row]> (v_data (b_vector b)) |} |}
      end
    else OutOfContract
  else Ok b.

Fixpoint primitive_loop (kernel_type : primitive) (indices locations : list Z)
    (capacity : Z) (tokens : list nat) (b : Buffers) : outcome Buffers :=
  match tokens with
  | [] => Ok b
  | t :: tokens' =>
    b' ← primitive_step kernel_type indices locations capacity b t;
    primitive_loop kernel_type indices locations capacity tokens' b'
  end.

(** The number of features one element of the kernel's type packs. *)
Definition lanes (d : dtype) : Z := if bool_decide (d = float16) then 2 else 1.

(** Modelled from the spec: one run of a primitive compiled for the element
    type [elem] (the entry points of the compiled extension,
    [tutel_custom_kernel.invoke] and [invoke_cpu_fp32 / invoke_cpu_fp64], are
    not among the sources).  The buffers must hold elements of that type and
    rows of [aligned_dim] packed elements. *)
Definition run_primitive (elem : dtype) (kernel_type : primitive)
    (indices locations : list Z) (b : Buffers) (extra : list Z) : outcome Buffers :=
  match extra with
  | [token_count; aligned_dim; capacity] =>
    if bool_decide (v_dtype (b_vector b) = elem ∧ t_dtype (b_tokens b) = elem
                    ∧ t_dtype (b_slots b) = elem
                    ∧ t_size1 (b_tokens b) = t_size1 (b_slots b)
                    ∧ aligned_dim * lanes elem = Z.of_nat (t_size1 (b_tokens b)))
    then primitive_loop kernel_type indices locations capacity
           (seq 0 (Z.to_nat token_count)) b
    else OutOfContract
  | _ => OutOfContract
  end.

(** ** jit_compiler.py *)

(** A kernel function: the closure [func] returned by [generate_cpu_kernel],
    which keeps the kernel type, or the closure returned by [create_raw] over
    a source text, which was written for one element type. *)
Inductive kernel_func : Type :=
  | cpu_func (kernel_type : primitive)
  | raw_func (kernel_type : primitive) (elem : dtype).

Module JitCompiler.

(** [generate_cpu_kernel(kernel_type)] returns the closure and tests
    nothing. *)
Definition generate_cpu_kernel (kernel_type : primitive) : kernel_func :=
  cpu_func kernel_type.

(** [generate_kernel(keyword_dict, template)]: the keywords are written
    into the template and the text is compiled by [create_raw]; of the
    keywords the model keeps the element type. *)
Definition generate_kernel (elem : dtype) (kernel_type : primitive) : kernel_func :=
  raw_func kernel_type elem.

End JitCompiler.

(** [func(inputs..., extra=...)]: a call of a kernel function.  [inputs[0]] is
    the vector. *)
Definition call (func : kernel_func) (indices locations : list Z) (b : Buffers)
    (extra : list Z) : outcome Buffers :=
  match func with
  | cpu_func kernel_type =>
    match v_dtype (b_vector b) with
    | float32 => run_primitive float32 kernel_type indices locations b extra
    | float64 => run_primitive float64 kernel_type indices locations b extra
    | _ => Raise "CPU kernel only supports float32 and float64!"
    end
  | raw_func kernel_type elem => run_primitive elem kernel_type indices locations b extra
  end.

(** The backends the spec names: float32 and float64 on the CPU, float16 and
    float32 on an accelerator. *)
Definition backend_supports (is_cuda : bool) (d : dtype) : bool :=
  match is_cuda, d with
  | false, float32 | false, float64 | true, float16 | true, float32 => true
  | _, _ => false
  end.

(** The handle of a primitive on a backend: the function that the generator
    of [jit_compiler.py] for the device class returns, [generate_kernel] with
    the dtype among its keywords on an accelerator, [generate_cpu_kernel] on
    the CPU. *)
Definition kernel_handle (kernel_type : primitive) (param_dtype : dtype) (is_cuda : bool)
    : kernel_func :=
  if is_cuda then JitCompiler.generate_kernel param_dtype kernel_type
  else JitCompiler.generate_cpu_kernel kernel_type.

(** Modelled from the spec: [create_forward], [create_backward_data] and
    [create_backward_gate] of [jit_kernels/sparse.py], which is not among the
    sources.  The spec has them bind the handle of a primitive for a (device
    class, dtype) pair, and has the binding fail with the error
    "unsupported dtype for this backend" for a dtype the backend does not
    support.  Which generator of [jit_compiler.py] they call is not in the
    spec: [kernel_handle] takes the one of the device class, whose handle
    runs the primitive on buffers of a dtype the backend supports. *)
Definition create_kernel (kernel_type : primitive) (param_dtype : dtype) (is_cuda : bool)
    : outcome kernel_func :=
  if backend_supports is_cuda param_dtype
  then Ok (kernel_handle kernel_type param_dtype is_cuda)
  else Raise "unsupported dtype for this backend".
Definition create_forward := create_kernel forward_scatter.
Definition create_backward_data := create_kernel backward_data_gather.
Definition create_backward_gate := create_kernel backward_gate_reduce.

(** ** fast_dispatch.py: the dispatcher *)

(** What [update] binds and [kernel_pool] keeps under a device class. *)
Record KernelSet : Type := {
  func_fwd : kernel_func;
  func_bwd_data : kernel_func;
  func_bwd_gate : kernel_func;
  ones_helper : Vector
}.

(** [TutelMoeFastDispatcher.kernel_pool]: one dictionary for the process. *)
Abbreviation kernel_pool := (gmap bool KernelSet).

(** The attributes of a dispatcher.  Those that [update] sets are absent
    before its first call: [kernels] is [None] until then, and the streams
    are empty. *)
Record TutelMoeFastDispatcher : Type := {
  num_global_experts : Z;
  capacity : Z;
  model_dim : nat;
  dtype_ : dtype;
  original_dtype : dtype;
  aligned_dim : Z;
  is_cuda : option bool;
  indices_ : list (list Z);
  locations_ : list (list Z);
  gates_ : list Vector;
  is_postscore : bool;
  sample_size : nat;
  kernels : option KernelSet
}.

(** [__init__]; [IS_HIP_EXTENSION] is the constant of [jit_compiler.py]. *)
Definition init (IS_HIP_EXTENSION : bool) (num_global_experts capacity : Z)
    (model_dim : nat) (dispatch_dtype : dtype) : TutelMoeFastDispatcher :=
  let dtype_ :=
    if IS_HIP_EXTENSION || bool_decide (dispatch_dtype ≠ float16)
    then float32 else dispatch_dtype in
  {| num_global_experts := num_global_experts;
     capacity := capacity;
     model_dim := model_dim;
     dtype_ := dtype_;
     original_dtype := dispatch_dtype;
     aligned_dim :=
       Z.of_nat model_dim `div` (if bool_decide (dtype_ = float16) then 2 else 1);
     is_cuda := None;
     indices_ := []; locations_ := []; gates_ := [];
     is_postscore := true; sample_size := 0;
     kernels := None |}.

(** [update]; [indices_is_cuda] is [indices_[0].is_cuda], and the state is
    the kernel pool. *)
Definition update (self : TutelMoeFastDispatcher) (indices locations : list (list Z))
    (gates : list Vector) (indices_is_cuda : bool) (capacity_arg : option Z)
    (is_postscore_arg : bool) (pool : kernel_pool)
    : outcome (TutelMoeFastDispatcher * kernel_pool) :=
  let indices' := (λ x : list Z, to_int32 <$> x) <$> indices in
  let locations' := (λ x : list Z, to_int32 <$> x) <$> locations in
  let gates' := vector_to (dtype_ self) <$> gates in
  match indices' with
  | [] => Raise "list index out of range"
  | first :: _ =>
    match capacity_arg with
    | None =>
      Raise "int() argument must be a string, a bytes-like object or a real number, not 'NoneType'"
    | Some c =>
      let n := length first in
      let self1 :=
        {| num_global_experts := num_global_experts self;
           capacity := if bool_decide (c = 0) then capacity self else c;
           model_dim := model_dim self;
           dtype_ := dtype_ self;
           original_dtype := original_dtype self;
           aligned_dim := aligned_dim self;
           is_cuda := is_cuda self;
           indices_ := indices'; locations_ := locations'; gates_ := gates';
           is_postscore := is_postscore_arg;
           sample_size := n;
           kernels := kernels self |} in
      let bind_to (ks : KernelSet) :=
        {| num_global_experts := num_global_experts self1;
           capacity := capacity self1;
           model_dim := model_dim self1;
           dtype_ := dtype_ self1;
           original_dtype := original_dtype self1;
           aligned_dim := aligned_dim self1;
           is_cuda := Some indices_is_cuda;
           indices_ := indices_ self1; locations_ := locations_ self1;
           gates_ := gates_ self1;
           is_postscore := is_postscore self1;
           sample_size := sample_size self1;
           kernels := Some ks |} in
      if bool_decide (is_cuda self ≠ Some indices_is_cuda) then
        match pool !! indices_is_cuda with
        | None =>
          func_fwd ← create_forward (dtype_ self) indices_is_cuda;
          func_bwd_data ← create_backward_data (dtype_ self) indices_is_cuda;
          func_bwd_gate ← create_backward_gate (dtype_ self) indices_is_cuda;
          let ks :=
            {| func_fwd := func_fwd;
               func_bwd_data := func_bwd_data;
               func_bwd_gate := func_bwd_gate;
               ones_helper := ones_vector n (dtype_ self) |} in
          Ok (bind_to ks, <[indices_is_cuda := ks]> pool)
        | Some ks => Ok (bind_to ks, pool)
        end
      else Ok (self1, pool)
    end
  end.

(** The gate of a stream as the gating operators keep it in [ctx.gates_h2]:
    the helper of ones itself, or a tensor of the caller. *)
Inductive gate_ref : Type :=
  | the_ones_helper
  | own_gate (g : Vector).

Definition is_ones_helper (g : gate_ref) : bool :=
  match g with the_ones_helper => true | own_gate _ => false end.

Record Context : Type := {
  ctx_saved : Tensor;               (* reshaped_input, or expert_output *)
  ctx_config : TutelMoeFastDispatcher;
  ctx_gates_h2 : list gate_ref
}.

(** [ctx.gates_h2]: the gates given, or the helper once per stream. *)
Definition gates_h2_of (config : TutelMoeFastDispatcher) (gates : list Vector)
    : list gate_ref :=
  match gates with
  | [] => replicate (length (indices_ config)) the_ones_helper
  | _ => own_gate <$> gates
  end.

Definition bound_kernels (config : TutelMoeFastDispatcher) : outcome KernelSet :=
  match kernels config with
  | Some ks => Ok ks
  | None => Raise "'TutelMoeFastDispatcher' object has no attribute 'func_fwd'"
  end.

Definition deref (ks : KernelSet) (g : gate_ref) : Vector :=
  match g with the_ones_helper => ones_helper ks | own_gate v => v end.

(** [extra=[ctx.config.indices_[0].size(0), ctx.config.aligned_dim,
    ctx.config.capacity]] *)
Definition extra_of (config : TutelMoeFastDispatcher) : outcome (list Z) :=
  match indices_ config with
  | [] => Raise "list index out of range"
  | first :: _ => Ok [Z.of_nat (length first); aligned_dim config; capacity config]
  end.

(** [zip(gates_h2, indices_, locations_)] *)
Definition streams {A} (gs : list A) (config : TutelMoeFastDispatcher)
    : list (A * (list Z * list Z)) :=
  zip gs (zip (indices_ config) (locations_ config)).

(** One pass over the streams with the scatter: each stream adds onto the
    slot buffer left by the one before. *)
Fixpoint scatter_streams (ks : KernelSet) (config : TutelMoeFastDispatcher)
    (src : Tensor) (ss : list (gate_ref * (list Z * list Z))) (dst : Tensor)
    : outcome Tensor :=
  match ss with
  | [] => Ok dst
  | (g, (i, l)) :: ss' =>
    extra ← extra_of config;
    b ← call (func_fwd ks) i l
          {| b_vector := deref ks g; b_tokens := src; b_slots := dst |} extra;
    scatter_streams ks config src ss' (b_slots b)
  end.

(** One pass over the streams with the gather: stream [k] and those after
    it each hand the kernel a buffer of [rows] rows that is not initialised,
    and the buffers are summed. *)
Fixpoint gather_streams (mem : Memory) (k : nat) (ks : KernelSet)
    (config : TutelMoeFastDispatcher) (rows cols : nat) (src : Tensor)
    (ss : list (gate_ref * (list Z * list Z))) (last_result : option Tensor)
    : outcome (option Tensor) :=
  match ss with
  | [] => Ok last_result
  | (g, (i, l)) :: ss' =>
    let single := empty mem k rows cols (t_dtype src) in
    extra ← extra_of config;
    b ← call (func_bwd_data ks) i l
          {| b_vector := deref ks g; b_tokens := single; b_slots := src |} extra;
    gather_streams mem (S k) ks config rows cols src ss'
      (Some (match last_result with
             | None => b_tokens b
             | Some r => tensor_add r (b_tokens b)
             end))
  end.

(** One pass over the streams with the reduction: one gate gradient per
    stream, written into a buffer that is not initialised. *)
Fixpoint reduce_streams (mem : Memory) (k : nat) (ks : KernelSet)
    (config : TutelMoeFastDispatcher) (lhs rhs : Tensor) (out_dtype : dtype)
    (ss : list (list Z * list Z)) : outcome (list Vector) :=
  match ss with
  | [] => Ok []
  | (i, l) :: ss' =>
    let grad_gates1_s := empty_vector mem k (sample_size config) out_dtype in
    extra ← extra_of config;
    b ← call (func_bwd_gate ks) i l
          {| b_vector := grad_gates1_s; b_tokens := lhs; b_slots := rhs |} extra;
    rest ← reduce_streams mem (S k) ks config lhs rhs out_dtype ss';
    Ok (b_vector b :: rest)
  end.

Module GatingEncoder.

Definition forward (config : TutelMoeFastDispatcher) (reshaped_input : Tensor)
    (gates : list Vector) : outcome (Context * Tensor) :=
  let ctx :=
    {| ctx_saved := reshaped_input; ctx_config := config;
       ctx_gates_h2 := gates_h2_of config gates |} in
  if bool_decide (num_global_experts config * capacity config < 0)
  then Raise "Trying to create tensor with negative dimension" else
  let dispatched_input :=
    zeros (Z.to_nat (num_global_experts config * capacity config))
          (model_dim config) (t_dtype reshaped_input) in
  ks ← bound_kernels config;
  out ← scatter_streams ks config reshaped_input
          (streams (ctx_gates_h2 ctx) config) dispatched_input;
  Ok (ctx, out).

(** Returns [last_result] and the gate gradients [grad_gates] (the leading
    [None] of the tuple belongs to [config]); [mem] is what its buffers hold
    when they are allocated. *)
Definition backward (mem : Memory) (ctx : Context) (dispatched_input : Tensor)
    : outcome (option Tensor * list Vector) :=
  let config := ctx_config ctx in
  ks ← bound_kernels config;
  last_result ← gather_streams mem 0 ks config
                  (length (t_data (ctx_saved ctx))) (t_size1 (ctx_saved ctx))
                  dispatched_input (streams (ctx_gates_h2 ctx) config) None;
  match ctx_gates_h2 ctx with
  | [] => Raise "list index out of range"
  | g :: _ =>
    if is_ones_helper g then Ok (last_result, [])
    else
      grad_gates ← reduce_streams mem 0 ks config (ctx_saved ctx) dispatched_input
                     (t_dtype dispatched_input)
                     (zip (indices_ config) (locations_ config));
      Ok (last_result, grad_gates)
  end.

End GatingEncoder.

Module GatingDecoder.

(** [mem] is what the buffers of the pass hold when they are allocated. *)
Definition forward (mem : Memory) (config : TutelMoeFastDispatcher)
    (expert_output : Tensor) (gates : list Vector)
    : outcome (Context * option Tensor) :=
  let ctx :=
    {| ctx_saved := expert_output; ctx_config := config;
       ctx_gates_h2 := gates_h2_of config gates |} in
  ks ← bound_kernels config;
  last_result ← gather_streams mem 0 ks config (sample_size config) (model_dim config)
                  expert_output (streams (ctx_gates_h2 ctx) config) None;
  Ok (ctx, last_result).

(** Returns [grad_expert_output] and the gate gradients. *)
Definition backward (mem : Memory) (ctx : Context) (combined_output : Tensor)
    : outcome (Tensor * list Vector) :=
  let config := ctx_config ctx in
  let grad_expert_output :=
    zeros (length (t_data (ctx_saved ctx))) (t_size1 (ctx_saved ctx))
          (t_dtype combined_output) in
  ks ← bound_kernels config;
  grad ← scatter_streams ks config combined_output
           (streams (ctx_gates_h2 ctx) config) grad_expert_output;
  match ctx_gates_h2 ctx with
  | [] => Raise "list index out of range"
  | g :: _ =>
    if is_ones_helper g then Ok (grad, [])
    else
      grad_gates ← reduce_streams mem 0 ks config combined_output (ctx_saved ctx)
                     (t_dtype combined_output)
                     (zip (indices_ config) (locations_ config));
      Ok (grad, grad_gates)
  end.

End GatingDecoder.

(** [GatingEncoder.apply(self, ...)] as [encode] calls it: the forward pass,
    with the context that the backward pass is given. *)
Definition encode_apply (self : TutelMoeFastDispatcher) (data : Tensor)
    : outcome (Context * Tensor) :=
  if is_postscore self
  then GatingEncoder.forward self (tensor_to (dtype_ self) data) []
  else GatingEncoder.forward self (tensor_to (dtype_ self) data) (gates_ self).

Definition encode (self : TutelMoeFastDispatcher) (data : Tensor) : outcome Tensor :=
  r ← encode_apply self data;
  Ok (tensor_to (original_dtype self) r.2).

(** [GatingDecoder.apply(self, ...)] as [decode] calls it; [mem] is what the
    buffers of the forward pass hold when they are allocated. *)
Definition decode_apply (mem : Memory) (self : TutelMoeFastDispatcher) (data : Tensor)
    : outcome (Context * option Tensor) :=
  if is_postscore self
  then GatingDecoder.forward mem self (tensor_to (dtype_ self) data) (gates_ self)
  else GatingDecoder.forward mem self (tensor_to (dtype_ self) data) [].

Definition decode (mem : Memory) (self : TutelMoeFastDispatcher) (data : Tensor)
    : outcome Tensor :=
  r ← decode_apply mem self data;
  match r.2 with
  | Some out => Ok (tensor_to (original_dtype self) out)
  | None => Raise "'NoneType' object has no attribute 'to'"
  end.

(** [dispatcher.update] on the entries of [critial_data] after the first. *)
Definition update_with (self : TutelMoeFastDispatcher) (critial_data : CriticalData)
    (is_postscore_arg : bool) (pool : kernel_pool)
    : outcome (TutelMoeFastDispatcher * kernel_pool) :=
  update self (c_indices_s critial_data) (c_locations_s critial_data)
    ((λ g, {| v_dtype := c_dtype critial_data; v_data := g |}) <$> c_gates_s critial_data)
    (c_is_cuda critial_data) (Some (c_capacity critial_data)) is_postscore_arg pool.

Definition fast_encode (IS_HIP_EXTENSION : bool) (data : Tensor)
    (critial_data : CriticalData) (is_postscore_arg : bool) (pool : kernel_pool)
    : outcome (Tensor * kernel_pool) :=
  let num_global_experts := Z.of_nat (c_num_global_experts critial_data) in
  let dispatcher :=
    init IS_HIP_EXTENSION num_global_experts 0 (t_size1 data) (t_dtype data) in
  r ← update_with dispatcher critial_data is_postscore_arg pool;
  out ← encode r.1 data;
  Ok (out, r.2).

Definition fast_decode (mem : Memory) (IS_HIP_EXTENSION : bool) (data : Tensor)
    (critial_data : CriticalData) (is_postscore_arg : bool) (pool : kernel_pool)
    : outcome (Tensor * kernel_pool) :=
  let num_global_experts := Z.of_nat (c_num_global_experts critial_data) in
  let dispatcher :=
    init IS_HIP_EXTENSION num_global_experts 0 (t_size1 data) (t_dtype data) in
  r ← update_with dispatcher critial_data is_postscore_arg pool;
  out ← decode mem r.1 data;
  Ok (out, r.2).

Definition scenario_gates : GateTensor :=
  {| g_dtype := float32; g_is_cuda := false; g_size1 := 2;
     g_data := [[Q2Qc (9#10); Q2Qc (1#10)]; [Q2Qc (8#10); Q2Qc (2#10)];
                [Q2Qc (3#10); Q2Qc (7#10)]; [Q2Qc (4#10); Q2Qc (6#10)]] |}.
Definition scenario_x : Tensor :=
  {| t_dtype := float32; t_size1 := 1; t_data := [[1%Qc];[Q2Qc 2];[Q2Qc 3];[Q2Qc 4]] |}.

(** ** Notions the properties are stated with *)

(** Two keyed positions are in order when the key of the second does not
    precede the key of the first. *)
Definition keeps_order {K : Type} (precedes : K → K → bool) (x y : K * nat) : Prop :=
  precedes y.1 x.1 = false.

(** Column [e] of a matrix, and the matrices whose rows have [cols]
    entries. *)
Definition column (e : nat) (m : list (list Z)) : list Z := (λ r : list Z, r !!! e) <$> m.
Definition rows_of_width {A} (cols : nat) (m : list (list A)) : Prop :=
  Forall (λ r, length r = cols) m.

(** Whether token [i] is sent to expert [e]; how many of the tokens counted
    up to place [j] of the order [p] are sent to it; and a matrix of
    locations that gives every token, at its expert, that count less one
    ([q] is the place of each token in [p]). *)
Definition indicator (idx : list nat) (e i : nat) : Z :=
  if decide (idx !! i = Some e) then 1 else 0.
Definition seen (idx : list nat) (e : nat) (p : list nat) (j : nat) : Z :=
  sumZ (take (S j) (indicator idx e <$> p)).
Definition slot_counts (idx : list nat) (cols : nat) (p q : list nat)
    (M : list (list Z)) : Prop :=
  ∀ t e, idx !! t = Some e →
    ∃ r j, M !! t = Some r ∧ length r = cols ∧ q !! t = Some j ∧ p !! j = Some t
           ∧ r !!! e = seen idx e p j - 1.

(** The masks of a rank: [rows] rows of [cols] entries that are 0 or 1. *)
Definition zero_one (m : list (list Z)) : Prop :=
  Forall (Forall (λ z, 0 ≤ z ≤ 1)) m.
Definition rank_mask (cols rows : nat) (m : list (list Z)) : Prop :=
  rows_of_width cols m ∧ zero_one m ∧ length m = rows.

(** The pieces of [extract_critical]: the expert chosen for each token at
    rank [k], the one-hot masks of the ranks, the gates before they are
    normalised, and [compute_location]. *)
Definition chosen (gates : GateTensor) (top_k k : nat) : list nat :=
  (λ row : list nat, row !!! k) <$> (topk_row top_k <$> g_data gates).
Definition rank_masks (gates : GateTensor) (top_k : nat) (ranks : list nat)
    : list (list (list Z)) :=
  (λ k, one_hot_with_dtype (chosen gates top_k k) (g_size1 gates)) <$> ranks.
Definition raw_gates (gates : GateTensor) (top_k k : nat) : list Qc :=
  sum_dim1_Qc (mul_QZ (g_data gates) (one_hot_with_dtype (chosen gates top_k k) (g_size1 gates))).
Definition location_rule (gates : GateTensor) (batch_prioritized_routing : bool)
    : list (list Z) → list (list Z) :=
  if batch_prioritized_routing
  then λ x, compute_sorted_location x
              ((λ r : list Qc, (-1 * max_row r)%Qc) <$> g_data gates)
  else fast_cumsum_sub_one.

(** [importance_scores] *)
Definition importance (gates : GateTensor) : list Qc :=
  (λ r : list Qc, (-1 * max_row r)%Qc) <$> g_data gates.
(** The order in which the locations of a rank are counted, and the place of
    each token in it. *)
Definition counting_order (gates : GateTensor) (bpr : bool) : list nat :=
  if bpr then argsort (importance gates) else seq 0 (g_size0 gates).
Definition place_in_order (gates : GateTensor) (bpr : bool) : list nat :=
  if bpr then argsort_pos (argsort (importance gates)) else seq 0 (g_size0 gates).
Definition top1_confidence (gates : GateTensor) (t : nat) : Qc :=
  max_row (g_data gates !!! t).

(** The raw score of token [t] at rank [k]: the gate of the expert chosen. *)
Definition raw_score (gates : GateTensor) (top_k t k : nat) : Qc :=
  (g_data gates !!! t) !!! (chosen gates top_k k !!! t).

(** The sum over the batch of the gates of expert [e]. *)
Definition gate_mass (gates : GateTensor) (e : nat) : Qc :=
  sumQc ((λ r : list Qc, r !!! e) <$> g_data gates).
(** The number of tokens whose first choice is expert [e]: the sum of column
    [e] of the one-hot mask of rank 0. *)
Definition tokens_routed (gates : GateTensor) (top_k e : nat) : Z :=
  Z.of_nat (length (filter (λ a, a = e) (chosen gates top_k 0))).
Definition sum_over_experts (gates : GateTensor) (f : nat → Qc) : Qc :=
  sumQc (f <$> seq 0 (g_size1 gates)).

(** [n] tokens that have one expert to go to, and two tokens that choose
    between two experts. *)
Definition one_expert_gates (n : nat) : GateTensor :=
  {| g_dtype := float32; g_is_cuda := false; g_size1 := 1;
     g_data := replicate n [1%Qc] |}.
Definition two_token_gates : GateTensor :=
  {| g_dtype := float32; g_is_cuda := false; g_size1 := 2;
     g_data := [[Q2Qc (3 # 4); Q2Qc (1 # 4)]; [Q2Qc (1 # 4); Q2Qc (3 # 4)]] |}.

(** A token is kept by a primitive when its location is below the capacity,
    and dropped when it is not. *)
Definition kept (locations : list Z) (capacity : Z) (t : nat) : Prop :=
  ∃ l, locations !! t = Some l ∧ l < capacity.
Definition dropped (locations : list Z) (capacity : Z) (t : nat) : Prop :=
  ∃ l, locations !! t = Some l ∧ capacity ≤ l.

(** The row of the slot buffer of token [t]. *)
Definition slot_index (indices locations : list Z) (capacity : Z) (t : nat) : nat :=
  Z.to_nat (indices !!! t * capacity + locations !!! t).

(** Whether token [t] of a stream is kept in row [s] of the slot buffer. *)
Definition lands (indices locations : list Z) (capacity : Z) (s t : nat) : bool :=
  bool_decide (locations !!! t < capacity
               ∧ slot_index indices locations capacity t = s).

(** What one stream sends to row [s] of the slot buffer: the rows of those of
    its tokens [ts] that are kept in row [s], each times the weight of its
    token, in the order of the tokens. *)
Definition sent_to (weight : nat → Qc) (indices locations : list Z) (capacity : Z)
    (rows : list (list Qc)) (ts : list nat) (s : nat) : list (list Qc) :=
  (λ t, scale (weight t) (rows !!! t))
    <$> filter (λ t, lands indices locations capacity s t = true) ts.

(** The sum of rows of [w] entries. *)
Definition sum_rows (w : nat) (rows : list (list Qc)) : list Qc :=
  foldl add_rows (replicate w 0%Qc) rows.

(** The buffers a primitive can run on: [n] tokens with their entries, rows
    of one width [w], and every slot that is written or read inside the slot
    buffer. *)
Definition in_contract (indices locations : list Z) (capacity : Z) (n w : nat)
    (b : Buffers) : Prop :=
  (n ≤ length indices)%nat ∧ (n ≤ length locations)%nat
  ∧ (n ≤ length (v_data (b_vector b)))%nat
  ∧ (n ≤ length (t_data (b_tokens b)))%nat
  ∧ Forall (λ r, length r = w) (t_data (b_tokens b))
  ∧ Forall (λ r, length r = w) (t_data (b_slots b))
  ∧ ∀ t i l, (t < n)%nat → indices !! t = Some i → locations !! t = Some l →
      l < capacity →
      0 ≤ i ∧ 0 ≤ l ∧ i * capacity + l < Z.of_nat (length (t_data (b_slots b))).

(** A call runs the loop of the primitive the function was made for. *)
Definition kernel_type_of (func : kernel_func) : primitive :=
  match func with cpu_func k => k | raw_func k _ => k end.

(** When a call is within the contract of the kernel. *)
Definition dtype_fits (func : kernel_func) (elem : dtype) : Prop :=
  match func with
  | cpu_func _ => elem = float32 ∨ elem = float64
  | raw_func _ e => e = elem
  end.

(** [len(indices_[0])], the token count handed to the kernels. *)
Definition token_count (self : TutelMoeFastDispatcher) : nat :=
  match indices_ self with [] => 0 | first :: _ => length first end.

(** Row [s] of the buffer that the streams of a dispatcher fill from the
    token rows [rows], the tokens of stream [k] weighted by [weights !! k]:
    the sum of what each stream sends to the row. *)
Definition dispatched (weights : list (nat → Qc)) (self : TutelMoeFastDispatcher)
    (rows : list (list Qc)) (s : nat) : list Qc :=
  sum_rows (model_dim self)
    (mjoin (zip_with
              (λ w il, sent_to w il.1 il.2 (capacity self) rows
                         (seq 0 (token_count self)) s)
              weights (zip (indices_ self) (locations_ self)))).

(** The message of [generate_cpu_kernel]. *)
Definition cpu_dtype_message : string := "CPU kernel only supports float32 and float64!".

(** What [generate_cpu_kernel] gives for the three primitives, with a helper
    of [n] ones of dtype [d]. *)
Definition cpu_kernels (n : nat) (d : dtype) : KernelSet :=
  {| func_fwd := JitCompiler.generate_cpu_kernel forward_scatter;
     func_bwd_data := JitCompiler.generate_cpu_kernel backward_data_gather;
     func_bwd_gate := JitCompiler.generate_cpu_kernel backward_gate_reduce;
     ones_helper := ones_vector n d |}.

(** Four tokens of one feature in half precision. *)
Definition scenario_half : Tensor :=
  {| t_dtype := float16; t_size1 := 1;
     t_data := [[1%Qc]; [1%Qc]; [1%Qc]; [1%Qc]] |}.

(** One stream of two tokens, one for each of two experts. *)
Definition two_tokens : list (list Z) := [[0; 1]].
Definition two_slots : list (list Z) := [[0; 0]].
Definition two_gates (d : dtype) : list Vector :=
  [{| v_dtype := d; v_data := [1%Qc; 1%Qc] |}].

(** The kernels a dispatcher makes for itself when the pool has none for its
    device class. *)
Definition own_kernels (self : TutelMoeFastDispatcher) (dev : bool) (n : nat) : KernelSet :=
  {| func_fwd := kernel_handle forward_scatter (dtype_ self) dev;
     func_bwd_data := kernel_handle backward_data_gather (dtype_ self) dev;
     func_bwd_gate := kernel_handle backward_gate_reduce (dtype_ self) dev;
     ones_helper := ones_vector n (dtype_ self) |}.

(** Kernels that serve a dispatcher of [n] tokens that computes in [dt]: the
    scatter and the gather run on buffers of [dt], and the helper of ones has
    the dtype [dt] and at least [n] entries. *)
Definition serves (ks : KernelSet) (dt : dtype) (n : nat) : Prop :=
  kernel_type_of (func_fwd ks) = forward_scatter
  ∧ dtype_fits (func_fwd ks) dt
  ∧ kernel_type_of (func_bwd_data ks) = backward_data_gather
  ∧ dtype_fits (func_bwd_data ks) dt
  ∧ ∃ m, (n ≤ m)%nat ∧ ones_helper ks = ones_vector m dt.

(** The inputs the dispatcher of [fast_encode] and [fast_decode] can compute
    on a device class: the CPU kernels take single precision, and a row of
    half precision holds whole pairs. *)
Definition supported (IS_HIP_EXTENSION dev : bool) (data : Tensor) : Prop :=
  let d := init IS_HIP_EXTENSION 0 0 (t_size1 data) (t_dtype data) in
  (dev = true ∨ dtype_ d = float32)
  ∧ aligned_dim d * lanes (dtype_ d) = Z.of_nat (model_dim d).

(** A tensor whose rows have its trailing size. *)
Definition proper (x : Tensor) : Prop :=
  Forall (λ r, length r = t_size1 x) (t_data x).

(** The weight of a token in [encode] and in [decode], for a dispatcher of
    one stream with the gates [gv]. *)
Definition encode_gate (d : TutelMoeFastDispatcher) (gv : Vector) : gate_ref :=
  if is_postscore d then the_ones_helper else own_gate gv.
Definition decode_gate (d : TutelMoeFastDispatcher) (gv : Vector) : gate_ref :=
  if is_postscore d then own_gate gv else the_ones_helper.

(** ** jit_compiler.py: the source text of a kernel *)

(** [s.startswith(p)] *)
Fixpoint starts_with (p s : string) : bool :=
  match p, s with
  | EmptyString, _ => true
  | String a p', String b s' => bool_decide (a = b) && starts_with p' s'
  | String _ _, EmptyString => false
  end.

(** [p in s] *)
Fixpoint contains (p s : string) : bool :=
  starts_with p s
  || match s with
     | EmptyString => false
     | String _ s' => contains p s'
     end.

(** [s.replace(old, new)] for a pattern [old] that is not empty: the text is
    read from the left; where the pattern starts, [new] is written and the
    pattern is passed over ([skip] counts what is left of it), elsewhere the
    character is kept. *)
Fixpoint replace_from (old new : string) (skip : nat) (s : string) : string :=
  match s with
  | EmptyString => EmptyString
  | String ch s' =>
    match skip with
    | S n => replace_from old new n s'
    | O =>
      if starts_with old s
      then new +:+ replace_from old new (String.length old - 1) s'
      else String ch (replace_from old new 0 s')
    end
  end.

Definition str_replace (old new s : string) : string := replace_from old new 0 s.

(** ['@%s@' % key] *)
Definition placeholder (key : string) : string := String "@" (key +:+ "@").

(** The loop of [generate_kernel]: the keys of [keyword_dict] in the order of
    the dictionary, each with the text [str] gives for its value; the
    result is the text handed to [create_raw]. *)
Definition kernel_source (keyword_dict : list (string * string)) (template : string)
    : string :=
  foldl (λ text kv, str_replace (placeholder kv.1) kv.2 text) template keyword_dict.

(** A text without the character [@]. *)
Fixpoint plain (s : string) : bool :=
  match s with
  | EmptyString => true
  | String ch s' => negb (bool_decide (ch = "@"%char)) && plain s'
  end.

(** The gates of the scenario in half precision. *)
Definition scenario_gates_half : GateTensor :=
  {| g_dtype := float16; g_is_cuda := g_is_cuda scenario_gates;
     g_size1 := g_size1 scenario_gates; g_data := g_data scenario_gates |}.

(** One-hot gates of four tokens that all choose the first of two experts. *)
Definition crowded_gates : GateTensor :=
  {| g_dtype := float32; g_is_cuda := false; g_size1 := 2;
     g_data := replicate 4 [1%Qc; 0%Qc] |}.

(** Buffers that happen to hold zeros where they are allocated, and buffers
    that hold what an earlier computation left. *)
Definition zero_memory : Memory :=
  {| fresh_rows := λ _ _ _, 0%Qc; fresh_entries := λ _ _, 0%Qc |}.
Definition stale_memory : Memory :=
  {| fresh_rows := λ k r c, Qc_of_Z (Z.of_nat (k + r + c) + 5);
     fresh_entries := λ k t, Qc_of_Z (Z.of_nat (k + t) + 7) |}.

(** A dictionary of two keywords. *)
Definition scenario_keywords : list (string * string) :=
  [("dtype", "float"); ("IS_FLOAT", "1")].

(** * Properties *)

(** * Sorting positions *)

Section sort_positions_facts.
Context {K : Type} (precedes : K → K → bool).

Hypothesis precedes_asym : ∀ a b, precedes a b = true → precedes b a = false.
Hypothesis precedes_neg_trans :
  ∀ a b c, precedes b a = false → precedes c b = false → precedes c a = false.

Lemma insert_position_perm x l : insert_position precedes x l ≡ₚ x :: l.
Proof.
  induction l as [|y l IH]; simpl; [done|].
  destruct (precedes y.1 x.1); [|done].
  rewrite IH. apply Permutation_swap.
Qed.

Lemma sorted_pairs_perm l : foldr (insert_position precedes) [] l ≡ₚ l.
Proof.
  induction l as [|x l IH]; simpl; [done|].
  by rewrite insert_position_perm, IH.
Qed.

Lemma insert_position_sorted x l :
  StronglySorted (keeps_order precedes) l →
  StronglySorted (keeps_order precedes) (insert_position precedes x l).
Proof.
  induction 1 as [|y l Hl IH Hy]; simpl.
  { repeat constructor. }
  destruct (precedes y.1 x.1) eqn:Hyx.
  - constructor; [done|].
    rewrite insert_position_perm. constructor; [|done].
    unfold keeps_order. by apply precedes_asym.
  - constructor; [by constructor|].
    constructor; [done|].
    eapply Forall_impl; [exact Hy|].
    intros z Hz. unfold keeps_order in *. by eapply precedes_neg_trans.
Qed.

Lemma sorted_pairs_sorted l :
  StronglySorted (keeps_order precedes) (foldr (insert_position precedes) [] l).
Proof.
  induction l as [|x l IH]; simpl; [constructor|].
  by apply insert_position_sorted.
Qed.

Lemma sort_positions_perm keys :
  sort_positions precedes keys ≡ₚ seq 0 (length keys).
Proof.
  unfold sort_positions. rewrite sorted_pairs_perm.
  rewrite snd_zip; [done|]. by rewrite length_seq.
Qed.
End sort_positions_facts.

Lemma sumZ_bounds l :
  Forall (λ z, 0 ≤ z ≤ 1) l → 0 ≤ sumZ l ≤ Z.of_nat (length l).
Proof. induction 1; simpl; lia. Qed.

Lemma lookup_total_zip_with_add (a b : list Z) e :
  length a = length b → (e < length a)%nat →
  zip_with Z.add a b !!! e = a !!! e + b !!! e.
Proof.
  revert b e. induction a as [|x a IH]; intros [|y b] e Hlen He; simplify_eq/=; [lia|].
  destruct e as [|e]; simpl; [done|]. apply IH; lia.
Qed.

Lemma one_hot_row_lookup (i j cols : nat) :
  (i < cols)%nat → (j < cols)%nat →
  (<[i := 1]> (replicate cols 0) : list Z) !! j = Some (if decide (i = j) then 1 else 0).
Proof.
  intros Hi Hj. destruct (decide (i = j)) as [->|Hne].
  - apply list_lookup_insert_eq. by rewrite length_replicate.
  - rewrite list_lookup_insert_ne by done. by apply lookup_replicate_2.
Qed.

Lemma one_hot_row_length (i cols : nat) :
  length (<[i := 1]> (replicate cols 0) : list Z) = cols.
Proof. by rewrite length_insert, length_replicate. Qed.

(** A product with a one-hot row, summed, picks one entry. *)
Lemma select_Z (row : list Z) (i : nat) :
  (i < length row)%nat →
  sumZ (zip_with Z.mul row (<[i := 1]> (replicate (length row) 0))) = row !!! i.
Proof.
  revert i. induction row as [|x row IH]; intros i Hi; simpl in *; [lia|].
  destruct i as [|i]; simpl.
  - assert (sumZ (zip_with Z.mul row (replicate (length row) 0)) = 0) as ->; [|lia].
    clear. induction row; simpl; lia.
  - rewrite IH by lia. lia.
Qed.

Lemma select_Qc (row : list Qc) (i : nat) :
  (i < length row)%nat →
  sumQc (zip_with (λ g z, (g * Qc_of_Z z)%Qc) row (<[i := 1]> (replicate (length row) 0)))
  = row !!! i.
Proof.
  revert i. induction row as [|x row IH]; intros i Hi; simpl in *; [lia|].
  assert (Qc_of_Z 0 = 0%Qc) as H0 by (by apply Qc_is_canon).
  assert (Qc_of_Z 1 = 1%Qc) as H1 by (by apply Qc_is_canon).
  destruct i as [|i]; simpl.
  - assert (sumQc (zip_with (λ g z, (g * Qc_of_Z z)%Qc) row (replicate (length row) 0)) = 0%Qc)
      as ->.
    { clear -H0. induction row as [|y row IH]; simpl; [done|].
      rewrite IH, H0. ring. }
    rewrite H1. ring.
  - rewrite IH by lia. rewrite H0. ring.
Qed.

(** Prefix sums, column by column. *)
Lemma cumsum_from_lookup (cols : nat) acc m t r e :
  (e < cols)%nat → length acc = cols → rows_of_width cols m →
  cumsum_from acc m !! t = Some r →
  length r = cols ∧ r !!! e = acc !!! e + sumZ (take (S t) (column e m)).
Proof.
  intros He Hacc Hm. revert acc t Hacc. induction Hm as [|x m Hx Hm IH]; intros acc t Hacc Ht.
  { done. }
  simpl in Ht. destruct t as [|t]; simplify_eq/=.
  - split; [rewrite length_zip_with; lia|].
    rewrite ?take_0. simpl. rewrite lookup_total_zip_with_add by lia. lia.
  - apply IH in Ht as [? ->]; [|rewrite length_zip_with; lia].
    split; [done|]. rewrite lookup_total_zip_with_add by lia. lia.
Qed.

Lemma cumsum_dim0_lookup (cols : nat) m t r e :
  (e < cols)%nat → rows_of_width cols m →
  cumsum_dim0 m !! t = Some r →
  length r = cols ∧ r !!! e = sumZ (take (S t) (column e m)).
Proof.
  intros He Hm Ht. destruct Hm as [|x m Hx Hm]; [done|].
  simpl in Ht. destruct t as [|t]; simplify_eq/=.
  - split; [done|]. rewrite ?take_0. simpl. lia.
  - by eapply cumsum_from_lookup in Ht as [? ->].
Qed.

Lemma cumsum_dim0_length m : length (cumsum_dim0 m) = length m.
Proof.
  destruct m as [|x m]; simpl; [done|]. f_equal.
  generalize x. induction m as [|y m IH]; intros a; simpl; [done|]. by rewrite IH.
Qed.

Lemma fast_cumsum_sub_one_lookup (cols : nat) m t e :
  rows_of_width cols m → (t < length m)%nat → (e < cols)%nat →
  ∃ r, fast_cumsum_sub_one m !! t = Some r ∧ length r = cols
       ∧ r !!! e = sumZ (take (S t) (column e m)) - 1.
Proof.
  intros Hm Ht He. unfold fast_cumsum_sub_one.
  destruct (lookup_lt_is_Some_2 (cumsum_dim0 m) t) as [r Hr].
  { by rewrite cumsum_dim0_length. }
  destruct (cumsum_dim0_lookup cols m t r e He Hm Hr) as [Hlen Hre].
  exists ((λ z, z - 1) <$> r). rewrite list_lookup_fmap, Hr. simpl.
  split; [done|]. split; [by rewrite length_fmap|].
  rewrite (list_lookup_total_fmap (λ z, z - 1) r e) by lia. by rewrite Hre.
Qed.

Lemma StronglySorted_lookup {A} (R : relation A) l i j x y :
  StronglySorted R l → (i < j)%nat → l !! i = Some x → l !! j = Some y → R x y.
Proof.
  intros Hl. revert i j. induction Hl as [|a l Hl IH Ha]; intros i j Hij Hi Hj; [done|].
  destruct j as [|j]; [lia|]. destruct i as [|i]; simplify_eq/=.
  - rewrite Forall_forall in Ha. apply Ha. by eapply list_elem_of_lookup_2.
  - eapply IH; [|done..]. lia.
Qed.

Lemma zip_positions_lookup {K} (keys : list K) :
  Forall (λ x, keys !! x.2 = Some x.1) (zip keys (seq 0 (length keys))).
Proof.
  apply Forall_lookup. intros i [k a] Hi.
  apply lookup_zip_with_Some in Hi as (x & y & ? & Hx & Hy). simplify_eq/=.
  apply lookup_seq in Hy as [-> _]. done.
Qed.

Section sorted_positions.
Context {K : Type} (precedes : K → K → bool).
Hypothesis precedes_asym : ∀ a b, precedes a b = true → precedes b a = false.
Hypothesis precedes_neg_trans :
  ∀ a b c, precedes b a = false → precedes c b = false → precedes c a = false.

(** Later in the sorted positions, not strictly before in the order. *)
Lemma sort_positions_sorted keys i j a b ka kb :
  (i < j)%nat →
  sort_positions precedes keys !! i = Some a →
  sort_positions precedes keys !! j = Some b →
  keys !! a = Some ka → keys !! b = Some kb →
  precedes kb ka = false.
Proof.
  unfold sort_positions. intros Hij Hi Hj Ha Hb.
  set (pairs := foldr (insert_position precedes) [] (zip keys (seq 0 (length keys)))) in *.
  assert (Forall (λ x, keys !! x.2 = Some x.1) pairs) as Hpairs.
  { unfold pairs. rewrite sorted_pairs_perm. apply zip_positions_lookup. }
  rewrite list_lookup_fmap in Hi, Hj.
  destruct (pairs !! i) as [[ka' a']|] eqn:Hpi; simplify_eq/=.
  destruct (pairs !! j) as [[kb' b']|] eqn:Hpj; simplify_eq/=.
  rewrite Forall_lookup in Hpairs.
  pose proof (Hpairs _ _ Hpi) as Ha'. pose proof (Hpairs _ _ Hpj) as Hb'.
  simplify_eq/=.
  pose proof (sorted_pairs_sorted precedes precedes_asym precedes_neg_trans
                (zip keys (seq 0 (length keys)))) as Hs.
  apply (StronglySorted_lookup _ _ i j _ _ Hs Hij Hpi Hpj).
Qed.
End sorted_positions.

Lemma argsort_perm scores : argsort scores ≡ₚ seq 0 (length scores).
Proof. apply sort_positions_perm. Qed.

Lemma argsort_sorted scores i j a b ka kb :
  (i < j)%nat → argsort scores !! i = Some a → argsort scores !! j = Some b →
  scores !! a = Some ka → scores !! b = Some kb → (ka ≤ kb)%Qc.
Proof.
  intros Hij Hi Hj Ha Hb.
  assert (bool_decide (kb < ka)%Qc = false) as H.
  { unfold argsort in Hi, Hj.
    refine (sort_positions_sorted _ _ _ scores i j a b ka kb Hij Hi Hj Ha Hb).
    - intros x y Hxy%bool_decide_eq_true. apply bool_decide_eq_false.
      apply Qcle_not_lt. by apply Qclt_le_weak.
    - intros x y z Hyx%bool_decide_eq_false Hzy%bool_decide_eq_false.
      apply bool_decide_eq_false. apply Qcle_not_lt.
      apply Qcnot_lt_le in Hyx, Hzy. by eapply Qcle_trans. }
  apply bool_decide_eq_false in H. by apply Qcnot_lt_le.
Qed.

Lemma seq_StronglySorted a n : StronglySorted le (seq a n).
Proof.
  revert a. induction n as [|n IH]; intros a; simpl; constructor; [done|].
  apply Forall_forall. intros x Hx%elem_of_seq. lia.
Qed.

(** [argsort_pos] of a permutation of the positions is its inverse. *)
Lemma argsort_pos_inverse p n t :
  p ≡ₚ seq 0 n → (t < n)%nat →
  ∃ j, argsort_pos p !! t = Some j ∧ p !! j = Some t.
Proof.
  intros Hp Ht. unfold argsort_pos, sort_positions.
  set (pairs := foldr (insert_position Nat.ltb) [] (zip p (seq 0 (length p)))).
  assert (Forall (λ x, p !! x.2 = Some x.1) pairs) as Hpairs.
  { unfold pairs. rewrite sorted_pairs_perm. apply zip_positions_lookup. }
  assert (pairs.*1 = seq 0 n) as Hkeys.
  { apply (StronglySorted_unique le); [| apply seq_StronglySorted |].
    - assert (StronglySorted (keeps_order Nat.ltb) pairs) as Hs.
      { apply sorted_pairs_sorted.
        - intros a b Hab%Nat.ltb_lt. apply Nat.ltb_ge. lia.
        - intros a b c Hba%Nat.ltb_ge Hcb%Nat.ltb_ge. apply Nat.ltb_ge. lia. }
      clear -Hs. induction Hs as [|x l Hl IH Hx]; simpl; constructor; [done|].
      apply Forall_fmap. eapply Forall_impl; [exact Hx|].
      intros y Hy. unfold keeps_order in Hy. apply Nat.ltb_ge in Hy. simpl. lia.
    - unfold pairs. rewrite sorted_pairs_perm.
      rewrite fst_zip; [done|]. by rewrite length_seq. }
  assert (pairs.*1 !! t = Some t) as Hk.
  { rewrite Hkeys. by apply lookup_seq. }
  rewrite list_lookup_fmap in Hk.
  destruct (pairs !! t) as [[k j]|] eqn:Hpt; simplify_eq/=.
  exists j. rewrite list_lookup_fmap, Hpt. split; [done|].
  rewrite Forall_lookup in Hpairs. apply (Hpairs _ _ Hpt).
Qed.

Lemma prefix_count_ge1 (l : list Z) j n :
  Forall (λ z, 0 ≤ z) l → l !! j = Some 1 → (j < n)%nat → 1 ≤ sumZ (take n l).
Proof.
  intros Hl. revert j n. induction Hl as [|x l Hx Hl IH]; intros j n Hj Hn; [done|].
  destruct n as [|n]; [lia|]. simpl.
  destruct j as [|j]; simplify_eq/=.
  - assert (0 ≤ sumZ (take n l)); [|lia].
    clear -Hl. revert n. induction Hl; intros [|n]; simpl; try lia.
    specialize (IHHl n). lia.
  - specialize (IH j n Hj ltac:(lia)). lia.
Qed.

Lemma prefix_count_lt (l : list Z) s t :
  Forall (λ z, 0 ≤ z) l → (s < t)%nat → l !! t = Some 1 →
  sumZ (take (S s) l) < sumZ (take (S t) l).
Proof.
  intros Hl. revert s t. induction Hl as [|x l Hx Hl IH]; intros s t Hst Ht; [done|].
  destruct t as [|t]; [lia|]. simpl in Ht.
  destruct s as [|s].
  - change (take 1 (x :: l)) with [x]. change (take (S (S t)) (x :: l)) with (x :: take (S t) l).
    pose proof (prefix_count_ge1 l t (S t) Hl Ht ltac:(lia)).
    unfold sumZ in *. rewrite !foldr_cons. simpl foldr at 1.
    generalize dependent (foldr Z.add 0 (take (S t) l)). intros z Hz. clear IH. lia.
  - change (take (S (S s)) (x :: l)) with (x :: take (S s) l).
    change (take (S (S t)) (x :: l)) with (x :: take (S t) l). simpl.
    specialize (IH s t ltac:(lia) Ht). lia.
Qed.

Lemma prefix_count_le (l : list Z) n :
  Forall (λ z, 0 ≤ z ≤ 1) l → sumZ (take n l) ≤ Z.of_nat (length l).
Proof.
  intros Hl. pose proof (sumZ_bounds (take n l) ltac:(by apply Forall_take)) as H.
  rewrite length_take in H. lia.
Qed.

Lemma one_hot_row_total (i e cols : nat) :
  (i < cols)%nat → (e < cols)%nat →
  (<[i := 1]> (replicate cols 0) : list Z) !!! e = if decide (i = e) then 1 else 0.
Proof. intros. apply list_lookup_total_correct. by apply one_hot_row_lookup. Qed.

Lemma one_hot_rows_of_width idx cols :
  rows_of_width cols (one_hot_with_dtype idx cols).
Proof.
  unfold rows_of_width, one_hot_with_dtype. apply Forall_fmap, Forall_forall.
  intros i _. apply one_hot_row_length.
Qed.

Lemma one_hot_lookup idx cols t e :
  idx !! t = Some e →
  one_hot_with_dtype idx cols !! t = Some (<[e := 1]> (replicate cols 0)).
Proof. intros H. unfold one_hot_with_dtype. by rewrite list_lookup_fmap, H. Qed.

Lemma one_hot_length idx cols : length (one_hot_with_dtype idx cols) = length idx.
Proof. unfold one_hot_with_dtype. by rewrite length_fmap. Qed.

Lemma one_hot_entry idx cols i e :
  Forall (λ a, a < cols)%nat idx → (i < length idx)%nat → (e < cols)%nat →
  (one_hot_with_dtype idx cols !!! i) !!! e = indicator idx e i.
Proof.
  intros Hidx Hi He. destruct (lookup_lt_is_Some_2 idx i Hi) as [a Ha].
  rewrite (list_lookup_total_correct _ _ _ (one_hot_lookup idx cols i a Ha)).
  rewrite Forall_lookup in Hidx. rewrite one_hot_row_total by eauto.
  unfold indicator. rewrite Ha. repeat case_decide; simplify_eq; done.
Qed.

Lemma column_index_rows idx cols e p :
  Forall (λ a, a < cols)%nat idx → (e < cols)%nat →
  Forall (λ i, i < length idx)%nat p →
  column e (index_rows (one_hot_with_dtype idx cols) p) = indicator idx e <$> p.
Proof.
  intros Hidx He Hp. unfold column, index_rows. rewrite <-list_fmap_compose.
  apply Forall_fmap_ext. eapply Forall_impl; [exact Hp|].
  intros i Hi. simpl. by apply one_hot_entry.
Qed.

Lemma index_rows_seq {A} `{Inhabited A} (x : list A) :
  index_rows x (seq 0 (length x)) = x.
Proof.
  unfold index_rows. apply list_eq. intros i. rewrite list_lookup_fmap.
  destruct (decide (i < length x)%nat) as [Hi|Hi].
  - rewrite (lookup_seq_lt _ _ _ Hi). simpl.
    by rewrite list_lookup_lookup_total_lt.
  - rewrite lookup_seq_ge by lia. by rewrite lookup_ge_None_2 by lia.
Qed.

Lemma seq_lt n : Forall (λ i, i < n)%nat (seq 0 n).
Proof. apply Forall_forall. intros i Hi%elem_of_seq. lia. Qed.

Lemma perm_seq_lt p n : p ≡ₚ seq 0 n → Forall (λ i, i < n)%nat p.
Proof. intros ->. apply seq_lt. Qed.

(** The plain prefix sum counts in the order of the tokens. *)
Lemma slot_counts_cumsum idx cols :
  Forall (λ a, a < cols)%nat idx →
  slot_counts idx cols (seq 0 (length idx)) (seq 0 (length idx))
    (fast_cumsum_sub_one (one_hot_with_dtype idx cols)).
Proof.
  intros Hidx t e Ht.
  assert (t < length idx)%nat as Hlt by (by eapply lookup_lt_Some).
  assert (e < cols)%nat as He by (rewrite Forall_lookup in Hidx; eauto).
  destruct (fast_cumsum_sub_one_lookup cols (one_hot_with_dtype idx cols) t e)
    as (r & Hr & Hlen & Hre); [apply one_hot_rows_of_width|by rewrite one_hot_length|done|].
  exists r, t. split_and!; [done|done|by apply lookup_seq|by apply lookup_seq|].
  rewrite Hre. unfold seen. do 3 f_equal.
  rewrite <-(column_index_rows idx cols e (seq 0 (length idx))) by auto using seq_lt.
  by rewrite <-(one_hot_length idx cols), index_rows_seq.
Qed.

(** The sorted prefix sum counts in the order of the scores. *)
Lemma slot_counts_sorted idx cols scores :
  Forall (λ a, a < cols)%nat idx → length scores = length idx →
  slot_counts idx cols (argsort scores) (argsort_pos (argsort scores))
    (compute_sorted_location (one_hot_with_dtype idx cols) scores).
Proof.
  intros Hidx Hlen t e Ht.
  assert (t < length idx)%nat as Hlt by (by eapply lookup_lt_Some).
  assert (e < cols)%nat as He by (rewrite Forall_lookup in Hidx; eauto).
  pose proof (argsort_perm scores) as Hp. rewrite Hlen in Hp.
  destruct (argsort_pos_inverse _ _ t Hp Hlt) as (j & Hq & Hpj).
  set (p := argsort scores) in *. set (mask := one_hot_with_dtype idx cols).
  assert (j < length idx)%nat as Hj.
  { apply lookup_lt_Some in Hpj. by rewrite Hp, length_seq in Hpj. }
  assert (Forall (λ i, i < length idx)%nat p) as Hplt by (by apply perm_seq_lt).
  assert (rows_of_width cols (index_rows mask p)) as Hw.
  { unfold rows_of_width, index_rows. apply Forall_fmap.
    eapply Forall_impl; [exact Hplt|]. intros i Hi. simpl.
    destruct (lookup_lt_is_Some_2 idx i Hi) as [a Ha].
    rewrite (list_lookup_total_correct _ _ _ (one_hot_lookup idx cols i a Ha)).
    apply one_hot_row_length. }
  assert (length (index_rows mask p) = length idx) as Hsl.
  { unfold index_rows. by rewrite length_fmap, Hp, length_seq. }
  destruct (fast_cumsum_sub_one_lookup cols (index_rows mask p) j e)
    as (r' & Hr' & Hlen' & Hre'); [done|lia|done|].
  assert (index_rows mask p !! j = Some (<[e := 1]> (replicate cols 0))) as Hsx.
  { unfold index_rows. rewrite list_lookup_fmap, Hpj. simpl. f_equal.
    apply list_lookup_total_correct. by apply one_hot_lookup. }
  exists (zip_with Z.mul r' (<[e := 1]> (replicate cols 0))), j.
  split_and!; [|by rewrite length_zip_with, one_hot_row_length; lia|done|done|].
  - unfold compute_sorted_location, index_rows at 1. fold p. fold mask.
    rewrite list_lookup_fmap, Hq. simpl. f_equal.
    apply list_lookup_total_correct. unfold mul_ZZ.
    rewrite lookup_zip_with, Hr'. simpl. by rewrite Hsx.
  - rewrite (list_lookup_total_correct _ e (r' !!! e * 1)).
    + rewrite Hre'. unfold seen, mask. rewrite column_index_rows by done. lia.
    + rewrite lookup_zip_with. rewrite (list_lookup_lookup_total_lt r' e) by lia.
      simpl. rewrite one_hot_row_lookup by done. simpl.
      by rewrite decide_True.
Qed.

Lemma indicator_zero_one idx e p : Forall (λ z, 0 ≤ z ≤ 1) (indicator idx e <$> p).
Proof.
  apply Forall_fmap, Forall_forall. intros i _. simpl. unfold indicator.
  case_decide; lia.
Qed.

Lemma seen_bounds idx e p j t :
  p !! j = Some t → idx !! t = Some e → 1 ≤ seen idx e p j ≤ Z.of_nat (length p).
Proof.
  intros Hj Ht. unfold seen. split.
  - apply (prefix_count_ge1 _ j); [| |lia].
    + eapply Forall_impl; [apply indicator_zero_one|]. simpl. lia.
    + rewrite list_lookup_fmap, Hj. simpl. unfold indicator. by rewrite decide_True.
  - etrans; [apply prefix_count_le, indicator_zero_one|]. by rewrite length_fmap.
Qed.

Lemma seen_lt idx e p j1 j2 t2 :
  (j1 < j2)%nat → p !! j2 = Some t2 → idx !! t2 = Some e →
  seen idx e p j1 < seen idx e p j2.
Proof.
  intros Hj Hp Ht. unfold seen. apply prefix_count_lt; [|done|].
  - eapply Forall_impl; [apply indicator_zero_one|]. simpl. lia.
  - rewrite list_lookup_fmap, Hp. simpl. unfold indicator. by rewrite decide_True.
Qed.

(** The location of a token at one rank: the count of its expert so far,
    less one, plus the offset of the expert. *)
Lemma slots_of_rank idx cols p q M acc t e :
  slot_counts idx cols p q M → Forall (λ a, a < cols)%nat idx → length acc = cols →
  idx !! t = Some e →
  ∃ j, q !! t = Some j ∧ p !! j = Some t ∧
    sum_dim1_Z (mul_ZZ (add_row M acc) (one_hot_with_dtype idx cols)) !! t
    = Some (seen idx e p j - 1 + acc !!! e).
Proof.
  intros HM Hidx Hacc Ht.
  destruct (HM t e Ht) as (r & j & Hr & Hlen & Hq & Hp & Hre).
  assert (e < cols)%nat as He by (rewrite Forall_lookup in Hidx; eauto).
  exists j. split_and!; [done..|].
  unfold sum_dim1_Z, mul_ZZ, add_row.
  rewrite list_lookup_fmap, lookup_zip_with, list_lookup_fmap, Hr. simpl.
  rewrite (one_hot_lookup idx cols t e Ht). simpl. f_equal.
  assert (length (zip_with Z.add r acc) = cols) as Hl by (rewrite length_zip_with; lia).
  rewrite <-Hl at 1. rewrite select_Z by lia.
  rewrite lookup_total_zip_with_add by lia. by rewrite Hre.
Qed.

Lemma slots_of_rank0 idx cols p q M t e :
  slot_counts idx cols p q M → Forall (λ a, a < cols)%nat idx →
  idx !! t = Some e →
  ∃ j, q !! t = Some j ∧ p !! j = Some t ∧
    sum_dim1_Z (mul_ZZ M (one_hot_with_dtype idx cols)) !! t
    = Some (seen idx e p j - 1).
Proof.
  intros HM Hidx Ht.
  destruct (HM t e Ht) as (r & j & Hr & Hlen & Hq & Hp & Hre).
  assert (e < cols)%nat as He by (rewrite Forall_lookup in Hidx; eauto).
  exists j. split_and!; [done..|].
  unfold sum_dim1_Z, mul_ZZ.
  rewrite list_lookup_fmap, lookup_zip_with, Hr. simpl.
  rewrite (one_hot_lookup idx cols t e Ht). simpl. f_equal.
  rewrite <-Hlen at 1. rewrite select_Z by lia. done.
Qed.

Lemma zip_with_add_bounds (a b c d : Z) l1 l2 :
  Forall (λ z, a ≤ z ≤ b) l1 → Forall (λ z, c ≤ z ≤ d) l2 →
  Forall (λ z, a + c ≤ z ≤ b + d) (zip_with Z.add l1 l2).
Proof.
  intros H1. revert l2. induction H1 as [|x l1 Hx H1 IH]; intros l2 H2; simpl; [done|].
  destruct H2 as [|y l2 Hy H2]; [done|]. constructor; [lia|]. by apply IH.
Qed.

Lemma sum_dim0_Z_bounds cols m :
  rows_of_width cols m → zero_one m →
  length (sum_dim0_Z cols m) = cols
  ∧ Forall (λ z, 0 ≤ z ≤ Z.of_nat (length m)) (sum_dim0_Z cols m).
Proof.
  intros Hw. induction Hw as [|r m Hr Hw IH]; intros H01; simpl.
  - rewrite length_replicate. split; [done|].
    apply Forall_replicate. lia.
  - apply Forall_cons in H01 as [H0 H01]. destruct (IH H01) as [Hl Hb].
    split; [rewrite length_zip_with; lia|].
    eapply Forall_impl; [apply (zip_with_add_bounds _ _ _ _ _ _ H0 Hb)|].
    simpl. lia.
Qed.

Lemma one_hot_zero_one idx cols : zero_one (one_hot_with_dtype idx cols).
Proof.
  unfold zero_one, one_hot_with_dtype. apply Forall_fmap, Forall_forall.
  intros i _. simpl. apply Forall_lookup. intros j z Hj.
  apply list_lookup_insert_Some in Hj as [(-> & <- & _)|[_ Hj]]; [lia|].
  apply lookup_replicate in Hj as [-> _]. lia.
Qed.

Lemma zip_with_add_zeros cols (s : list Z) :
  length s = cols → zip_with Z.add (replicate cols 0) s = s.
Proof.
  revert s. induction cols as [|n IH]; intros [|x s] Hs; simplify_eq/=; [done|].
  by rewrite IH.
Qed.

Lemma locations_above_None cl cols prev rest :
  rows_of_width cols prev →
  locations_above cl cols None prev rest
  = locations_above cl cols (Some (replicate cols 0)) prev rest.
Proof.
  intros Hw. destruct rest as [|mask rest]; simpl; [done|].
  assert (length (sum_dim0_Z cols prev) = cols) as Hl.
  { clear -Hw. induction Hw; simpl; [by rewrite length_replicate|].
    rewrite length_zip_with. lia. }
  by rewrite zip_with_add_zeros.
Qed.

(** The locations of the ranks above the first: the offset of an expert is
    the number of tokens it was given at the ranks before. *)
Lemma locations_above_lookup cl cols rows bound acc0 prev rest k locs :
  length acc0 = cols → Forall (λ z, 0 ≤ z ≤ bound) acc0 →
  rank_mask cols rows prev → Forall (rank_mask cols rows) rest →
  locations_above cl cols (Some acc0) prev rest !! k = Some locs →
  ∃ mask acc, rest !! k = Some mask ∧ length acc = cols
    ∧ Forall (λ z, 0 ≤ z ≤ bound + (Z.of_nat k + 1) * Z.of_nat rows) acc
    ∧ locs = to_int32 <$> sum_dim1_Z (mul_ZZ (add_row (cl mask) acc) mask).
Proof.
  intros Hl Hb Hprev Hrest. revert bound acc0 prev k Hl Hb Hprev.
  induction Hrest as [|mask rest Hmask Hrest IH]; intros bound acc0 prev k Hl Hb Hprev Hk;
    [done|].
  destruct Hprev as (Hw & H01 & Hrows).
  destruct (sum_dim0_Z_bounds cols prev Hw H01) as [Hsl Hsb]. rewrite Hrows in Hsb.
  simpl in Hk. destruct k as [|k]; simplify_eq/=.
  - eexists mask, _. split_and!; [done| |..|done].
    + rewrite length_zip_with. lia.
    + eapply Forall_impl; [apply (zip_with_add_bounds _ _ _ _ _ _ Hb Hsb)|]. simpl. lia.
  - eapply (IH (bound + Z.of_nat (length prev))) in Hk as (m & acc & ? & ? & Hacc & ->);
      [|rewrite length_zip_with; lia| |done].
    + exists m, acc. split_and!; [done..| |done].
      eapply Forall_impl; [exact Hacc|]. simpl. lia.
    + eapply Forall_impl; [apply (zip_with_add_bounds _ _ _ _ _ _ Hb Hsb)|]. simpl. lia.
Qed.

Lemma to_int32_small z : - 2 ^ 31 ≤ z < 2 ^ 31 → to_int32 z = z.
Proof. intros Hz. unfold to_int32. rewrite Z.mod_small; lia. Qed.

(** [topk] yields columns of the matrix. *)
Lemma topk_row_lookup top_k row k :
  (k < top_k)%nat → (top_k ≤ length row)%nat →
  ∃ i, topk_row top_k row !! k = Some i ∧ (i < length row)%nat.
Proof.
  intros Hk Hle. unfold topk_row.
  pose proof (sort_positions_perm (λ a b, bool_decide (b < a)%Qc) row) as Hp.
  destruct (lookup_lt_is_Some_2 (sort_positions (λ a b, bool_decide (b < a)%Qc) row) k)
    as [i Hi].
  { rewrite Hp, length_seq. lia. }
  exists i. rewrite lookup_take_lt by done. split; [done|].
  apply list_elem_of_lookup_2 in Hi. rewrite Hp in Hi. apply elem_of_seq in Hi. lia.
Qed.

Lemma fmap_seq_lookup_total_0 {A} `{Inhabited A} (f : nat → A) n :
  (0 < n)%nat → (f <$> seq 0 n) !!! 0%nat = f 0%nat.
Proof. destruct n; [lia|]. done. Qed.

Lemma extract_critical_inv gates top_k cf fp32 bpr c loss :
  extract_critical gates top_k cf fp32 bpr = Ok (c, loss) →
  (0 < top_k ≤ g_size1 gates)%nat
  ∧ load_balance gates (one_hot_with_dtype (chosen gates top_k 0) (g_size1 gates))
      (g_size1 gates) fp32 = Ok loss
  ∧ c_num_global_experts c = g_size1 gates
  ∧ c_indices_s c
    = (λ k, (λ i, to_int32 (Z.of_nat i)) <$> chosen gates top_k k) <$> seq 0 top_k
  ∧ c_locations_s c
    = (to_int32 <$> sum_dim1_Z
         (mul_ZZ (location_rule gates bpr
                    (one_hot_with_dtype (chosen gates top_k 0) (g_size1 gates)))
                 (one_hot_with_dtype (chosen gates top_k 0) (g_size1 gates))))
      :: locations_above (location_rule gates bpr) (g_size1 gates) None
           (one_hot_with_dtype (chosen gates top_k 0) (g_size1 gates))
           (rank_masks gates top_k (seq 1 (top_k - 1)))
  ∧ c_gates_s c
    = (if bool_decide (1 < top_k)%nat then
         (λ x : list Qc,
            zip_with Qcdiv x
              (Qcmax (finfo_eps (g_dtype gates))
                 <$> foldl (zip_with Qcplus) (replicate (g_size0 gates) 0%Qc)
                       (raw_gates gates top_k <$> seq 0 top_k)))
         <$> (raw_gates gates top_k <$> seq 0 top_k)
       else raw_gates gates top_k <$> seq 0 top_k)
  ∧ c_capacity c
    = Z.of_nat top_k
      * int_of (round64
                  (round64 cf
                   * Qc_of_Z ((Z.of_nat (g_size0 gates) + Z.of_nat (g_size1 gates) - 1)
                              `div` Z.of_nat (g_size1 gates))))%Qc
  ∧ c_is_cuda c = g_is_cuda gates
  ∧ c_dtype c = g_dtype gates.
Proof.
  unfold extract_critical. intros H.
  case_bool_decide as Hk; [done|]. case_bool_decide as Hk0; [done|].
  assert (0 < top_k)%nat as Hpos by lia.
  rewrite <-!list_fmap_compose in H.
  rewrite !fmap_seq_lookup_total_0 in H by done.
  simpl in H. unfold compose in H.
  destruct (load_balance _ _ _ _) as [l| |] eqn:Hl; simplify_eq/=.
  unfold chosen, rank_masks, raw_gates, location_rule.
  rewrite <-!list_fmap_compose.
  split_and!; try done; [lia|].
  destruct top_k as [|n]; [lia|]. simpl. by rewrite Nat.sub_0_r, drop_0.
Qed.

(** The converse: when the routing returns. *)
Lemma extract_critical_returns gates top_k cf fp32 bpr :
  (0 < top_k ≤ g_size1 gates)%nat →
  (0 < g_size0 gates)%nat ∨ (g_dtype gates ≠ float32 ∧ fp32 = false) →
  ∃ c loss, extract_critical gates top_k cf fp32 bpr = Ok (c, loss).
Proof.
  intros Hk Hn. unfold extract_critical.
  rewrite bool_decide_eq_false_2 by lia. rewrite bool_decide_eq_false_2 by lia.
  unfold load_balance.
  destruct (bool_decide (g_dtype gates = float32) || fp32) eqn:Hb.
  - rewrite (bool_decide_eq_false_2
               (Z.of_nat (g_size0 gates) * Z.of_nat (g_size0 gates) = 0)).
    { eexists _, _. reflexivity. }
    destruct Hn as [Hn|[Hd ->]]; [nia|].
    rewrite bool_decide_eq_false_2 in Hb by done. done.
  - eexists _, _. reflexivity.
Qed.

Lemma chosen_length gates top_k k : length (chosen gates top_k k) = g_size0 gates.
Proof. unfold chosen, g_size0. by rewrite !length_fmap. Qed.

Lemma chosen_lt gates top_k k :
  well_shaped gates → (k < top_k ≤ g_size1 gates)%nat →
  Forall (λ a, a < g_size1 gates)%nat (chosen gates top_k k).
Proof.
  intros Hw Hk. unfold chosen. rewrite <-list_fmap_compose.
  apply Forall_fmap. eapply Forall_impl; [exact Hw|].
  intros row Hrow. simpl in *.
  destruct (topk_row_lookup top_k row k) as (i & Hi & Hlt); [lia..|].
  rewrite (list_lookup_total_correct _ _ _ Hi). lia.
Qed.

Lemma counting_order_perm gates bpr :
  counting_order gates bpr ≡ₚ seq 0 (g_size0 gates).
Proof.
  unfold counting_order. destruct bpr; [|done].
  rewrite argsort_perm. unfold importance, g_size0. by rewrite length_fmap.
Qed.

Lemma location_rule_counts gates top_k bpr k :
  well_shaped gates → (k < top_k ≤ g_size1 gates)%nat →
  slot_counts (chosen gates top_k k) (g_size1 gates)
    (counting_order gates bpr) (place_in_order gates bpr)
    (location_rule gates bpr
       (one_hot_with_dtype (chosen gates top_k k) (g_size1 gates))).
Proof.
  intros Hw Hk. pose proof (chosen_lt gates top_k k Hw Hk) as Hlt.
  unfold counting_order, place_in_order, location_rule. destruct bpr.
  - apply slot_counts_sorted; [done|].
    unfold importance, g_size0. by rewrite length_fmap, chosen_length.
  - rewrite <-(chosen_length gates top_k k). by apply slot_counts_cumsum.
Qed.

Lemma rank_masks_ok gates top_k ranks :
  Forall (rank_mask (g_size1 gates) (g_size0 gates)) (rank_masks gates top_k ranks).
Proof.
  unfold rank_masks. apply Forall_fmap, Forall_forall. intros k _. simpl.
  split_and!; [apply one_hot_rows_of_width|apply one_hot_zero_one|].
  by rewrite one_hot_length, chosen_length.
Qed.

(** The locations of rank [k], token by token. *)
Lemma rank_locations gates top_k cf fp32 bpr c loss k :
  well_shaped gates →
  extract_critical gates top_k cf fp32 bpr = Ok (c, loss) →
  (k < top_k)%nat →
  ∃ locs (off : nat → Z),
    c_locations_s c !! k = Some locs
    ∧ (∀ e, (e < g_size1 gates)%nat → 0 ≤ off e ≤ Z.of_nat k * Z.of_nat (g_size0 gates))
    ∧ ∀ t e, chosen gates top_k k !! t = Some e →
        ∃ j, place_in_order gates bpr !! t = Some j
             ∧ counting_order gates bpr !! j = Some t
             ∧ locs !! t
               = Some (to_int32 (seen (chosen gates top_k k) e (counting_order gates bpr) j
                                 - 1 + off e)).
Proof.
  intros Hw Hc Hk.
  apply extract_critical_inv in Hc as (Htop & _ & _ & _ & Hloc & _).
  rewrite Hloc. destruct k as [|k].
  - eexists _, (λ _, 0). split; [done|]. split; [lia|].
    intros t e Ht.
    destruct (slots_of_rank0 _ _ _ _ _ t e
                (location_rule_counts gates top_k bpr 0 Hw ltac:(lia))
                (chosen_lt gates top_k 0 Hw ltac:(lia)) Ht) as (j & Hq & Hp & Hv).
    exists j. split_and!; [done..|].
    rewrite list_lookup_fmap, Hv. simpl. do 2 f_equal. lia.
  - simpl. rewrite locations_above_None by apply one_hot_rows_of_width.
    destruct (lookup_lt_is_Some_2
                (locations_above (location_rule gates bpr) (g_size1 gates)
                   (Some (replicate (g_size1 gates) 0))
                   (one_hot_with_dtype (chosen gates top_k 0) (g_size1 gates))
                   (rank_masks gates top_k (seq 1 (top_k - 1)))) k) as [locs Hlocs].
    { assert (∀ cl cols a prev rest,
                length (locations_above cl cols a prev rest) = length rest) as Hlen.
      { intros cl cols a prev rest. revert a prev.
        induction rest as [|m rest IH]; intros a prev; simpl; [done|]. by rewrite IH. }
      rewrite Hlen. unfold rank_masks. rewrite length_fmap, length_seq. lia. }
    pose proof Hlocs as Hlocs'.
    eapply (locations_above_lookup _ (g_size1 gates) (g_size0 gates) 0) in Hlocs'
      as (mask & acc & Hmask & Hacc & Hb & Heq); cycle 1.
    { by rewrite length_replicate. }
    { apply Forall_replicate. lia. }
    { split_and!; [apply one_hot_rows_of_width|apply one_hot_zero_one|].
      by rewrite one_hot_length, chosen_length. }
    { apply rank_masks_ok. }
    unfold rank_masks in Hmask. rewrite list_lookup_fmap in Hmask.
    rewrite lookup_seq_lt in Hmask by lia. simpl in Hmask. simplify_eq.
    eexists _, (λ e, acc !!! e).
    split; [exact Hlocs|]. split.
    { intros e He. rewrite Forall_lookup in Hb.
      destruct (lookup_lt_is_Some_2 acc e) as [z Hz]; [lia|].
      rewrite (list_lookup_total_correct _ _ _ Hz). specialize (Hb _ _ Hz). lia. }
    intros t e Ht.
    destruct (slots_of_rank _ _ _ _ _ acc t e
                (location_rule_counts gates top_k bpr (S k) Hw ltac:(lia))
                (chosen_lt gates top_k (S k) Hw ltac:(lia)) Hacc Ht)
      as (j & Hq & Hp & Hv).
    exists j. split_and!; [done..|].
    by rewrite list_lookup_fmap, Hv.
Qed.

Lemma importance_lookup gates t :
  (t < g_size0 gates)%nat →
  importance gates !! t = Some (-1 * top1_confidence gates t)%Qc.
Proof.
  intros Ht. unfold importance, top1_confidence. rewrite list_lookup_fmap.
  by rewrite (list_lookup_lookup_total_lt (g_data gates) t Ht).
Qed.

(** The place of a token in the counting order follows the token index
    without priorities, and the confidence with them. *)
Lemma place_in_order_mono gates bpr t1 t2 j1 j2 :
  counting_order gates bpr !! j1 = Some t1 →
  counting_order gates bpr !! j2 = Some t2 →
  (bpr = false → (t1 < t2)%nat → (j1 < j2)%nat)
  ∧ (bpr = true → (top1_confidence gates t2 < top1_confidence gates t1)%Qc → (j1 < j2)%nat).
Proof.
  intros H1 H2. split; intros ->; unfold counting_order in *.
  - apply lookup_seq in H1 as [-> _]. apply lookup_seq in H2 as [-> _]. lia.
  - intros Hconf.
    assert (t1 < g_size0 gates ∧ t2 < g_size0 gates)%nat as [Ht1 Ht2].
    { pose proof (counting_order_perm gates true) as Hp. unfold counting_order in Hp.
      apply list_elem_of_lookup_2 in H1, H2. rewrite Hp in H1, H2.
      apply elem_of_seq in H1, H2. lia. }
    destruct (decide (j1 < j2)%nat) as [|Hge]; [done|exfalso].
    assert (j1 ≠ j2) as Hne.
    { intros ->. simplify_eq. by apply Qclt_not_eq in Hconf. }
    pose proof (argsort_sorted (importance gates) j2 j1 t2 t1 _ _ ltac:(lia) H2 H1
                  (importance_lookup gates t2 Ht2) (importance_lookup gates t1 Ht1)) as Hle.
    replace (-1 * top1_confidence gates t1)%Qc with (- top1_confidence gates t1)%Qc
      in Hle by ring.
    replace (-1 * top1_confidence gates t2)%Qc with (- top1_confidence gates t2)%Qc
      in Hle by ring.
    apply Qcopp_le_compat in Hle. rewrite !Qcopp_involutive in Hle.
    by apply (Qcle_not_lt _ _ Hle).
Qed.

(** The slots of one rank: every token has a location, the locations of the
    tokens of one expert differ, and they follow the counting order. *)
Lemma rank_slots gates top_k cf fp32 bpr c loss k :
  well_shaped gates →
  Z.of_nat (g_size0 gates) * Z.of_nat top_k < 2 ^ 31 →
  extract_critical gates top_k cf fp32 bpr = Ok (c, loss) →
  (k < top_k)%nat →
  ∃ locs, c_locations_s c !! k = Some locs
    ∧ ∀ t1 e, chosen gates top_k k !! t1 = Some e →
        ∃ l1, locs !! t1 = Some l1 ∧ 0 ≤ l1
          ∧ ∀ t2 l2, chosen gates top_k k !! t2 = Some e → locs !! t2 = Some l2 →
              (t1 ≠ t2 → l1 ≠ l2)
              ∧ (bpr = false → (t1 < t2)%nat → l1 < l2)
              ∧ (bpr = true →
                 (top1_confidence gates t2 < top1_confidence gates t1)%Qc → l1 < l2).
Proof.
  intros Hw Hn Hc Hk.
  pose proof (extract_critical_inv _ _ _ _ _ _ _ Hc) as (Htop & _).
  destruct (rank_locations _ _ _ _ _ _ _ k Hw Hc Hk) as (locs & off & Hlocs & Hoff & Hv).
  exists locs. split; [done|]. intros t1 e Hc1.
  pose proof (chosen_lt gates top_k k Hw ltac:(lia)) as Hlt.
  rewrite Forall_lookup in Hlt. pose proof (Hlt _ _ Hc1) as He.
  specialize (Hoff e He).
  pose proof (counting_order_perm gates bpr) as Hperm.
  assert (length (counting_order gates bpr) = g_size0 gates) as Hlen.
  { by rewrite Hperm, length_seq. }
  assert ((Z.of_nat k + 1) * Z.of_nat (g_size0 gates)
          ≤ Z.of_nat (g_size0 gates) * Z.of_nat top_k) as Hkn by nia.
  destruct (Hv _ _ Hc1) as (j1 & Hq1 & Hp1 & Hv1).
  pose proof (seen_bounds _ _ _ _ _ Hp1 Hc1) as Hb1. rewrite Hlen in Hb1.
  rewrite to_int32_small in Hv1 by lia.
  eexists. split; [exact Hv1|]. split; [lia|].
  intros t2 l2 Hc2 Hl2.
  destruct (Hv _ _ Hc2) as (j2 & Hq2 & Hp2 & Hv2).
  pose proof (seen_bounds _ _ _ _ _ Hp2 Hc2) as Hb2. rewrite Hlen in Hb2.
  rewrite to_int32_small in Hv2 by lia. rewrite Hl2 in Hv2. simplify_eq.
  assert ((j1 < j2)%nat →
          seen (chosen gates top_k k) e (counting_order gates bpr) j1
          < seen (chosen gates top_k k) e (counting_order gates bpr) j2) as Hmono12.
  { intros. by eapply seen_lt. }
  assert ((j2 < j1)%nat →
          seen (chosen gates top_k k) e (counting_order gates bpr) j2
          < seen (chosen gates top_k k) e (counting_order gates bpr) j1) as Hmono21.
  { intros. by eapply seen_lt. }
  destruct (place_in_order_mono gates bpr t1 t2 j1 j2 Hp1 Hp2) as [Hplain Hprio].
  split_and!.
  - intros Hne. assert (j1 ≠ j2) as Hj by (intros ->; simplify_eq).
    destruct (decide (j1 < j2)%nat); [specialize (Hmono12 ltac:(done))
                                     |specialize (Hmono21 ltac:(lia))]; lia.
  - intros Hb Ht. specialize (Hmono12 (Hplain Hb Ht)). lia.
  - intros Hb Ht. specialize (Hmono12 (Hprio Hb Ht)). lia.
Qed.

(** The indices returned at rank [k] are the experts chosen, as int32. *)
Lemma rank_indices gates top_k cf fp32 bpr c loss k idx :
  extract_critical gates top_k cf fp32 bpr = Ok (c, loss) →
  c_indices_s c !! k = Some idx →
  (k < top_k)%nat ∧ idx = (λ i, to_int32 (Z.of_nat i)) <$> chosen gates top_k k.
Proof.
  intros Hc Hidx.
  pose proof (extract_critical_inv _ _ _ _ _ _ _ Hc) as (Htop & _ & _ & Hind & _).
  rewrite Hind, list_lookup_fmap in Hidx.
  destruct (seq 0 top_k !! k) as [k'|] eqn:Hk; [|done].
  apply lookup_seq in Hk as [-> Hk]. simpl in *. by simplify_eq.
Qed.

(** C3: in the output of [extract_critical], within one rank [k] two
    different tokens sent to the same expert never hold the same location
    (whatever the capacity), so no (expert, location) pair is shared.  Among
    the tokens of one expert the locations grow with the token index when
    [batch_prioritized_routing] is off, and a token of strictly greater top-1
    gate confidence holds the smaller location when it is on; [loc !! t] is
    the location of token [t], in the order of the input.  The two bounds keep
    the conversions to int32 from wrapping. *)
Theorem slots_unique_and_ordered gates top_k cf fp32 bpr c loss k idx loc t1 t2 e l1 l2 :
  well_shaped gates →
  Z.of_nat (g_size0 gates) * Z.of_nat top_k < 2 ^ 31 →
  Z.of_nat (g_size1 gates) ≤ 2 ^ 31 →
  extract_critical gates top_k cf fp32 bpr = Ok (c, loss) →
  c_indices_s c !! k = Some idx → c_locations_s c !! k = Some loc →
  idx !! t1 = Some e → idx !! t2 = Some e →
  loc !! t1 = Some l1 → loc !! t2 = Some l2 →
  (t1 ≠ t2 → l1 ≠ l2)
  ∧ (bpr = false → (t1 < t2)%nat → l1 < l2)
  ∧ (bpr = true →
     (top1_confidence gates t2 < top1_confidence gates t1)%Qc → l1 < l2).
Proof.
  intros Hw Hn He Hc Hidx Hloc Hi1 Hi2 Hl1 Hl2.
  pose proof (extract_critical_inv _ _ _ _ _ _ _ Hc) as (Htop & _).
  destruct (rank_indices _ _ _ _ _ _ _ _ _ Hc Hidx) as [Hk ->].
  rewrite list_lookup_fmap in Hi1, Hi2.
  destruct (chosen gates top_k k !! t1) as [e1|] eqn:Hc1; [|done].
  destruct (chosen gates top_k k !! t2) as [e2|] eqn:Hc2; [|done].
  simpl in *. simplify_eq.
  pose proof (chosen_lt gates top_k k Hw ltac:(lia)) as Hlt.
  rewrite Forall_lookup in Hlt.
  pose proof (Hlt _ _ Hc1) as He1. pose proof (Hlt _ _ Hc2) as He2.
  rewrite !to_int32_small in Hi2 by lia.
  assert (e2 = e1) as -> by lia. clear Hi2.
  destruct (rank_slots _ _ _ _ _ _ _ k Hw Hn Hc Hk) as (locs & Hlocs & Hslots).
  rewrite Hloc in Hlocs. simplify_eq.
  destruct (Hslots _ _ Hc1) as (l1' & Hl1' & _ & Hrel).
  rewrite Hl1 in Hl1'. simplify_eq. by apply (Hrel t2 l2).
Qed.

Lemma raw_gates_lookup gates top_k k t row :
  well_shaped gates → (k < top_k ≤ g_size1 gates)%nat →
  g_data gates !! t = Some row →
  ∃ e, chosen gates top_k k !! t = Some e ∧ (e < g_size1 gates)%nat
       ∧ raw_gates gates top_k k !! t = Some (row !!! e).
Proof.
  intros Hw Hk Hrow.
  assert (length row = g_size1 gates) as Hlen.
  { unfold well_shaped in Hw. rewrite Forall_lookup in Hw. eauto. }
  destruct (lookup_lt_is_Some_2 (chosen gates top_k k) t) as [e He].
  { rewrite chosen_length. by eapply lookup_lt_Some. }
  pose proof (chosen_lt gates top_k k Hw Hk) as Hlt. rewrite Forall_lookup in Hlt.
  exists e. split_and!; [done|by eauto|].
  unfold raw_gates, sum_dim1_Qc, mul_QZ.
  rewrite list_lookup_fmap, lookup_zip_with, Hrow. simpl.
  rewrite (one_hot_lookup _ _ _ _ He). simpl. f_equal.
  rewrite <-Hlen. apply select_Qc. rewrite Hlen. eauto.
Qed.

(** C10: with [top_k = 1], [extract_critical] returns one gate stream, and
    its entry for a token is the entry of that token's row of [gates] at the
    expert selected for it: nothing is divided and nothing is clamped. *)
Theorem top1_gate_is_raw_score gates cf fp32 bpr c loss :
  well_shaped gates →
  extract_critical gates 1 cf fp32 bpr = Ok (c, loss) →
  ∃ idx gs, c_indices_s c = [idx] ∧ c_gates_s c = [gs]
    ∧ ∀ t row, g_data gates !! t = Some row →
        ∃ e, (e < g_size1 gates)%nat
             ∧ idx !! t = Some (to_int32 (Z.of_nat e))
             ∧ gs !! t = Some (row !!! e).
Proof.
  intros Hw Hc.
  apply extract_critical_inv in Hc as (Htop & _ & _ & Hind & _ & Hg & _).
  rewrite bool_decide_eq_false_2 in Hg by lia. simpl in Hind, Hg.
  eexists _, _. split_and!; [done..|].
  intros t row Hrow.
  destruct (raw_gates_lookup gates 1 0 t row Hw ltac:(lia) Hrow) as (e & He & Hlt & Hraw).
  exists e. split_and!; [done| |done].
  by rewrite list_lookup_fmap, He.
Qed.

Lemma lookup_total_zip_with_Qcplus (a b : list Qc) t :
  length a = length b → (t < length a)%nat →
  zip_with Qcplus a b !!! t = (a !!! t + b !!! t)%Qc.
Proof.
  revert b t. induction a as [|x a IH]; intros [|y b] t Hlen Ht; simplify_eq/=; [lia|].
  destruct t as [|t]; simpl; [done|]. apply IH; lia.
Qed.

Lemma foldl_zip_with_Qcplus_lookup (n : nat) ls acc t :
  Forall (λ l : list Qc, length l = n) ls → length acc = n → (t < n)%nat →
  length (foldl (zip_with Qcplus) acc ls) = n
  ∧ foldl (zip_with Qcplus) acc ls !!! t
    = (acc !!! t + sumQc ((λ l : list Qc, l !!! t) <$> ls))%Qc.
Proof.
  intros Hls. revert acc. induction Hls as [|l ls Hl Hls IH]; intros acc Hacc Ht; simpl.
  - split; [done|]. by rewrite Qcplus_0_r.
  - destruct (IH (zip_with Qcplus acc l)) as [Hlen ->]; [rewrite length_zip_with; lia|done|].
    split; [done|]. rewrite lookup_total_zip_with_Qcplus by lia.
    symmetry. apply Qcplus_assoc.
Qed.

Lemma sumQc_div (l : list Qc) d :
  sumQc ((λ r, r / d)%Qc <$> l) = (sumQc l / d)%Qc.
Proof.
  induction l as [|x l IH].
  - simpl. unfold Qcdiv. ring.
  - rewrite fmap_cons. unfold sumQc in *. rewrite !foldr_cons, IH. unfold Qcdiv. ring.
Qed.

Lemma finfo_eps_pos d : (0 < finfo_eps d)%Qc.
Proof. by destruct d. Qed.

Lemma raw_gates_length gates top_k k :
  length (raw_gates gates top_k k) = g_size0 gates.
Proof.
  unfold raw_gates, sum_dim1_Qc, mul_QZ.
  rewrite length_fmap, length_zip_with, one_hot_length, chosen_length.
  unfold g_size0. lia.
Qed.

Lemma raw_gates_total gates top_k k t :
  well_shaped gates → (k < top_k ≤ g_size1 gates)%nat → (t < g_size0 gates)%nat →
  raw_gates gates top_k k !!! t = raw_score gates top_k t k.
Proof.
  intros Hw Hk Ht.
  destruct (lookup_lt_is_Some_2 (g_data gates) t Ht) as [row Hrow].
  destruct (raw_gates_lookup gates top_k k t row Hw Hk Hrow) as (e & He & _ & Hraw).
  unfold raw_score.
  by rewrite (list_lookup_total_correct _ _ _ Hraw), (list_lookup_total_correct _ _ _ Hrow),
    (list_lookup_total_correct _ _ _ He).
Qed.

(** C5: with [top_k > 1], the gate returned for token [t] at rank [k] is the
    raw score of the expert chosen at that rank divided by the maximum of
    [eps] and the sum of the raw scores of the token over the ranks; when
    that sum is at least [eps], the [top_k] gates of the token sum to 1. *)
Theorem topk_gates_normalised gates top_k cf fp32 bpr c loss t :
  well_shaped gates → (1 < top_k)%nat → (t < g_size0 gates)%nat →
  extract_critical gates top_k cf fp32 bpr = Ok (c, loss) →
  let total := sumQc (raw_score gates top_k t <$> seq 0 top_k) in
  let eps := finfo_eps (g_dtype gates) in
  (∀ k, (k < top_k)%nat →
     ∃ idx gs, c_indices_s c !! k = Some idx ∧ c_gates_s c !! k = Some gs
       ∧ idx !! t = Some (to_int32 (Z.of_nat (chosen gates top_k k !!! t)))
       ∧ gs !! t = Some (raw_score gates top_k t k / Qcmax eps total)%Qc)
  ∧ ((eps ≤ total)%Qc →
     sumQc ((λ gs : list Qc, gs !!! t) <$> c_gates_s c) = 1%Qc).
Proof.
  intros Hw Hk Ht Hc total eps.
  apply extract_critical_inv in Hc as (Htop & _ & _ & Hind & _ & Hg & _).
  rewrite bool_decide_eq_true_2 in Hg by lia.
  set (raws := raw_gates gates top_k <$> seq 0 top_k) in *.
  assert (Forall (λ l : list Qc, length l = g_size0 gates) raws) as Hraws.
  { unfold raws. apply Forall_fmap, Forall_forall. intros k _. apply raw_gates_length. }
  destruct (foldl_zip_with_Qcplus_lookup (g_size0 gates) raws
              (replicate (g_size0 gates) 0%Qc) t Hraws) as [Hlen Htot];
    [by rewrite length_replicate|done|].
  assert ((λ l : list Qc, l !!! t) <$> raws = raw_score gates top_k t <$> seq 0 top_k)
    as Hcol.
  { unfold raws. rewrite <-list_fmap_compose. apply Forall_fmap_ext, Forall_forall.
    intros k Hkin%elem_of_seq. simpl. apply raw_gates_total; [done|lia|done]. }
  rewrite Hcol in Htot. fold total in Htot.
  rewrite (list_lookup_total_correct _ _ _ (lookup_replicate_2 _ _ _ Ht)) in Htot.
  rewrite Qcplus_0_l in Htot.
  set (denom := Qcmax (finfo_eps (g_dtype gates))
                  <$> foldl (zip_with Qcplus) (replicate (g_size0 gates) 0%Qc) raws) in *.
  assert (denom !! t = Some (Qcmax eps total)) as Hden.
  { unfold denom. rewrite list_lookup_fmap.
    rewrite (list_lookup_lookup_total_lt _ t) by lia. simpl. by rewrite Htot. }
  assert (∀ k, (k < top_k)%nat →
            zip_with Qcdiv (raw_gates gates top_k k) denom !! t
            = Some (raw_score gates top_k t k / Qcmax eps total)%Qc) as Hnorm.
  { intros k Hk'. rewrite lookup_zip_with.
    rewrite (list_lookup_lookup_total_lt (raw_gates gates top_k k) t)
      by (by rewrite raw_gates_length).
    simpl. rewrite Hden. simpl. by rewrite raw_gates_total by (done || lia). }
  split.
  - intros k Hk'. rewrite Hind, Hg. unfold raws. rewrite !list_lookup_fmap.
    rewrite (lookup_seq_lt _ _ _ Hk'). simpl. eexists _, _. split_and!; [done..| |].
    + rewrite list_lookup_fmap.
      rewrite (list_lookup_lookup_total_lt (chosen gates top_k k) t)
        by (by rewrite chosen_length). done.
    + by apply Hnorm.
  - intros Heps. rewrite Hg. unfold raws. rewrite <-!list_fmap_compose.
    assert (Qcmax eps total = total) as Hmax.
    { unfold Qcmax. by rewrite bool_decide_eq_true_2. }
    assert (total ≠ 0%Qc) as Hnz.
    { intros H0. rewrite H0 in Heps. by apply (Qcle_not_lt _ _ Heps), finfo_eps_pos. }
    transitivity (sumQc ((λ r, r / total)%Qc <$> (raw_score gates top_k t <$> seq 0 top_k))).
    + rewrite <-list_fmap_compose. f_equal. apply Forall_fmap_ext, Forall_forall.
      intros k Hkin%elem_of_seq. simpl.
      pose proof (Hnorm k ltac:(lia)) as Hn. apply list_lookup_total_correct in Hn.
      rewrite Hn. by rewrite Hmax.
    + rewrite sumQc_div. fold total. unfold Qcdiv. by apply Qcmult_inv_r.
Qed.

Lemma sum_dim0_Qc_lookup cols rows e :
  Forall (λ r : list Qc, length r = cols) rows → (e < cols)%nat →
  length (sum_dim0_Qc cols rows) = cols
  ∧ sum_dim0_Qc cols rows !!! e = sumQc ((λ r : list Qc, r !!! e) <$> rows).
Proof.
  intros Hrows He. induction Hrows as [|r rows Hr Hrows [IHl IH]]; simpl.
  - rewrite length_replicate. split; [done|].
    apply list_lookup_total_correct. by apply lookup_replicate_2.
  - split; [rewrite length_zip_with; lia|].
    rewrite lookup_total_zip_with_Qcplus by lia. by rewrite IH.
Qed.

Lemma sum_dim0_Z_lookup cols rows e :
  rows_of_width cols rows → (e < cols)%nat →
  sum_dim0_Z cols rows !!! e = sumZ (column e rows).
Proof.
  intros Hrows He.
  assert (length (sum_dim0_Z cols rows) = cols
          ∧ sum_dim0_Z cols rows !!! e = sumZ (column e rows)) as [_ H]; [|done].
  induction Hrows as [|r rows Hr Hrows [IHl IH]]; simpl.
  - rewrite length_replicate. split; [done|].
    apply list_lookup_total_correct. by apply lookup_replicate_2.
  - split; [rewrite length_zip_with; lia|].
    rewrite lookup_total_zip_with_add by lia. by rewrite IH.
Qed.

Lemma one_hot_column_count idx cols e :
  Forall (λ a, a < cols)%nat idx → (e < cols)%nat →
  sumZ (column e (one_hot_with_dtype idx cols))
  = Z.of_nat (length (filter (λ a, a = e) idx)).
Proof.
  intros Hidx He. unfold column, one_hot_with_dtype. rewrite <-list_fmap_compose.
  induction Hidx as [|a idx Ha Hidx IH]; [done|].
  rewrite fmap_cons, filter_cons. unfold sumZ in *. rewrite foldr_cons, IH.
  simpl. rewrite one_hot_row_total by done.
  destruct (decide (a = e)); simpl; lia.
Qed.

Lemma Qc_of_Z_mul a b : Qc_of_Z (a * b) = (Qc_of_Z a * Qc_of_Z b)%Qc.
Proof.
  apply Qc_is_canon. unfold Qc_of_Z, Qcmult. simpl.
  rewrite Qred_correct. by rewrite inject_Z_mult.
Qed.

Lemma zip_with_fmap_seq {A B C} (h : A → B → C) (f : nat → A) (g : nat → B) n :
  zip_with h (f <$> seq 0 n) (g <$> seq 0 n) = (λ e, h (f e) (g e)) <$> seq 0 n.
Proof.
  generalize 0%nat. induction n as [|n IH]; intros a; simpl; [done|]. by rewrite IH.
Qed.

Lemma total_fmap_seq {A} `{Inhabited A} (l : list A) n :
  length l = n → l = (λ e, l !!! e) <$> seq 0 n.
Proof.
  intros <-. apply list_eq. intros i. rewrite list_lookup_fmap.
  destruct (decide (i < length l)%nat) as [Hi|Hi].
  - rewrite lookup_seq_lt by done. simpl. by apply list_lookup_lookup_total_lt.
  - rewrite lookup_seq_ge by lia. by apply lookup_ge_None_2; lia.
Qed.

Lemma load_balance_value gates top_k fp32 :
  well_shaped gates → (0 < top_k ≤ g_size1 gates)%nat → (0 < g_size0 gates)%nat →
  load_balance gates (one_hot_with_dtype (chosen gates top_k 0) (g_size1 gates))
    (g_size1 gates) fp32
  = Ok (let n := Qc_of_Z (Z.of_nat (g_size0 gates)) in
        let experts := Qc_of_Z (Z.of_nat (g_size1 gates)) in
        if bool_decide (g_dtype gates = float32) || fp32 then
          experts
          * sum_over_experts gates
              (λ e, gate_mass gates e * Qc_of_Z (tokens_routed gates top_k e))
          / (n * n)
        else
          experts
          * sum_over_experts gates
              (λ e, (gate_mass gates e / n) * (Qc_of_Z (tokens_routed gates top_k e) / n)))%Qc.
Proof.
  intros Hw Hk Hn.
  pose proof (chosen_lt gates top_k 0 Hw ltac:(lia)) as Hlt.
  set (mask := one_hot_with_dtype (chosen gates top_k 0) (g_size1 gates)).
  assert (sum_dim0_Qc (g_size1 gates) (g_data gates)
          = gate_mass gates <$> seq 0 (g_size1 gates)) as Hme.
  { rewrite (total_fmap_seq (sum_dim0_Qc _ _) (g_size1 gates)).
    - apply Forall_fmap_ext, Forall_forall. intros e He%elem_of_seq.
      apply sum_dim0_Qc_lookup; [done|lia].
    - destruct (g_size1 gates) as [|n] eqn:HE; [lia|].
      apply (sum_dim0_Qc_lookup _ _ 0%nat); [by rewrite <-HE|lia]. }
  assert (sum_dim0_Z (g_size1 gates) mask
          = tokens_routed gates top_k <$> seq 0 (g_size1 gates)) as Hce.
  { rewrite (total_fmap_seq (sum_dim0_Z _ _) (g_size1 gates)).
    - apply Forall_fmap_ext, Forall_forall. intros e He%elem_of_seq.
      rewrite sum_dim0_Z_lookup by (apply one_hot_rows_of_width || lia).
      apply one_hot_column_count; [done|lia].
    - apply sum_dim0_Z_bounds; [apply one_hot_rows_of_width|apply one_hot_zero_one]. }
  unfold load_balance. fold mask. rewrite Hme, Hce. cbv zeta.
  destruct (bool_decide (g_dtype gates = float32) || fp32).
  - rewrite bool_decide_eq_false_2 by nia. f_equal.
    rewrite <-list_fmap_compose, zip_with_fmap_seq. unfold sum_over_experts.
    rewrite Qc_of_Z_mul. unfold Qcdiv, compose. ring.
  - f_equal. rewrite <-!list_fmap_compose, zip_with_fmap_seq. unfold sum_over_experts.
    unfold compose. ring.
Qed.

(** C4: the loss returned by [extract_critical] is the number of experts
    times the sum over the experts of [me * ce].  When the gates are float32
    or [fp32_gate] is set, [me] and [ce] are the column sums (of the gates
    and of the mask of the first choice) and the product is divided by the
    square of the number of tokens; otherwise they are the column means and
    nothing more is divided. *)
Theorem load_balance_loss gates top_k cf fp32 bpr :
  well_shaped gates → (0 < top_k ≤ g_size1 gates)%nat → (0 < g_size0 gates)%nat →
  ∃ c, extract_critical gates top_k cf fp32 bpr
       = Ok (c,
             let n := Qc_of_Z (Z.of_nat (g_size0 gates)) in
             let experts := Qc_of_Z (Z.of_nat (g_size1 gates)) in
             if bool_decide (g_dtype gates = float32) || fp32 then
               experts
               * sum_over_experts gates
                   (λ e, gate_mass gates e * Qc_of_Z (tokens_routed gates top_k e))
               / (n * n)
             else
               experts
               * sum_over_experts gates
                   (λ e, (gate_mass gates e / n)
                         * (Qc_of_Z (tokens_routed gates top_k e) / n)))%Qc.
Proof.
  intros Hw Hk Hn.
  destruct (extract_critical_returns gates top_k cf fp32 bpr Hk (or_introl Hn))
    as (c & loss & Hc).
  exists c. rewrite Hc. do 2 f_equal.
  apply extract_critical_inv in Hc as (_ & Hl & _).
  rewrite load_balance_value in Hl by done. by simplify_eq.
Qed.

(** C2: on the gate matrix [[0.9,0.1],[0.8,0.2],[0.3,0.7],[0.4,0.6]] with
    [top_k = 1] and [capacity_factor = 1], [extract_critical] returns the
    capacity 2, the indices [0,0,1,1], the locations [0,1,0,1] and the gates
    [0.9,0.8,0.7,0.6]. *)
Theorem scenario_routing :
  ∃ c loss,
    extract_critical scenario_gates 1 1%Qc false false = Ok (c, loss)
    ∧ c_capacity c = 2
    ∧ c_indices_s c = [[0; 0; 1; 1]]
    ∧ c_locations_s c = [[0; 1; 0; 1]]
    ∧ c_gates_s c = [[Q2Qc (9 # 10); Q2Qc (8 # 10); Q2Qc (7 # 10); Q2Qc (6 # 10)]].
Proof.
  eexists _, _. split; [vm_compute; reflexivity|].
  split_and!; [reflexivity..|].
  cbn [c_gates_s]. repeat f_equal; apply Qc_is_canon; reflexivity.
Qed.

(** [int] of a number that is not negative is its floor. *)
Lemma int_of_floor (q : Qc) :
  (0 ≤ q)%Qc → (Qc_of_Z (int_of q) ≤ q)%Qc ∧ (q < Qc_of_Z (int_of q) + 1)%Qc.
Proof.
  intros Hq. destruct q as [[n d] Hcanon]. unfold int_of. cbn [this Qnum Qden].
  assert (0 ≤ n) as Hn by (unfold Qcle, Qle in Hq; simpl in Hq; lia).
  rewrite Z.quot_div_nonneg by lia.
  pose proof (Z.div_mod n (Z.pos d) ltac:(lia)) as Hdm.
  pose proof (Z.mod_pos_bound n (Z.pos d) ltac:(lia)) as Hmod.
  set (z := n `div` Z.pos d) in *.
  split.
  - unfold Qcle, Qle. cbn. nia.
  - unfold Qclt.
    assert (this (Qc_of_Z z + 1)%Qc == inject_Z z + 1)%Q as -> by apply Qred_correct.
    unfold Qlt. cbn. nia.
Qed.

Lemma ceil_div_spec (n e : Z) :
  0 < e → ((n + e - 1) `div` e - 1) * e < n ≤ (n + e - 1) `div` e * e.
Proof.
  intros He.
  pose proof (Z.div_mod (n + e - 1) e ltac:(lia)) as Hdm.
  pose proof (Z.mod_pos_bound (n + e - 1) e He) as Hmod.
  nia.
Qed.

Lemma Qc_of_Z_nonneg z : 0 ≤ z → (0 ≤ Qc_of_Z z)%Qc.
Proof. intros Hz. unfold Qcle. simpl. unfold Qle. simpl. lia. Qed.

(** *** Rounding to a float64 *)

Lemma round_half_even_bounds p q :
  0 < q →
  p `div` q ≤ round_half_even p q ≤ p `div` q + 1
  ∧ (p `mod` q = 0 → round_half_even p q = p `div` q).
Proof.
  intros Hq. unfold round_half_even.
  repeat case_bool_decide; try destruct (Z.even _); split; try lia.
Qed.

Lemma Q2Qc_le_Z (z m : Z) (P : positive) :
  z * Zpos P ≤ m → (Qc_of_Z z ≤ Q2Qc (m # P))%Qc.
Proof.
  intros H. unfold Qcle. cbn [this Qc_of_Z Q2Qc].
  rewrite !Qred_correct. unfold Qle. simpl. lia.
Qed.

(** [exponent] is the exponent: [2 ^ e ≤ n / d < 2 ^ (e + 1)], written
    without negative powers. *)
Lemma exponent_spec (n d : Z) :
  0 < n → 0 < d →
  d * 2 ^ Z.max 0 (exponent n d) ≤ n * 2 ^ Z.max 0 (- exponent n d)
  ∧ n * 2 ^ Z.max 0 (- exponent n d) < 2 * d * 2 ^ Z.max 0 (exponent n d).
Proof.
  intros Hn Hd. unfold exponent.
  destruct (Z.log2_spec n Hn) as [Hn1 Hn2]. destruct (Z.log2_spec d Hd) as [Hd1 Hd2].
  pose proof (Z.log2_nonneg n) as Hln. pose proof (Z.log2_nonneg d) as Hld.
  rewrite Z.pow_succ_r in Hn2, Hd2 by lia.
  set (ln := Z.log2 n) in *. set (ld := Z.log2 d) in *. clearbody ln ld.
  assert (0 < 2 ^ ln) as Hpn by (apply Z.pow_pos_nonneg; lia).
  assert (0 < 2 ^ ld) as Hpd by (apply Z.pow_pos_nonneg; lia).
  destruct (decide (0 ≤ ln - ld)) as [He|He].
  - assert (2 ^ ln = 2 ^ ld * 2 ^ (ln - ld)) as Hsplit.
    { rewrite <-Z.pow_add_r by lia. f_equal. lia. }
    assert (0 < 2 ^ (ln - ld)) as Hpe by (apply Z.pow_pos_nonneg; lia).
    case_bool_decide as Htest.
    + rewrite (Z.max_r 0 (ln - ld)), (Z.max_l 0 (- (ln - ld))) in * by lia.
      rewrite Z.pow_0_r in *. split; [done|]. nia.
    + rewrite (Z.max_r 0 (ln - ld)), (Z.max_l 0 (- (ln - ld))) in Htest by lia.
      rewrite Z.pow_0_r in Htest.
      destruct (decide (ln - ld = 0)) as [Hz|Hz].
      * rewrite (Z.max_l 0 (ln - ld - 1)), (Z.max_r 0 (- (ln - ld - 1))) by lia.
        assert (- (ln - ld - 1) = 1) as -> by lia.
        rewrite Hz in *. rewrite Z.pow_0_r, Z.pow_1_r in *. nia.
      * rewrite (Z.max_r 0 (ln - ld - 1)), (Z.max_l 0 (- (ln - ld - 1))) by lia.
        rewrite Z.pow_0_r.
        assert (2 ^ (ln - ld) = 2 * 2 ^ (ln - ld - 1)) as Hhalf.
        { rewrite <-(Z.pow_succ_r 2) by lia. f_equal. lia. }
        assert (0 < 2 ^ (ln - ld - 1)) by (apply Z.pow_pos_nonneg; lia).
        rewrite Hhalf in *. nia.
  - assert (2 ^ ld = 2 ^ ln * 2 ^ (ld - ln)) as Hsplit.
    { rewrite <-Z.pow_add_r by lia. f_equal. lia. }
    assert (0 < 2 ^ (ld - ln)) as Hpe by (apply Z.pow_pos_nonneg; lia).
    assert (- (ln - ld) = ld - ln) as Hneg by lia.
    case_bool_decide as Htest.
    + rewrite (Z.max_l 0 (ln - ld)), (Z.max_r 0 (- (ln - ld))) in * by lia.
      rewrite Hneg in *. rewrite Z.pow_0_r in *. split; [done|]. nia.
    + rewrite (Z.max_l 0 (ln - ld)), (Z.max_r 0 (- (ln - ld))) in Htest by lia.
      rewrite Hneg, Z.pow_0_r in Htest.
      rewrite (Z.max_l 0 (ln - ld - 1)), (Z.max_r 0 (- (ln - ld - 1))) by lia.
      assert (- (ln - ld - 1) = Z.succ (ld - ln)) as -> by lia.
      rewrite Z.pow_succ_r, Z.pow_0_r by lia. nia.
Qed.

(** [round_half_even p q] is within a half of [p / q]. *)
Lemma round_half_even_nearest p q :
  0 < q → Z.abs (2 * (round_half_even p q * q - p)) ≤ q.
Proof.
  intros Hq. unfold round_half_even.
  pose proof (Z.div_mod p q ltac:(lia)) as Hdm.
  pose proof (Z.mod_pos_bound p q Hq) as Hmod.
  repeat case_bool_decide; try destruct (Z.even _); nia.
Qed.

(** [round64 a] is a multiple of [2 ^ - k] that is within half of [2 ^ - k]
    of [a], where [k] is 52 less the exponent of [a], at least 0 and at most
    1074. *)
Lemma round64_nearest (a : Qc) :
  let n := Qnum (this a) in
  let d := Zpos (Qden (this a)) in
  let k := Z.min 1074 (Z.max 0 (52 - exponent (Z.abs n) d)) in
  ∃ m, round64 a = Q2Qc (m # Z.to_pos (2 ^ k))
       ∧ Z.abs (2 * (m * d - n * 2 ^ k)) ≤ d.
Proof.
  intros n d k. exists (round_half_even (n * 2 ^ k) d). split; [done|].
  apply round_half_even_nearest. done.
Qed.

(** Rounding does not cross a whole number. *)
Lemma round64_lower (z : Z) (a : Qc) : (Qc_of_Z z ≤ a)%Qc → (Qc_of_Z z ≤ round64 a)%Qc.
Proof.
  intros Ha. unfold round64.
  set (k := Z.min 1074 (Z.max 0 (52 - exponent (Z.abs (Qnum a)) (Z.pos (Qden a))))).
  assert (0 < 2 ^ k) as HP by (apply Z.pow_pos_nonneg; lia).
  apply Q2Qc_le_Z. rewrite Z2Pos.id by done.
  unfold Qcle, Qle in Ha. cbn in Ha.
  destruct (round_half_even_bounds (Qnum a * 2 ^ k) (Z.pos (Qden a)) ltac:(lia))
    as [[Hlo _] _].
  etrans; [|exact Hlo]. apply Z.div_le_lower_bound; [lia|]. nia.
Qed.

(** A whole number is its own float. *)
Lemma round64_Z (z : Z) : round64 (Qc_of_Z z) = Qc_of_Z z.
Proof.
  unfold round64. cbn [Qc_of_Z this Qnum Qden inject_Z].
  set (k := Z.min 1074 (Z.max 0 (52 - exponent (Z.abs z) 1))).
  assert (0 < 2 ^ k) as HP by (apply Z.pow_pos_nonneg; lia).
  apply Qc_is_canon. cbn [this Q2Qc Qc_of_Z]. rewrite Qred_correct.
  destruct (round_half_even_bounds (z * 2 ^ k) 1 ltac:(lia)) as [_ ->].
  2: apply Z.mod_1_r.
  rewrite Z.div_1_r. unfold Qeq. simpl. rewrite Z2Pos.id by done. lia.
Qed.

Lemma round64_nonneg (a : Qc) : (0 ≤ a)%Qc → (0 ≤ round64 a)%Qc.
Proof. rewrite <-Z2Qc_inj_0. apply round64_lower. Qed.

(** The float product of line 181 for a factor that is not negative. *)
Lemma float_product_nonneg (cf : Qc) (z : Z) :
  (0 ≤ cf)%Qc → 0 ≤ z → (0 ≤ round64 (round64 cf * Qc_of_Z z))%Qc.
Proof.
  intros Hcf Hz. apply round64_nonneg.
  rewrite <-(Qcmult_0_l (Qc_of_Z z)).
  apply Qcmult_le_compat_r; [by apply round64_nonneg|by apply Qc_of_Z_nonneg].
Qed.

(** C6, as the code has it: for a positive [capacity_factor] the capacity
    returned by [extract_critical] is [top_k] times the whole part of the
    float product of [capacity_factor] and [ceil(num_tokens /
    num_global_experts)]: the product is rounded to a float64 and truncated
    by [int] before it is multiplied by [top_k].  It is the product
    [top_k * capacity_factor * ceil(...)] of the claim whenever
    [capacity_factor] is a float64 and [capacity_factor * ceil(...)] is a
    whole number below [2 ^ 53]. *)
Theorem capacity_value gates top_k cf fp32 bpr c loss :
  (0 < cf)%Qc →
  extract_critical gates top_k cf fp32 bpr = Ok (c, loss) →
  ∃ ceiling whole : Z,
    (ceiling - 1) * Z.of_nat (g_size1 gates) < Z.of_nat (g_size0 gates)
      ≤ ceiling * Z.of_nat (g_size1 gates)
    ∧ (Qc_of_Z whole ≤ round64 (round64 cf * Qc_of_Z ceiling))%Qc
    ∧ (round64 (round64 cf * Qc_of_Z ceiling) < Qc_of_Z whole + 1)%Qc
    ∧ c_capacity c = Z.of_nat top_k * whole
    ∧ (∀ m, round64 cf = cf → (cf * Qc_of_Z ceiling)%Qc = Qc_of_Z m → m < 2 ^ 53 →
         Qc_of_Z (c_capacity c)
         = (Qc_of_Z (Z.of_nat top_k) * cf * Qc_of_Z ceiling)%Qc).
Proof.
  intros Hcf Hc.
  apply extract_critical_inv in Hc as (Htop & _ & _ & _ & _ & _ & Hcap & _).
  set (ceiling := (Z.of_nat (g_size0 gates) + Z.of_nat (g_size1 gates) - 1)
                  `div` Z.of_nat (g_size1 gates)) in *.
  pose proof (ceil_div_spec (Z.of_nat (g_size0 gates)) (Z.of_nat (g_size1 gates))
                ltac:(lia)) as Hceil. fold ceiling in Hceil.
  assert (0 ≤ ceiling) as Hc0 by nia.
  pose proof (float_product_nonneg cf ceiling (Qclt_le_weak _ _ Hcf) Hc0) as Hprod.
  destruct (int_of_floor _ Hprod) as [Hlo Hhi].
  exists ceiling, (int_of (round64 (round64 cf * Qc_of_Z ceiling))).
  split_and!; [lia|lia|done|done|done|].
  intros m Hfloat Hm _.
  assert (int_of (round64 (round64 cf * Qc_of_Z ceiling)) = m) as Hint.
  { rewrite Hfloat, Hm, round64_Z. unfold int_of. simpl. apply Z.quot_1_r. }
  rewrite Hcap, Hint, Qc_of_Z_mul, <-Hm. ring.
Qed.

(** C6, as the claim has it, fails where the product is not whole: two
    tokens, two experts, [top_k = 2] and [capacity_factor = 1.5] give the
    capacity [2 * int(1.5 * 1) = 2], which is neither the product
    [2 * 1.5 * 1 = 3] of the claim nor its whole part. *)
Lemma capacity_is_truncated :
  ∃ c loss,
    extract_critical two_token_gates 2 (Q2Qc (3 # 2)) false false = Ok (c, loss)
    ∧ c_capacity c = 2
    ∧ Qc_of_Z (c_capacity c)
      ≠ (Qc_of_Z 2 * Q2Qc (3 # 2) * Qc_of_Z ((2 + 2 - 1) `div` 2))%Qc
    ∧ c_capacity c
      ≠ int_of (Qc_of_Z 2 * Q2Qc (3 # 2) * Qc_of_Z ((2 + 2 - 1) `div` 2))%Qc.
Proof.
  eexists _, _. split; [vm_compute; reflexivity|]. split; [reflexivity|].
  cbn [c_capacity]. split.
  - intros H. apply (f_equal this) in H. vm_compute in H. discriminate.
  - vm_compute. discriminate.
Qed.

(** The product is a float: five tokens for one expert with the factor 0.6
    give the capacity [int(0.6 * 5) = 3], the float nearest to 0.6 being
    below 0.6 and the float nearest to its fivefold being 3; twenty-five
    tokens with the factor 1.16 give [int(1.16 * 25) = 28]. *)
Lemma capacity_of_float_product :
  (∃ c loss, extract_critical (one_expert_gates 5) 1 (Q2Qc (6 # 10)) false false
             = Ok (c, loss) ∧ c_capacity c = 3)
  ∧ (∃ c loss, extract_critical (one_expert_gates 25) 1 (Q2Qc (116 # 100)) false false
               = Ok (c, loss) ∧ c_capacity c = 28).
Proof. split; eexists _, _; (split; [vm_compute; reflexivity|reflexivity]). Qed.

Lemma bind_Ok {A B} (m : outcome A) (f : A → outcome B) b :
  m ≫= f = Ok b ↔ ∃ a, m = Ok a ∧ f a = Ok b.
Proof.
  destruct m as [a| |]; simpl; split; try done; try (by intros (? & ? & ?)).
  - eauto.
  - by intros (a' & [= ->] & ?).
Qed.

Lemma get_Ok {A} (l : list A) t a : get l t = Ok a ↔ l !! t = Some a.
Proof. unfold get. destruct (l !! t); split; congruence. Qed.

Lemma slot_of_Ok capacity index location rows s :
  slot_of capacity index location rows = Ok s ↔
  0 ≤ index ∧ 0 ≤ location ∧ index * capacity + location < Z.of_nat rows
  ∧ s = Z.to_nat (index * capacity + location).
Proof.
  unfold slot_of. case_bool_decide as H; split.
  - intros [= <-]. by destruct H as (? & ? & ?).
  - by intros (_ & _ & _ & ->).
  - done.
  - intros (? & ? & ? & _). by destruct H.
Qed.

Lemma primitive_step_dropped kernel_type indices locations capacity b t b' :
  dropped locations capacity t →
  primitive_step kernel_type indices locations capacity b t = Ok b' → b' = b.
Proof.
  intros (l & Hl & Hle) H. unfold primitive_step in H.
  apply bind_Ok in H as (i & Hi & H). apply bind_Ok in H as (l' & Hl' & H).
  apply get_Ok in Hl'. simplify_eq. rewrite bool_decide_eq_false_2 in H by lia.
  by simplify_eq.
Qed.

Lemma primitive_step_kept kernel_type indices locations capacity b t b' :
  kept locations capacity t →
  primitive_step kernel_type indices locations capacity b t = Ok b' →
  ∃ i l gate token_row slot_row,
    indices !! t = Some i ∧ locations !! t = Some l ∧ l < capacity
    ∧ 0 ≤ i ∧ 0 ≤ l ∧ i * capacity + l < Z.of_nat (length (t_data (b_slots b)))
    ∧ v_data (b_vector b) !! t = Some gate
    ∧ t_data (b_tokens b) !! t = Some token_row
    ∧ t_data (b_slots b) !! Z.to_nat (i * capacity + l) = Some slot_row
    ∧ length token_row = length slot_row
    ∧ b' = match kernel_type with
           | forward_scatter =>
             {| b_vector := b_vector b; b_tokens := b_tokens b;
                b_slots :=
                  {| t_dtype := t_dtype (b_slots b); t_size1 := t_size1 (b_slots b);
                     t_data := <[Z.to_nat (i * capacity + l)
                                 := add_rows slot_row (scale gate token_row)]>
                                 (t_data (b_slots b)) |} |}
           | backward_data_gather =>
             {| b_vector := b_vector b; b_slots := b_slots b;
                b_tokens :=
                  {| t_dtype := t_dtype (b_tokens b); t_size1 := t_size1 (b_tokens b);
                     t_data := <[t := add_rows token_row (scale gate slot_row)]>
                                 (t_data (b_tokens b)) |} |}
           | backward_gate_reduce =>
             {| b_tokens := b_tokens b; b_slots := b_slots b;
                b_vector :=
                  {| v_dtype := v_dtype (b_vector b);
                     v_data := <[t := dot token_row slot_row]> (v_data (b_vector b)) |} |}
           end.
Proof.
  intros (l & Hl & Hlt) H. unfold primitive_step in H.
  apply bind_Ok in H as (i & Hi & H). apply bind_Ok in H as (l' & Hl' & H).
  apply get_Ok in Hi, Hl'. simplify_eq. rewrite bool_decide_eq_true_2 in H by lia.
  apply bind_Ok in H as (s & Hs & H). apply bind_Ok in H as (g & Hg & H).
  apply bind_Ok in H as (x & Hx & H). apply bind_Ok in H as (r & Hr & H).
  apply get_Ok in Hg, Hx, Hr. apply slot_of_Ok in Hs as (? & ? & ? & ->).
  case_bool_decide; [|done].
  exists i, l, g, x, r. split_and!; try done.
  destruct kernel_type; by simplify_eq.
Qed.

(** When a step is within the contract. *)
Lemma primitive_step_returns kernel_type indices locations capacity b t i l gate
    token_row :
  indices !! t = Some i → locations !! t = Some l →
  v_data (b_vector b) !! t = Some gate →
  t_data (b_tokens b) !! t = Some token_row →
  (l < capacity →
   0 ≤ i ∧ 0 ≤ l ∧ i * capacity + l < Z.of_nat (length (t_data (b_slots b)))) →
  Forall (λ r, length r = length token_row) (t_data (b_slots b)) →
  ∃ b', primitive_step kernel_type indices locations capacity b t = Ok b'.
Proof.
  intros Hi Hl Hg Hx Hin Hw. unfold primitive_step.
  apply get_Ok in Hi, Hl. rewrite Hi, Hl. simpl.
  case_bool_decide as Hlt; [|eauto].
  destruct (Hin Hlt) as (? & ? & ?).
  unfold slot_of. rewrite bool_decide_eq_true_2 by done. simpl.
  apply get_Ok in Hg, Hx. rewrite Hg, Hx. simpl.
  destruct (lookup_lt_is_Some_2 (t_data (b_slots b)) (Z.to_nat (i * capacity + l)))
    as [r Hr]; [nia|].
  pose proof Hr as Hr'. apply get_Ok in Hr'. rewrite Hr'. simpl.
  rewrite Forall_lookup in Hw. rewrite bool_decide_eq_true_2 by (symmetry; eauto).
  destruct kernel_type; eauto.
Qed.

Lemma kept_or_dropped kernel_type indices locations capacity b t b' :
  primitive_step kernel_type indices locations capacity b t = Ok b' →
  kept locations capacity t ∨ dropped locations capacity t.
Proof.
  unfold primitive_step. intros H.
  apply bind_Ok in H as (i & Hi & H). apply bind_Ok in H as (l & Hl & H).
  apply get_Ok in Hl. destruct (decide (l < capacity)); [left|right]; exists l;
    split; (done || lia).
Qed.

(** The reduction leaves the two buffers alone and assigns the entry of each
    token that is kept. *)
Lemma reduce_loop indices locations capacity ts b b' :
  NoDup ts →
  primitive_loop backward_gate_reduce indices locations capacity ts b = Ok b' →
  b_tokens b' = b_tokens b ∧ b_slots b' = b_slots b
  ∧ v_dtype (b_vector b') = v_dtype (b_vector b)
  ∧ length (v_data (b_vector b')) = length (v_data (b_vector b))
  ∧ ∀ t,
      (t ∈ ts → kept locations capacity t →
       ∃ x r, t_data (b_tokens b) !! t = Some x
              ∧ t_data (b_slots b) !! slot_index indices locations capacity t = Some r
              ∧ v_data (b_vector b') !! t = Some (dot x r))
      ∧ (t ∉ ts ∨ dropped locations capacity t →
         v_data (b_vector b') !! t = v_data (b_vector b) !! t).
Proof.
  intros Hnd. revert b. induction Hnd as [|t0 ts Hnotin Hnd IH]; intros b H; simpl in H.
  { simplify_eq. split_and!; try done. intros t. split; [by intros ?%elem_of_nil|done]. }
  apply bind_Ok in H as (b1 & Hstep & H).
  destruct (IH _ H) as (Htok & Hslots & Hdt & Hlen & Hrows). clear IH.
  destruct (kept_or_dropped _ _ _ _ _ _ _ Hstep) as [Hk|Hd].
  - destruct (primitive_step_kept _ _ _ _ _ _ _ Hk Hstep)
      as (i & l & g & x & r & Hi & Hl & Hlt & Hi0 & Hl0 & Hin & Hg & Hx & Hr & Hw & ->).
    simpl in *. split_and!; try done.
    { by rewrite Hlen, length_insert. }
    intros t. split.
    + intros [->|Hin']%elem_of_cons Hkt.
      * exists x, r. split_and!; [done| |].
        { unfold slot_index.
          by rewrite (list_lookup_total_correct _ _ _ Hi), (list_lookup_total_correct _ _ _ Hl). }
        destruct (Hrows t0) as [_ ->]; [|by left].
        apply list_lookup_insert_eq. by eapply lookup_lt_Some.
      * destruct (Hrows t) as [Hyes _]. by apply Hyes.
    + intros Hno. destruct (Hrows t) as [_ ->].
      * apply list_lookup_insert_ne. intros ->. destruct Hno as [Hno|(l' & Hl' & Hge)].
        -- apply Hno. by left.
        -- simplify_eq. lia.
      * destruct Hno as [Hno|Hno]; [left|by right]. intros ?. apply Hno. by right.
  - apply (primitive_step_dropped _ _ _ _ _ _ _ Hd) in Hstep as ->.
    split_and!; try done. intros t. split.
    + intros [->|Hin']%elem_of_cons Hkt.
      * destruct Hkt as (l & Hl & ?), Hd as (l' & Hl' & ?). simplify_eq. lia.
      * by apply Hrows.
    + intros Hno. apply Hrows. destruct Hno as [Hno|Hno]; [left|by right].
      intros ?. apply Hno. by right.
Qed.

(** The gather leaves the vector and the slot buffer alone and adds onto the
    row of each token that is kept. *)
Lemma gather_loop indices locations capacity ts b b' :
  NoDup ts →
  primitive_loop backward_data_gather indices locations capacity ts b = Ok b' →
  b_vector b' = b_vector b ∧ b_slots b' = b_slots b
  ∧ t_dtype (b_tokens b') = t_dtype (b_tokens b)
  ∧ t_size1 (b_tokens b') = t_size1 (b_tokens b)
  ∧ length (t_data (b_tokens b')) = length (t_data (b_tokens b))
  ∧ ∀ t,
      (t ∈ ts → kept locations capacity t →
       ∃ g x r, v_data (b_vector b) !! t = Some g
              ∧ t_data (b_tokens b) !! t = Some x
              ∧ t_data (b_slots b) !! slot_index indices locations capacity t = Some r
              ∧ t_data (b_tokens b') !! t = Some (add_rows x (scale g r)))
      ∧ (t ∉ ts ∨ dropped locations capacity t →
         t_data (b_tokens b') !! t = t_data (b_tokens b) !! t).
Proof.
  intros Hnd. revert b. induction Hnd as [|t0 ts Hnotin Hnd IH]; intros b H; simpl in H.
  { simplify_eq. split_and!; try done. intros t. split; [by intros ?%elem_of_nil|done]. }
  apply bind_Ok in H as (b1 & Hstep & H).
  destruct (IH _ H) as (Hvec & Hslots & Hdt & Hsz & Hlen & Hrows). clear IH.
  destruct (kept_or_dropped _ _ _ _ _ _ _ Hstep) as [Hk|Hd].
  - destruct (primitive_step_kept _ _ _ _ _ _ _ Hk Hstep)
      as (i & l & g & x & r & Hi & Hl & Hlt & Hi0 & Hl0 & Hin & Hg & Hx & Hr & Hw & ->).
    simpl in *. split_and!; try done.
    { by rewrite Hlen, length_insert. }
    intros t. split.
    + intros [->|Hin']%elem_of_cons Hkt.
      * exists g, x, r. split_and!; [done|done| |].
        { unfold slot_index.
          by rewrite (list_lookup_total_correct _ _ _ Hi), (list_lookup_total_correct _ _ _ Hl). }
        destruct (Hrows t0) as [_ ->]; [|by left].
        apply list_lookup_insert_eq. by eapply lookup_lt_Some.
      * destruct (Hrows t) as [Hyes _].
        destruct (Hyes Hin' Hkt) as (g' & x' & r' & ? & Hx' & ? & ?).
        exists g', x', r'. split_and!; try done.
        rewrite list_lookup_insert_ne in Hx'; [done|]. by intros ->.
    + intros Hno. destruct (Hrows t) as [_ ->].
      * apply list_lookup_insert_ne. intros ->. destruct Hno as [Hno|(l' & Hl' & Hge)].
        -- apply Hno. by left.
        -- simplify_eq. lia.
      * destruct Hno as [Hno|Hno]; [left|by right]. intros ?. apply Hno. by right.
  - apply (primitive_step_dropped _ _ _ _ _ _ _ Hd) in Hstep as ->.
    split_and!; try done. intros t. split.
    + intros [->|Hin']%elem_of_cons Hkt.
      * destruct Hkt as (l & Hl & ?), Hd as (l' & Hl' & ?). simplify_eq. lia.
      * by apply Hrows.
    + intros Hno. apply Hrows. destruct Hno as [Hno|Hno]; [left|by right].
      intros ?. apply Hno. by right.
Qed.

(** The scatter leaves the vector and the token buffer alone; a slot that no
    token of the loop is kept in is left alone, and a slot that one token
    alone is kept in receives its weighted row. *)
Lemma scatter_loop indices locations capacity ts b b' :
  primitive_loop forward_scatter indices locations capacity ts b = Ok b' →
  b_vector b' = b_vector b ∧ b_tokens b' = b_tokens b
  ∧ t_dtype (b_slots b') = t_dtype (b_slots b)
  ∧ t_size1 (b_slots b') = t_size1 (b_slots b)
  ∧ length (t_data (b_slots b')) = length (t_data (b_slots b))
  ∧ ∀ s,
      ((∀ t, t ∈ ts → kept locations capacity t →
             slot_index indices locations capacity t ≠ s) →
       t_data (b_slots b') !! s = t_data (b_slots b) !! s)
      ∧ ∀ t, NoDup ts → t ∈ ts → kept locations capacity t →
          slot_index indices locations capacity t = s →
          (∀ t', t' ∈ ts → t' ≠ t → kept locations capacity t' →
                 slot_index indices locations capacity t' ≠ s) →
          ∃ g x r, v_data (b_vector b) !! t = Some g
                 ∧ t_data (b_tokens b) !! t = Some x
                 ∧ t_data (b_slots b) !! s = Some r
                 ∧ t_data (b_slots b') !! s = Some (add_rows r (scale g x)).
Proof.
  revert b. induction ts as [|t0 ts IH]; intros b H; simpl in H.
  { simplify_eq. split_and!; try done. intros s. split; [done|].
    by intros t _ ?%elem_of_nil. }
  apply bind_Ok in H as (b1 & Hstep & H).
  destruct (IH _ H) as (Hvec & Htok & Hdt & Hsz & Hlen & Hrows). clear IH.
  destruct (kept_or_dropped _ _ _ _ _ _ _ Hstep) as [Hk|Hd].
  - destruct (primitive_step_kept _ _ _ _ _ _ _ Hk Hstep)
      as (i & l & g & x & r & Hi & Hl & Hlt & Hi0 & Hl0 & Hin & Hg & Hx & Hr & Hw & ->).
    simpl in *.
    assert (slot_index indices locations capacity t0 = Z.to_nat (i * capacity + l)) as Hs0.
    { unfold slot_index.
      by rewrite (list_lookup_total_correct _ _ _ Hi), (list_lookup_total_correct _ _ _ Hl). }
    split_and!; try done.
    { by rewrite Hlen, length_insert. }
    intros s. split.
    + intros Hfree. destruct (Hrows s) as [-> _].
      * apply list_lookup_insert_ne. rewrite <-Hs0. apply Hfree; [by left|done].
      * intros t Ht. apply Hfree. by right.
    + intros t Hnd [->|Hin']%elem_of_cons Hkt Hs Hothers.
      * apply NoDup_cons in Hnd as [Hnotin Hnd].
        exists g, x, r. rewrite <-Hs, Hs0. split_and!; [done..|].
        destruct (Hrows (Z.to_nat (i * capacity + l))) as [-> _].
        -- apply list_lookup_insert_eq. by eapply lookup_lt_Some.
        -- intros t' Ht' Hkt'. rewrite <-Hs0, Hs. apply Hothers; [by right| |done].
           by intros ->.
      * apply NoDup_cons in Hnd as [Hnotin Hnd].
        destruct (Hrows s) as [_ Hhit].
        destruct (Hhit t Hnd Hin' Hkt Hs) as (g' & x' & r' & ? & ? & Hr' & ?).
        { intros t' Ht'. apply Hothers. by right. }
        exists g', x', r'. split_and!; try done.
        rewrite list_lookup_insert_ne in Hr'; [done|].
        rewrite <-Hs0. apply Hothers; [by left| |done]. by intros ->.
  - apply (primitive_step_dropped _ _ _ _ _ _ _ Hd) in Hstep as ->.
    split_and!; try done. intros s. split.
    + intros Hfree. apply Hrows. intros t Ht. apply Hfree. by right.
    + intros t Hnd [->|Hin']%elem_of_cons Hkt Hs Hothers.
      * destruct Hkt as (l & Hl & ?), Hd as (l' & Hl' & ?). simplify_eq. lia.
      * apply NoDup_cons in Hnd as [Hnotin Hnd].
        destruct (Hrows s) as [_ Hhit]. apply (Hhit t); try done.
        intros t' Ht'. apply Hothers. by right.
Qed.

Lemma add_rows_length a b : length (add_rows a b) = (length a `min` length b)%nat.
Proof. unfold add_rows. by rewrite length_zip_with. Qed.
Lemma scale_length g r : length (scale g r) = length r.
Proof. unfold scale. by rewrite length_fmap. Qed.

Lemma primitive_step_in_contract kernel_type indices locations capacity n w b t :
  in_contract indices locations capacity n w b → (t < n)%nat →
  ∃ b', primitive_step kernel_type indices locations capacity b t = Ok b'
        ∧ in_contract indices locations capacity n w b'.
Proof.
  intros (Hi & Hl & Hv & Hx & Hwt & Hws & Hin) Ht.
  destruct (lookup_lt_is_Some_2 indices t) as [i Hit]; [lia|].
  destruct (lookup_lt_is_Some_2 locations t) as [l Hlt]; [lia|].
  destruct (lookup_lt_is_Some_2 (v_data (b_vector b)) t) as [g Hg]; [lia|].
  destruct (lookup_lt_is_Some_2 (t_data (b_tokens b)) t) as [x Hxt]; [lia|].
  assert (length x = w) as Hxw by (rewrite Forall_lookup in Hwt; eauto).
  destruct (primitive_step_returns kernel_type indices locations capacity b t i l g x)
    as [b' Hstep]; [done..|by eauto|by rewrite Hxw|].
  exists b'. split; [done|].
  destruct (kept_or_dropped _ _ _ _ _ _ _ Hstep) as [Hk|Hd].
  - destruct (primitive_step_kept _ _ _ _ _ _ _ Hk Hstep)
      as (i' & l' & g' & x' & r & ? & ? & ? & ? & ? & ? & ? & ? & Hr & Hw & ->).
    assert (length r = w) as Hrw by (rewrite Forall_lookup in Hws; eauto).
    destruct kernel_type; simpl; split_and!; simpl; try done.
    + apply Forall_insert; [done|]. rewrite add_rows_length, scale_length. lia.
    + intros t'' i'' l'' ? ? ? ?. rewrite length_insert. eauto.
    + rewrite length_insert. lia.
    + apply Forall_insert; [done|]. rewrite add_rows_length, scale_length. lia.
    + rewrite length_insert. lia.
  - apply (primitive_step_dropped _ _ _ _ _ _ _ Hd) in Hstep as ->. done.
Qed.

Lemma primitive_loop_returns kernel_type indices locations capacity n w ts b :
  in_contract indices locations capacity n w b → Forall (λ t, t < n)%nat ts →
  ∃ b', primitive_loop kernel_type indices locations capacity ts b = Ok b'
        ∧ in_contract indices locations capacity n w b'.
Proof.
  intros Hb Hts. revert b Hb. induction Hts as [|t ts Ht Hts IH]; intros b Hb; simpl.
  { eauto. }
  destruct (primitive_step_in_contract kernel_type _ _ _ _ _ _ t Hb Ht)
    as (b1 & -> & Hb1). simpl. by apply IH.
Qed.

Lemma call_Ok func indices locations b extra b' :
  call func indices locations b extra = Ok b' →
  ∃ token_count aligned capacity,
    extra = [token_count; aligned; capacity]
    ∧ primitive_loop (kernel_type_of func) indices locations capacity
        (seq 0 (Z.to_nat token_count)) b = Ok b'.
Proof.
  assert (∀ elem k, run_primitive elem k indices locations b extra = Ok b' →
            ∃ token_count aligned capacity,
              extra = [token_count; aligned; capacity]
              ∧ primitive_loop k indices locations capacity
                  (seq 0 (Z.to_nat token_count)) b = Ok b') as Hrun.
  { intros elem k H. unfold run_primitive in H.
    destruct extra as [|n [|a [|c [|]]]]; try done.
    case_bool_decide; [|done]. eauto. }
  destruct func as [k|k elem]; simpl; [|by apply Hrun].
  destruct (v_dtype (b_vector b)); try done; apply Hrun.
Qed.

Lemma call_returns func indices locations b n w elem aligned capacity :
  dtype_fits func elem →
  v_dtype (b_vector b) = elem → t_dtype (b_tokens b) = elem → t_dtype (b_slots b) = elem →
  t_size1 (b_tokens b) = t_size1 (b_slots b) →
  aligned * lanes elem = Z.of_nat (t_size1 (b_tokens b)) →
  in_contract indices locations capacity n w b →
  ∃ b', call func indices locations b [Z.of_nat n; aligned; capacity] = Ok b'
        ∧ in_contract indices locations capacity n w b'.
Proof.
  intros Hfit Hv Ht Hs Hsz Hal Hb.
  assert (run_primitive elem (kernel_type_of func) indices locations b
            [Z.of_nat n; aligned; capacity]
          = primitive_loop (kernel_type_of func) indices locations capacity (seq 0 n) b)
    as Hrun.
  { unfold run_primitive. rewrite bool_decide_eq_true_2 by done. by rewrite Nat2Z.id. }
  destruct (primitive_loop_returns (kernel_type_of func) _ _ _ n w (seq 0 n) b Hb)
    as (b' & Hb' & Hin').
  { apply Forall_forall. intros t Ht'%elem_of_seq. lia. }
  exists b'. split; [|done].
  destruct func as [k|k e]; unfold call; cbn [kernel_type_of dtype_fits] in *.
  - rewrite Hv. destruct Hfit as [->| ->]; by rewrite Hrun.
  - subst e. by rewrite Hrun.
Qed.

(** *** What the scatter leaves in each row *)

Lemma sent_to_cons_in weight indices locations capacity rows t ts s :
  lands indices locations capacity s t = true →
  sent_to weight indices locations capacity rows (t :: ts) s
  = scale (weight t) (rows !!! t) :: sent_to weight indices locations capacity rows ts s.
Proof. intros H. unfold sent_to. by rewrite filter_cons_True. Qed.

Lemma sent_to_cons_out weight indices locations capacity rows t ts s :
  lands indices locations capacity s t = false →
  sent_to weight indices locations capacity rows (t :: ts) s
  = sent_to weight indices locations capacity rows ts s.
Proof.
  intros H. unfold sent_to. rewrite filter_cons_False; [done|]. by rewrite H.
Qed.

Lemma sent_to_ext w1 w2 indices locations capacity rows ts s :
  (∀ t, t ∈ ts → w1 t = w2 t) →
  sent_to w1 indices locations capacity rows ts s
  = sent_to w2 indices locations capacity rows ts s.
Proof.
  intros Hw. unfold sent_to. apply list_fmap_ext. intros i t Ht.
  rewrite Hw; [done|].
  apply list_elem_of_lookup_2 in Ht. by apply list_elem_of_filter in Ht as [_ ?].
Qed.

(** One loop of the scatter adds onto each row, in the order of the tokens,
    what the stream sends to it. *)
Lemma scatter_loop_rows indices locations capacity ts b b' s r :
  primitive_loop forward_scatter indices locations capacity ts b = Ok b' →
  t_data (b_slots b) !! s = Some r →
  t_data (b_slots b') !! s
  = Some (foldl add_rows r
            (sent_to (λ t, v_data (b_vector b) !!! t) indices locations capacity
               (t_data (b_tokens b)) ts s)).
Proof.
  revert b r. induction ts as [|t0 ts IH]; intros b r H Hr; simpl in H.
  { by simplify_eq. }
  apply bind_Ok in H as (b1 & Hstep & H).
  destruct (kept_or_dropped _ _ _ _ _ _ _ Hstep) as [Hk|Hd].
  - destruct (primitive_step_kept _ _ _ _ _ _ _ Hk Hstep)
      as (i & l & g & x & sr & Hi & Hl & Hlt & Hi0 & Hl0 & Hin & Hg & Hx & Hsr & Hw & ->).
    assert (slot_index indices locations capacity t0 = Z.to_nat (i * capacity + l)) as Hs0.
    { unfold slot_index.
      by rewrite (list_lookup_total_correct _ _ _ Hi), (list_lookup_total_correct _ _ _ Hl). }
    destruct (decide (s = Z.to_nat (i * capacity + l))) as [->|Hne].
    + rewrite sent_to_cons_in.
      2:{ unfold lands. apply bool_decide_eq_true_2.
          by rewrite (list_lookup_total_correct _ _ _ Hl). }
      assert (sr = r) as -> by congruence. cbn [foldl].
      rewrite (list_lookup_total_correct _ _ _ Hg), (list_lookup_total_correct _ _ _ Hx).
      apply (IH _ _ H). simpl. apply list_lookup_insert_eq. by eapply lookup_lt_Some.
    + rewrite sent_to_cons_out.
      2:{ unfold lands. apply bool_decide_eq_false_2. rewrite Hs0. by intros [_ ?]. }
      apply (IH _ _ H). simpl. by rewrite list_lookup_insert_ne.
  - pose proof (primitive_step_dropped _ _ _ _ _ _ _ Hd Hstep) as ->.
    destruct Hd as (l & Hl & Hge).
    rewrite sent_to_cons_out.
    2:{ unfold lands. apply bool_decide_eq_false_2.
        rewrite (list_lookup_total_correct _ _ _ Hl). lia. }
    by apply IH.
Qed.

(** The pass over the streams adds onto each row what every stream sends to
    it, and keeps the shape of the buffer. *)
Lemma scatter_streams_rows ks config src ss dst y :
  kernel_type_of (func_fwd ks) = forward_scatter →
  scatter_streams ks config src ss dst = Ok y →
  length (t_data y) = length (t_data dst)
  ∧ ∀ s r, t_data dst !! s = Some r →
      t_data y !! s
      = Some (foldl add_rows r
                (mjoin ((λ gil : gate_ref * (list Z * list Z),
                           sent_to (λ t, v_data (deref ks gil.1) !!! t) gil.2.1 gil.2.2
                             (capacity config) (t_data src)
                             (seq 0 (token_count config)) s)
                        <$> ss))).
Proof.
  intros Hkt. revert dst. induction ss as [|[g [i l]] ss IH]; intros dst H; simpl in H.
  { simplify_eq. split; [done|]. by intros s r ->. }
  apply bind_Ok in H as (extra & Hextra & H). apply bind_Ok in H as (b & Hcall & H).
  apply call_Ok in Hcall as (n & a & cap & -> & Hloop). rewrite Hkt in Hloop.
  assert (extra_of config
          = Ok [Z.of_nat (token_count config); aligned_dim config; capacity config])
    as Hextra'.
  { unfold extra_of, token_count in *. by destruct (indices_ config). }
  rewrite Hextra' in Hextra. simplify_eq. rewrite Nat2Z.id in Hloop.
  destruct (IH _ H) as [Hlen Hrows].
  destruct (scatter_loop _ _ _ _ _ _ Hloop) as (_ & _ & _ & _ & Hlen1 & _).
  simpl in Hlen1. split; [by rewrite Hlen|].
  intros s r Hr.
  pose proof (scatter_loop_rows _ _ _ _ _ _ s r Hloop Hr) as Hrow. simpl in Hrow.
  rewrite fmap_cons. cbn [mjoin list_join]. rewrite foldl_app.
  by apply Hrows.
Qed.

Lemma zip_with_streams {A B C} (f : A → B → C) (gs : list A) (ils : list B) :
  (λ gil : A * B, f gil.1 gil.2) <$> zip gs ils = zip_with f gs ils.
Proof.
  revert ils. induction gs as [|g gs IH]; intros [|il ils]; simpl; [done..|].
  by rewrite IH.
Qed.

Lemma forward_context config input gates ctx y :
  GatingEncoder.forward config input gates = Ok (ctx, y) →
  ctx = {| ctx_saved := input; ctx_config := config;
           ctx_gates_h2 := gates_h2_of config gates |}.
Proof.
  unfold GatingEncoder.forward. case_bool_decide as Hneg; [done|]. intros Hf.
  apply bind_Ok in Hf as (ks & _ & Hf). apply bind_Ok in Hf as (out & _ & Hf).
  by simplify_eq.
Qed.

Lemma decoder_forward_context mem config input gates ctx z :
  GatingDecoder.forward mem config input gates = Ok (ctx, z) →
  ctx = {| ctx_saved := input; ctx_config := config;
           ctx_gates_h2 := gates_h2_of config gates |}.
Proof.
  unfold GatingDecoder.forward. intros Hf.
  apply bind_Ok in Hf as (ks & _ & Hf). apply bind_Ok in Hf as (out & _ & Hf).
  by simplify_eq.
Qed.

(** The forward pass of [GatingEncoder]: each row of the buffer is the sum of
    what the streams send to it, the tokens weighted by the gates the pass
    keeps in its context. *)
Lemma encoder_forward_rows config ks input gates ctx y :
  kernels config = Some ks →
  kernel_type_of (func_fwd ks) = forward_scatter →
  GatingEncoder.forward config input gates = Ok (ctx, y) →
  length (t_data y) = Z.to_nat (num_global_experts config * capacity config)
  ∧ ∀ s, (s < Z.to_nat (num_global_experts config * capacity config))%nat →
      t_data y !! s
      = Some (dispatched ((λ g t, v_data (deref ks g) !!! t) <$> gates_h2_of config gates)
                config (t_data input) s).
Proof.
  intros Hks Hkt Hf. unfold GatingEncoder.forward in Hf.
  case_bool_decide as Hneg; [done|].
  apply bind_Ok in Hf as (ks' & Hks' & Hf). apply bind_Ok in Hf as (out & Hout & Hf).
  unfold bound_kernels in Hks'. rewrite Hks in Hks'. injection Hks' as <-.
  injection Hf as <- <-. cbn [ctx_gates_h2] in Hout.
  destruct (scatter_streams_rows _ _ _ _ _ _ Hkt Hout) as [Hlen Hrows].
  simpl in Hlen. rewrite length_replicate in Hlen. split; [done|].
  intros s Hs. rewrite (Hrows s (replicate (model_dim config) 0%Qc)).
  2:{ simpl. by apply lookup_replicate_2. }
  unfold dispatched, sum_rows, streams. do 3 f_equal.
  rewrite (zip_with_streams
             (λ g il, sent_to (λ t, v_data (deref ks g) !!! t) il.1 il.2 (capacity config)
                        (t_data input) (seq 0 (token_count config)) s)).
  by rewrite zip_with_fmap_l.
Qed.

(** The reduction over the streams: one gradient per stream, whose entry at
    a token that is kept is the product of its two rows. *)
Lemma reduce_streams_spec mem k0 ks config lhs rhs out_dtype ss grads :
  kernel_type_of (func_bwd_gate ks) = backward_gate_reduce →
  reduce_streams mem k0 ks config lhs rhs out_dtype ss = Ok grads →
  length grads = length ss
  ∧ ∀ k i l gg t, ss !! k = Some (i, l) → grads !! k = Some gg →
      (t < token_count config)%nat → kept l (capacity config) t →
      ∃ x r, t_data lhs !! t = Some x
             ∧ t_data rhs !! slot_index i l (capacity config) t = Some r
             ∧ v_data gg !! t = Some (dot x r).
Proof.
  intros Hkt. revert k0 grads.
  induction ss as [|[i l] ss IH]; intros k0 grads H; simpl in H.
  { simplify_eq. split; [done|]. intros k ?????. by rewrite lookup_nil. }
  apply bind_Ok in H as (extra & Hextra & H). apply bind_Ok in H as (b & Hcall & H).
  apply bind_Ok in H as (rest & Hrest & H). simplify_eq.
  destruct (IH _ _ Hrest) as [Hlen Hspec]. split; [simpl; lia|].
  intros [|k] i' l' gg t Hk Hgg Ht Hkept; simpl in *; simplify_eq; [|by eapply Hspec].
  apply call_Ok in Hcall as (n & a & cap & -> & Hloop). rewrite Hkt in Hloop.
  unfold extra_of in Hextra. unfold token_count in Ht.
  destruct (indices_ config) as [|first ?]; simplify_eq.
  apply reduce_loop in Hloop as (_ & _ & _ & _ & Hrows); [|apply NoDup_seq].
  destruct (Hrows t) as [Hyes _]. simpl in Hyes. apply Hyes; [|done].
  apply elem_of_seq. lia.
Qed.

(** The helper of ones weighs as ones do. *)
Lemma ones_weights ks config rows s :
  (∀ t, (t < token_count config)%nat → v_data (ones_helper ks) !! t = Some 1%Qc) →
  dispatched ((λ g t, v_data (deref ks g) !!! t)
                <$> replicate (length (indices_ config)) the_ones_helper) config rows s
  = dispatched (replicate (length (indices_ config)) (λ _, 1%Qc)) config rows s.
Proof.
  intros Hones. unfold dispatched. do 2 f_equal.
  rewrite fmap_replicate. cbn [deref].
  generalize (zip (indices_ config) (locations_ config)).
  generalize (length (indices_ config)).
  intros n. induction n as [|n IH]; intros [|il ils]; simpl; [done..|].
  rewrite IH. f_equal. apply sent_to_ext. intros t Ht%elem_of_seq.
  apply list_lookup_total_correct, Hones. lia.
Qed.

(** C7: what [encode] puts in each row of the buffer is the sum of the rows
    of the tokens kept in it, over the streams, each times its weight: the
    weight is 1 for every token when [is_postscore] is set (the helper of
    ones is handed to the kernel; the gates of the dispatcher are handed to
    the kernel in [decode]), and the gate of the token in its stream when it
    is not set.  The backward pass of [encode] returns no gate gradient when
    [is_postscore] is set; when it is not set it returns one gradient per
    stream, whose entry for a token that is kept is the dot product of the
    token's row of the input with the row of the upstream gradient at the
    token's slot. *)
Theorem encode_gates_and_gate_gradients mem self ks data ctx y grad last grads :
  kernels self = Some ks →
  kernel_type_of (func_fwd ks) = forward_scatter →
  kernel_type_of (func_bwd_gate ks) = backward_gate_reduce →
  (∀ t, (t < token_count self)%nat → v_data (ones_helper ks) !! t = Some 1%Qc) →
  gates_ self ≠ [] →
  encode_apply self data = Ok (ctx, y) →
  GatingEncoder.backward mem ctx grad = Ok (last, grads) →
  length (t_data y) = Z.to_nat (num_global_experts self * capacity self)
  ∧ (∀ s, (s < Z.to_nat (num_global_experts self * capacity self))%nat →
       t_data y !! s
       = Some (dispatched
                 (if is_postscore self
                  then replicate (length (indices_ self)) (λ _, 1%Qc)
                  else (λ g t, v_data g !!! t) <$> gates_ self)
                 self (t_data data) s))
  ∧ (∀ mem' data' ctx' z, decode_apply mem' self data' = Ok (ctx', z) →
       ctx_gates_h2 ctx'
       = if is_postscore self then own_gate <$> gates_ self
         else replicate (length (indices_ self)) the_ones_helper)
  ∧ if is_postscore self then grads = []
    else
      length grads = length (zip (indices_ self) (locations_ self))
      ∧ ∀ k i l gg t,
          indices_ self !! k = Some i → locations_ self !! k = Some l →
          grads !! k = Some gg →
          (t < token_count self)%nat → kept l (capacity self) t →
          ∃ x r, t_data data !! t = Some x
                 ∧ t_data grad !! slot_index i l (capacity self) t = Some r
                 ∧ v_data gg !! t = Some (dot x r).
Proof.
  intros Hks Hfwd Hkt Hones Hgates Henc Hbwd. unfold encode_apply in Henc.
  assert (gates_h2_of self (gates_ self) = own_gate <$> gates_ self) as Hh2.
  { unfold gates_h2_of. by destruct (gates_ self). }
  assert (∀ mem' data' ctx' z, decode_apply mem' self data' = Ok (ctx', z) →
            ctx_gates_h2 ctx'
            = if is_postscore self
              then gates_h2_of self (gates_ self) else gates_h2_of self []) as Hdec.
  { intros mem' data' ctx' z Hd. unfold decode_apply in Hd.
    destruct (is_postscore self); by apply decoder_forward_context in Hd as ->. }
  destruct (is_postscore self) eqn:Hpost.
  - pose proof (forward_context _ _ _ _ _ Henc) as ->.
    destruct (encoder_forward_rows _ _ _ _ _ _ Hks Hfwd Henc) as [Hlen Hrows].
    split; [done|]. split.
    { intros s Hs. rewrite (Hrows s Hs). cbn [gates_h2_of t_data tensor_to].
      by rewrite ones_weights. }
    split.
    { intros mem' data' ctx' z Hd. by rewrite (Hdec _ _ _ _ Hd). }
    unfold GatingEncoder.backward in Hbwd. simpl in Hbwd.
    apply bind_Ok in Hbwd as (ks' & _ & Hbwd). apply bind_Ok in Hbwd as (lr & _ & Hbwd).
    destruct (indices_ self); simpl in Hbwd; by simplify_eq.
  - pose proof (forward_context _ _ _ _ _ Henc) as ->.
    destruct (encoder_forward_rows _ _ _ _ _ _ Hks Hfwd Henc) as [Hlen Hrows].
    split; [done|]. split.
    { intros s Hs. rewrite (Hrows s Hs). cbn [t_data tensor_to]. rewrite Hh2.
      by rewrite <-list_fmap_compose. }
    split.
    { intros mem' data' ctx' z Hd. by rewrite (Hdec _ _ _ _ Hd). }
    unfold GatingEncoder.backward in Hbwd. simpl in Hbwd.
    apply bind_Ok in Hbwd as (ks' & Hks' & Hbwd). apply bind_Ok in Hbwd as (lr & _ & Hbwd).
    unfold bound_kernels in Hks'. rewrite Hks in Hks'. simplify_eq.
    rewrite Hh2 in Hbwd. destruct (gates_ self) as [|g gs]; [done|]. simpl in Hbwd.
    apply bind_Ok in Hbwd as (gg & Hred & Hbwd). simplify_eq.
    destruct (reduce_streams_spec _ _ _ _ _ _ _ _ _ Hkt Hred) as [Hlen' Hspec].
    split; [done|].
    intros k i l gg t Hi Hl Hgg Ht Hkept.
    apply (Hspec k i l gg t); [|done..].
    rewrite lookup_zip_with, Hi. simpl. by rewrite Hl.
Qed.

(** C8, as the code has it: [update] binds the handles it finds in the pool
    for the device class as they are, whatever the dtype of the dispatcher,
    and the handle that [generate_cpu_kernel] returns tests the dtype of its
    first input at each call: a call whose first input is neither float32
    nor float64 raises the error of [generate_cpu_kernel], and a call whose
    first input is float32 or float64 is the run of the primitive for that
    dtype. *)
Theorem cpu_dtype_checked_at_call self first indices locations gates dev c post pool ks
    kernel_type idx loc b_other b_float extra :
  is_cuda self ≠ Some dev → pool !! dev = Some ks →
  v_dtype (b_vector b_other) ≠ float32 → v_dtype (b_vector b_other) ≠ float64 →
  v_dtype (b_vector b_float) = float32 ∨ v_dtype (b_vector b_float) = float64 →
  (∃ d, update self (first :: indices) locations gates dev (Some c) post pool
        = Ok (d, pool)
        ∧ kernels d = Some ks ∧ dtype_ d = dtype_ self)
  ∧ call (JitCompiler.generate_cpu_kernel kernel_type) idx loc b_other extra
    = Raise cpu_dtype_message
  ∧ call (JitCompiler.generate_cpu_kernel kernel_type) idx loc b_float extra
    = run_primitive (v_dtype (b_vector b_float)) kernel_type idx loc b_float extra.
Proof.
  intros Hdev Hpool H32 H64 Hfloat. split_and!.
  - unfold update. simpl. rewrite bool_decide_eq_true_2 by done. rewrite Hpool.
    by eexists.
  - simpl. by destruct (v_dtype (b_vector b_other)).
  - simpl. by destruct Hfloat as [-> | ->].
Qed.

(** C8, as the claim has it, fails: a call of the handle of
    [generate_cpu_kernel] on buffers of half precision raises the error about
    the dtype; and where the pool holds the handles of [generate_cpu_kernel]
    for the CPU, a dispatcher of half precision is bound to them by [update]
    without an error, and the error is raised later, inside the forward pass
    of [encode]. *)
Lemma cpu_half_precision_raises_in_forward :
  call (JitCompiler.generate_cpu_kernel forward_scatter) [0; 0; 1; 1] [0; 1; 0; 1]
    {| b_vector := ones_vector 4 float16; b_tokens := scenario_half;
       b_slots := zeros 4 1 float16 |} [4; 0; 2]
  = Raise cpu_dtype_message
  ∧ ∃ c loss d,
      extract_critical scenario_gates_half 1 1%Qc false false = Ok (c, loss)
      ∧ update_with (init false 2 0 1 float16) c false {[false := cpu_kernels 4 float32]}
        = Ok (d, {[false := cpu_kernels 4 float32]})
      ∧ dtype_ d = float16
      ∧ kernels d = Some (cpu_kernels 4 float32)
      ∧ encode d scenario_half = Raise cpu_dtype_message.
Proof.
  split; [reflexivity|].
  eexists _, _, _. split; [vm_compute; reflexivity|].
  split; [vm_compute; reflexivity|]. split_and!; [reflexivity..|].
  vm_compute. reflexivity.
Qed.

(** C9: the pool is keyed by the device class alone.  On an accelerator a
    dispatcher of half precision is updated first and one of single precision
    second: the pool is left as it was, and the second dispatcher is bound to
    the handles and the helper of ones of the first, made for half precision,
    not to those [update] makes for its own dtype. *)
Theorem kernel_pool_keyed_by_device_class_only :
  ∃ a pool1 b pool2 ks,
    update (init false 2 2 4 float16) two_tokens two_slots (two_gates float16)
      true (Some 2) true ∅ = Ok (a, pool1)
    ∧ update (init false 2 2 4 float32) two_tokens two_slots (two_gates float32)
        true (Some 2) true pool1 = Ok (b, pool2)
    ∧ pool2 = pool1
    ∧ dtype_ a = float16 ∧ dtype_ b = float32
    ∧ kernels a = Some ks ∧ kernels b = Some ks
    ∧ ks ≠ own_kernels b true 2
    ∧ func_fwd ks = raw_func forward_scatter float16
    ∧ func_bwd_data ks = raw_func backward_data_gather float16
    ∧ func_bwd_gate ks = raw_func backward_gate_reduce float16
    ∧ v_dtype (ones_helper ks) = float16.
Proof.
  eexists _, _, _, _, _. split; [vm_compute; reflexivity|].
  split; [vm_compute; reflexivity|]. split_and!; try reflexivity.
  intros H. apply (f_equal func_fwd) in H. vm_compute in H. discriminate.
Qed.

(** The handles [update] makes for a dtype the backend supports. *)
Lemma create_kernels_supported dt dev :
  backend_supports dev dt = true →
  create_forward dt dev = Ok (kernel_handle forward_scatter dt dev)
  ∧ create_backward_data dt dev = Ok (kernel_handle backward_data_gather dt dev)
  ∧ create_backward_gate dt dev = Ok (kernel_handle backward_gate_reduce dt dev).
Proof.
  intros H. unfold create_forward, create_backward_data, create_backward_gate,
    create_kernel. by rewrite H.
Qed.

(** Where the three handles are made, they are those of [kernel_handle]. *)
Lemma create_kernels_Ok {A} dt dev (k : kernel_func → kernel_func → kernel_func → outcome A)
    (r : A) :
  (f1 ← create_forward dt dev; f2 ← create_backward_data dt dev;
   f3 ← create_backward_gate dt dev; k f1 f2 f3) = Ok r →
  backend_supports dev dt = true
  ∧ k (kernel_handle forward_scatter dt dev) (kernel_handle backward_data_gather dt dev)
      (kernel_handle backward_gate_reduce dt dev) = Ok r.
Proof.
  unfold create_forward, create_backward_data, create_backward_gate, create_kernel.
  by destruct (backend_supports dev dt).
Qed.

Lemma update_first self idx rest locations gates dev cap post pool :
  is_cuda self = None →
  backend_supports dev (dtype_ self) = true ∨ is_Some (pool !! dev) →
  ∃ d pool',
    update self (idx :: rest) locations gates dev (Some cap) post pool = Ok (d, pool')
    ∧ num_global_experts d = num_global_experts self
    ∧ capacity d = (if bool_decide (cap = 0) then capacity self else cap)
    ∧ model_dim d = model_dim self
    ∧ dtype_ d = dtype_ self
    ∧ original_dtype d = original_dtype self
    ∧ aligned_dim d = aligned_dim self
    ∧ indices_ d = (λ x : list Z, to_int32 <$> x) <$> (idx :: rest)
    ∧ locations_ d = (λ x : list Z, to_int32 <$> x) <$> locations
    ∧ gates_ d = vector_to (dtype_ self) <$> gates
    ∧ is_postscore d = post
    ∧ sample_size d = length idx
    ∧ kernels d = Some (default (own_kernels self dev (length idx)) (pool !! dev))
    ∧ pool' !! dev = Some (default (own_kernels self dev (length idx)) (pool !! dev)).
Proof.
  intros Hdev Hsup. unfold update. simpl. rewrite Hdev.
  rewrite bool_decide_eq_true_2 by done. rewrite length_fmap.
  destruct (pool !! dev) as [ks|] eqn:Hpool.
  - eexists _, _; (split; [done|]); simpl; split_and!; done.
  - destruct Hsup as [Hsup|[? ?]]; [|done].
    destruct (create_kernels_supported _ _ Hsup) as (-> & -> & ->). simpl.
    eexists _, _; (split; [done|]); simpl; split_and!; try done.
    by rewrite lookup_insert_eq.
Qed.

Lemma add_rows_zeros (r : list Qc) : add_rows (replicate (length r) 0%Qc) r = r.
Proof.
  unfold add_rows. induction r as [|a r IH]; simpl; [done|].
  by rewrite IH, Qcplus_0_l.
Qed.

Lemma scale_one (r : list Qc) : scale 1%Qc r = r.
Proof.
  unfold scale. induction r as [|a r IH]; simpl; [done|].
  rewrite <-IH at 2. f_equal. apply Qcmult_1_l.
Qed.

Lemma to_int32_idem z : to_int32 (to_int32 z) = to_int32 z.
Proof.
  unfold to_int32.
  pose proof (Z.mod_pos_bound (z + 2 ^ 31) (2 ^ 32) ltac:(lia)).
  rewrite (Z.mod_small ((z + 2 ^ 31) `mod` 2 ^ 32 - 2 ^ 31 + 2 ^ 31)); lia.
Qed.

Lemma kernel_handle_type k dt dev : kernel_type_of (kernel_handle k dt dev) = k.
Proof. by destruct dev. Qed.

Lemma kernel_handle_fits k dt dev :
  dev = true ∨ dt = float32 → dtype_fits (kernel_handle k dt dev) dt.
Proof. destruct dev; simpl; [done|]. intros [?| ->]; [done|by left]. Qed.

(** The kernels a dispatcher makes for itself serve it. *)
Lemma own_kernels_serve self dev n :
  dev = true ∨ dtype_ self = float32 → serves (own_kernels self dev n) (dtype_ self) n.
Proof.
  intros Hdev. unfold serves, own_kernels. cbn [func_fwd func_bwd_data ones_helper].
  rewrite !kernel_handle_type.
  split_and!; [done|by apply kernel_handle_fits|done|by apply kernel_handle_fits|].
  by exists n.
Qed.

Lemma fresh_row_length mem k cols r : length (fresh_row mem k cols r) = cols.
Proof. unfold fresh_row. by rewrite length_fmap, length_seq. Qed.

Lemma empty_lookup mem k rows cols dt r :
  (r < rows)%nat → t_data (empty mem k rows cols dt) !! r = Some (fresh_row mem k cols r).
Proof. intros Hr. simpl. by rewrite list_lookup_fmap, lookup_seq_lt. Qed.

(** ** One stream, there and back *)

Section single_stream.
Variables (mem : Memory) (d : TutelMoeFastDispatcher) (ks : KernelSet).
Variables (idx loc : list Z) (gv : Vector) (x : Tensor) (n : nat).

Hypothesis d_kernels : kernels d = Some ks.
Hypothesis ks_serves : serves ks (dtype_ d) n.
Hypothesis d_indices : indices_ d = [idx].
Hypothesis d_locations : locations_ d = [loc].
Hypothesis d_gates : gates_ d = [gv].
Hypothesis d_sample_size : sample_size d = n.
Hypothesis d_model_dim : model_dim d = t_size1 x.
Hypothesis d_aligned :
  aligned_dim d * lanes (dtype_ d) = Z.of_nat (t_size1 x).
Hypothesis d_experts : 0 ≤ num_global_experts d.
Hypothesis d_capacity : 0 ≤ capacity d.
Hypothesis gv_dtype : v_dtype gv = dtype_ d.
Hypothesis gv_length : length (v_data gv) = n.
Hypothesis idx_length : length idx = n.
Hypothesis loc_length : (n ≤ length loc)%nat.
Hypothesis idx_range :
  ∀ t i, idx !! t = Some i → 0 ≤ i < num_global_experts d.
Hypothesis loc_range : ∀ t l, loc !! t = Some l → (t < n)%nat → 0 ≤ l.
Hypothesis slots_differ :
  ∀ t1 t2 i l1 l2, t1 ≠ t2 → idx !! t1 = Some i → idx !! t2 = Some i →
    loc !! t1 = Some l1 → loc !! t2 = Some l2 → l1 ≠ l2.
Hypothesis x_rows : length (t_data x) = n.
Hypothesis x_proper : proper x.

Lemma gate_vector g :
  g = encode_gate d gv ∨ g = decode_gate d gv →
  v_dtype (deref ks g) = dtype_ d ∧ (n ≤ length (v_data (deref ks g)))%nat.
Proof.
  destruct ks_serves as (_ & _ & _ & _ & m & Hm & Hones).
  unfold encode_gate, decode_gate. intros [-> | ->]; destruct (is_postscore d); simpl;
    rewrite ?Hones; simpl; rewrite ?length_replicate; split; (done || lia).
Qed.

Lemma gate_product t g :
  v_data gv !! t = Some g →
  ∃ ge gd, v_data (deref ks (encode_gate d gv)) !! t = Some ge
           ∧ v_data (deref ks (decode_gate d gv)) !! t = Some gd
           ∧ ∀ row, scale gd (scale ge row) = scale g row.
Proof.
  destruct ks_serves as (_ & _ & _ & _ & m & Hm & Hones).
  intros Hg. assert (t < n)%nat as Ht by (rewrite <-gv_length; by eapply lookup_lt_Some).
  unfold encode_gate, decode_gate. destruct (is_postscore d); simpl; rewrite Hones; simpl.
  - exists 1%Qc, g. split_and!; [apply lookup_replicate_2; lia|done|].
    intros row. by rewrite scale_one.
  - exists g, 1%Qc. split_and!; [done|apply lookup_replicate_2; lia|].
    intros row. by rewrite scale_one.
Qed.

Lemma extra_of_single :
  extra_of d = Ok [Z.of_nat n; aligned_dim d; capacity d].
Proof. unfold extra_of. by rewrite d_indices, idx_length. Qed.

Lemma slots_in_buffer t i l :
  idx !! t = Some i → loc !! t = Some l → l < capacity d →
  0 ≤ i ∧ 0 ≤ l
  ∧ i * capacity d + l < Z.of_nat (Z.to_nat (num_global_experts d * capacity d)).
Proof.
  intros Hi Hl Hlt. pose proof (idx_range _ _ Hi).
  pose proof (lookup_lt_Some _ _ _ Hi).
  pose proof (loc_range _ _ Hl ltac:(lia)).
  split_and!; [lia..|]. nia.
Qed.

Lemma slot_index_differ t1 t2 :
  t1 ≠ t2 → (t1 < n)%nat → (t2 < n)%nat →
  kept loc (capacity d) t1 → kept loc (capacity d) t2 →
  slot_index idx loc (capacity d) t1 ≠ slot_index idx loc (capacity d) t2.
Proof.
  intros Hne Ht1 Ht2 (l1 & Hl1 & Hlt1) (l2 & Hl2 & Hlt2).
  destruct (lookup_lt_is_Some_2 idx t1) as [i1 Hi1]; [lia|].
  destruct (lookup_lt_is_Some_2 idx t2) as [i2 Hi2]; [lia|].
  unfold slot_index.
  rewrite (list_lookup_total_correct _ _ _ Hi1), (list_lookup_total_correct _ _ _ Hi2),
    (list_lookup_total_correct _ _ _ Hl1), (list_lookup_total_correct _ _ _ Hl2).
  pose proof (idx_range _ _ Hi1). pose proof (idx_range _ _ Hi2).
  pose proof (loc_range _ _ Hl1 Ht1). pose proof (loc_range _ _ Hl2 Ht2).
  destruct (decide (i1 = i2)) as [->|Hi].
  - pose proof (slots_differ t1 t2 i2 l1 l2 Hne Hi1 Hi2 Hl1 Hl2). nia.
  - nia.
Qed.

Lemma buffers_in_contract v tokens slots :
  (n ≤ length (v_data v))%nat → (n ≤ length (t_data tokens))%nat →
  Forall (λ r, length r = t_size1 x) (t_data tokens) →
  length (t_data slots) = Z.to_nat (num_global_experts d * capacity d) →
  Forall (λ r, length r = t_size1 x) (t_data slots) →
  in_contract idx loc (capacity d) n (t_size1 x)
    {| b_vector := v; b_tokens := tokens; b_slots := slots |}.
Proof.
  intros Hv Htok Hw Hlen Hws. unfold in_contract. simpl.
  split_and!; try done; try lia.
  intros t i l Ht Hi Hl Hlt. rewrite Hlen. by eapply slots_in_buffer.
Qed.

(** [encode]: the row of a token that is kept lies in its slot, weighted. *)
Lemma encode_single :
  ∃ y, encode d x = Ok y
    ∧ t_dtype y = original_dtype d ∧ t_size1 y = t_size1 x
    ∧ length (t_data y) = Z.to_nat (num_global_experts d * capacity d)
    ∧ proper y
    ∧ ∀ t row, (t < n)%nat → kept loc (capacity d) t → t_data x !! t = Some row →
        ∃ ge, v_data (deref ks (encode_gate d gv)) !! t = Some ge
              ∧ t_data y !! slot_index idx loc (capacity d) t = Some (scale ge row).
Proof.
  destruct ks_serves as (Hfwd_type & Hfwd_fits & _).
  set (b0 := {| b_vector := deref ks (encode_gate d gv);
                b_tokens := tensor_to (dtype_ d) x;
                b_slots := zeros (Z.to_nat (num_global_experts d * capacity d))
                             (model_dim d) (dtype_ d) |}).
  destruct (gate_vector (encode_gate d gv) (or_introl eq_refl)) as [Hgd Hgl].
  assert (in_contract idx loc (capacity d) n (t_size1 x) b0) as Hb0.
  { apply buffers_in_contract; simpl; [done|lia|done| |].
    - by rewrite length_replicate.
    - apply Forall_replicate. by rewrite length_replicate. }
  destruct (call_returns (func_fwd ks) idx loc b0 n (t_size1 x) (dtype_ d)
              (aligned_dim d) (capacity d)) as (b1 & Hcall & Hb1); try done.
  assert (encode d x = Ok (tensor_to (original_dtype d) (b_slots b1))) as Henc.
  { unfold encode, encode_apply, GatingEncoder.forward.
    assert (gates_h2_of d (if is_postscore d then [] else gates_ d)
            = [encode_gate d gv]) as Hh2.
    { unfold gates_h2_of, encode_gate. rewrite d_gates, d_indices.
      by destruct (is_postscore d). }
    assert (∀ gs, (if is_postscore d
                   then GatingEncoder.forward d (tensor_to (dtype_ d) x) []
                   else GatingEncoder.forward d (tensor_to (dtype_ d) x) gs)
                  = GatingEncoder.forward d (tensor_to (dtype_ d) x)
                      (if is_postscore d then [] else gs)) as Hif.
    { intros gs. by destruct (is_postscore d). }
    fold (GatingEncoder.forward d (tensor_to (dtype_ d) x) []).
    fold (GatingEncoder.forward d (tensor_to (dtype_ d) x) (gates_ d)).
    rewrite Hif. unfold GatingEncoder.forward.
    rewrite bool_decide_eq_false_2 by nia.
    unfold bound_kernels. rewrite d_kernels. simpl. rewrite Hh2.
    unfold streams. rewrite d_indices, d_locations. simpl.
    rewrite extra_of_single. simpl. fold b0. rewrite Hcall. done. }
  apply call_Ok in Hcall as (tc & al & cap & [= <- <- <-] & Hloop).
  rewrite Hfwd_type, Nat2Z.id in Hloop.
  destruct (scatter_loop _ _ _ _ _ _ Hloop) as (Hvec & Htok & Hdt & Hsz & Hlen & Hrows).
  destruct Hb1 as (_ & _ & _ & _ & _ & Hws & _).
  unfold b0 in Hvec, Htok, Hdt, Hsz, Hlen, Hrows. simpl in Hvec, Htok, Hdt, Hsz, Hlen, Hrows.
  rewrite length_replicate in Hlen.
  eexists. split; [exact Henc|]. simpl. split_and!; try done.
  { by rewrite Hsz. }
  { unfold proper. simpl. by rewrite Hsz, d_model_dim. }
  intros t row Ht Hkept Hrow.
  destruct (Hrows (slot_index idx loc (capacity d) t)) as [_ Hhit].
  destruct (Hhit t) as (g & x' & r & Hg & Hx' & Hr & Hres);
    [apply NoDup_seq|apply elem_of_seq; lia|done|done| |].
  { intros t' Ht'%elem_of_seq Hne Hk'. apply slot_index_differ; [done|lia|lia|done..]. }
  simpl in Hx', Hr. simplify_eq.
  exists g. split; [done|]. rewrite Hres. f_equal.
  apply lookup_replicate in Hr as [-> _].
  assert (length (scale g row) = model_dim d) as <-.
  { rewrite scale_length, d_model_dim. unfold proper in x_proper.
    rewrite Forall_lookup in x_proper. eauto. }
  apply add_rows_zeros.
Qed.

(** [decode]: a token that is kept reads its slot, weighted, onto what the
    fresh buffer holds; the row of a token that is dropped is left as the
    fresh buffer holds it. *)
Lemma decode_single y :
  t_size1 y = t_size1 x →
  length (t_data y) = Z.to_nat (num_global_experts d * capacity d) →
  proper y →
  ∃ z, decode mem d y = Ok z
    ∧ t_dtype z = original_dtype d ∧ t_size1 z = t_size1 x
    ∧ ∀ t, (t < n)%nat →
        (kept loc (capacity d) t →
         ∃ gd r, v_data (deref ks (decode_gate d gv)) !! t = Some gd
                 ∧ t_data y !! slot_index idx loc (capacity d) t = Some r
                 ∧ t_data z !! t
                   = Some (add_rows (fresh_row mem 0 (t_size1 x) t) (scale gd r)))
        ∧ (dropped loc (capacity d) t →
           t_data z !! t = Some (fresh_row mem 0 (t_size1 x) t)).
Proof.
  intros Hysz Hylen Hyw.
  destruct ks_serves as (_ & _ & Hbwd_type & Hbwd_fits & _).
  set (b0 := {| b_vector := deref ks (decode_gate d gv);
                b_tokens := empty mem 0 (sample_size d) (model_dim d) (dtype_ d);
                b_slots := tensor_to (dtype_ d) y |}).
  destruct (gate_vector (decode_gate d gv) (or_intror eq_refl)) as [Hgd Hgl].
  assert (in_contract idx loc (capacity d) n (t_size1 x) b0) as Hb0.
  { apply buffers_in_contract; simpl; [done| | |done|].
    - by rewrite length_fmap, length_seq, d_sample_size.
    - apply Forall_fmap, Forall_forall. intros r _. simpl.
      by rewrite fresh_row_length.
    - unfold proper in Hyw. by rewrite <-Hysz. }
  destruct (call_returns (func_bwd_data ks) idx loc b0 n (t_size1 x) (dtype_ d)
              (aligned_dim d) (capacity d)) as (b1 & Hcall & Hb1); try done.
  { simpl. by rewrite d_model_dim. }
  { simpl. by rewrite d_model_dim. }
  assert (decode mem d y = Ok (tensor_to (original_dtype d) (b_tokens b1))) as Hdec.
  { unfold decode, decode_apply.
    assert (gates_h2_of d (if is_postscore d then gates_ d else [])
            = [decode_gate d gv]) as Hh2.
    { unfold gates_h2_of, decode_gate. rewrite d_gates, d_indices.
      by destruct (is_postscore d). }
    assert (∀ gs, (if is_postscore d
                   then GatingDecoder.forward mem d (tensor_to (dtype_ d) y) gs
                   else GatingDecoder.forward mem d (tensor_to (dtype_ d) y) [])
                  = GatingDecoder.forward mem d (tensor_to (dtype_ d) y)
                      (if is_postscore d then gs else [])) as Hif.
    { intros gs. by destruct (is_postscore d). }
    rewrite Hif. unfold GatingDecoder.forward.
    unfold bound_kernels. rewrite d_kernels. simpl. rewrite Hh2.
    unfold streams. rewrite d_indices, d_locations. simpl.
    rewrite extra_of_single. simpl. fold b0. rewrite Hcall. done. }
  apply call_Ok in Hcall as (tc & al & cap & [= <- <- <-] & Hloop).
  rewrite Hbwd_type, Nat2Z.id in Hloop.
  destruct (gather_loop _ _ _ _ _ _ (NoDup_seq 0 n) Hloop)
    as (Hvec & Hslots & Hdt & Hsz & Hlen & Hrows).
  unfold b0 in Hvec, Hslots, Hdt, Hsz, Hlen, Hrows.
  cbn [b_vector b_tokens b_slots] in Hvec, Hslots, Hdt, Hsz, Hlen, Hrows.
  eexists. split; [exact Hdec|]. simpl. split_and!; try done.
  { by rewrite Hsz. }
  intros t Ht. destruct (Hrows t) as [Hyes Hno].
  assert (t_data (empty mem 0 (sample_size d) (model_dim d) (dtype_ d)) !! t
          = Some (fresh_row mem 0 (t_size1 x) t)) as Hfresh.
  { rewrite <-d_model_dim. apply empty_lookup. lia. }
  split.
  - intros Hkept.
    destruct (Hyes ltac:(apply elem_of_seq; lia) Hkept) as (g & x' & r & Hg & Hx' & Hr & Hres).
    exists g, r. rewrite Hfresh in Hx'. injection Hx' as <-. by split_and!.
  - intros Hdrop. rewrite Hno by (by right). done.
Qed.

(** There and back: a token that is kept returns weighted by its gate, on
    top of what the fresh buffer of [decode] holds; the row of a token that
    is dropped is what that buffer holds. *)
Lemma round_trip_single :
  ∃ y z, encode d x = Ok y ∧ decode mem d y = Ok z
    ∧ t_dtype y = original_dtype d ∧ t_size1 y = t_size1 x
    ∧ t_dtype z = original_dtype d ∧ t_size1 z = t_size1 x
    ∧ ∀ t row g l, t_data x !! t = Some row → v_data gv !! t = Some g →
        loc !! t = Some l →
        (l < capacity d →
         t_data z !! t = Some (add_rows (fresh_row mem 0 (t_size1 x) t) (scale g row)))
        ∧ (capacity d ≤ l → t_data z !! t = Some (fresh_row mem 0 (t_size1 x) t)).
Proof.
  destruct encode_single as (y & Henc & Hydt & Hysz & Hylen & Hyw & Hy).
  destruct (decode_single y Hysz Hylen Hyw) as (z & Hdec & Hzdt & Hzsz & Hz).
  exists y, z. split_and!; try done.
  intros t row g l Hrow Hg Hl.
  assert (t < n)%nat as Ht by (rewrite <-x_rows; by eapply lookup_lt_Some).
  destruct (Hz t Ht) as [Hk Hd]. split.
  - intros Hlt. assert (kept loc (capacity d) t) as Hkept by (by exists l).
    destruct (Hk Hkept) as (gd & r & Hgd & Hr & Hzt).
    destruct (Hy t row Ht Hkept Hrow) as (ge & Hge & Hyt).
    destruct (gate_product t g Hg) as (ge' & gd' & Hge' & Hgd' & Hprod).
    simplify_eq. by rewrite Hzt, Hprod.
  - intros Hge. apply Hd. by exists l.
Qed.
End single_stream.

(** What the routing of one expert per token returns. *)
Lemma top1_critical gates cf fp32 bpr c loss :
  well_shaped gates →
  Z.of_nat (g_size0 gates) < 2 ^ 31 → Z.of_nat (g_size1 gates) ≤ 2 ^ 31 →
  extract_critical gates 1 cf fp32 bpr = Ok (c, loss) →
  ∃ idx loc gs,
    c_indices_s c = [idx] ∧ c_locations_s c = [loc] ∧ c_gates_s c = [gs]
    ∧ c_num_global_experts c = g_size1 gates ∧ c_is_cuda c = g_is_cuda gates
    ∧ length idx = g_size0 gates ∧ (g_size0 gates ≤ length loc)%nat
    ∧ length gs = g_size0 gates
    ∧ to_int32 <$> idx = idx ∧ to_int32 <$> loc = loc
    ∧ (∀ t i, idx !! t = Some i → 0 ≤ i < Z.of_nat (g_size1 gates))
    ∧ (∀ t l, loc !! t = Some l → (t < g_size0 gates)%nat → 0 ≤ l)
    ∧ (∀ t1 t2 i l1 l2, t1 ≠ t2 → idx !! t1 = Some i → idx !! t2 = Some i →
         loc !! t1 = Some l1 → loc !! t2 = Some l2 → l1 ≠ l2).
Proof.
  intros Hw Hn He Hc.
  pose proof (extract_critical_inv _ _ _ _ _ _ _ Hc)
    as (Htop & _ & HE & Hind & Hloc & Hg & _ & Hdev & _).
  rewrite bool_decide_eq_false_2 in Hg by lia. simpl in Hind, Hloc, Hg.
  destruct (rank_slots gates 1 cf fp32 bpr c loss 0 Hw ltac:(lia) Hc ltac:(lia))
    as (locs & Hlocs & Hslots).
  pose proof (chosen_lt gates 1 0 Hw ltac:(lia)) as Hlt. rewrite Forall_lookup in Hlt.
  eexists _, _, _. split; [exact Hind|]. split; [exact Hloc|]. split; [exact Hg|].
  rewrite Hloc in Hlocs. simpl in Hlocs. injection Hlocs as Hlocs.
  split_and!; try done.
  - by rewrite length_fmap, chosen_length.
  - rewrite Hlocs. destruct (decide (g_size0 gates ≤ length locs)%nat) as [|Hlen]; [done|].
    exfalso.
    destruct (lookup_lt_is_Some_2 (chosen gates 1 0) (length locs)) as [e Hch].
    { rewrite chosen_length. lia. }
    destruct (Hslots _ _ Hch) as (l & Hl & _).
    apply lookup_lt_Some in Hl. lia.
  - apply raw_gates_length.
  - rewrite <-list_fmap_compose. apply list_fmap_ext. intros ? i _. simpl.
    apply to_int32_idem.
  - rewrite <-list_fmap_compose. apply list_fmap_ext. intros ? l _. simpl.
    apply to_int32_idem.
  - intros t i Hi. rewrite list_lookup_fmap in Hi.
    destruct (chosen gates 1 0 !! t) as [e|] eqn:Hch; simplify_eq/=.
    pose proof (Hlt _ _ Hch). rewrite to_int32_small by lia. lia.
  - intros t l Hl Ht. rewrite Hlocs in Hl.
    destruct (lookup_lt_is_Some_2 (chosen gates 1 0) t) as [e Hch].
    { by rewrite chosen_length. }
    destruct (Hslots _ _ Hch) as (l' & Hl' & ? & _). by simplify_eq.
  - intros t1 t2 i l1 l2 Hne Hi1 Hi2 Hl1 Hl2. rewrite Hlocs in Hl1, Hl2.
    rewrite list_lookup_fmap in Hi1, Hi2.
    destruct (chosen gates 1 0 !! t1) as [e1|] eqn:Hc1; simplify_eq/=.
    destruct (chosen gates 1 0 !! t2) as [e2|] eqn:Hc2; simplify_eq/=.
    pose proof (Hlt _ _ Hc1). pose proof (Hlt _ _ Hc2).
    rewrite !to_int32_small in Hi2 by lia. assert (e2 = e1) as -> by lia.
    destruct (Hslots _ _ Hc1) as (l1' & Hl1' & _ & Hrel). simplify_eq.
    by apply (Hrel t2 l2).
Qed.

Lemma update_again self indices locations gates dev cap post pool d pool1 :
  is_cuda self = None →
  update self indices locations gates dev (Some cap) post pool = Ok (d, pool1) →
  update self indices locations gates dev (Some cap) post pool1 = Ok (d, pool1).
Proof.
  intros Hdev. unfold update. rewrite Hdev.
  destruct ((λ x : list Z, to_int32 <$> x) <$> indices) as [|first ?]; [done|].
  rewrite bool_decide_eq_true_2 by done.
  destruct (pool !! dev) as [ks|] eqn:Hpool; intros H.
  - simplify_eq. by rewrite Hpool.
  - apply create_kernels_Ok in H as [_ H]. simplify_eq. by rewrite lookup_insert_eq.
Qed.

Lemma int_of_nonneg (q : Qc) : (0 ≤ q)%Qc → 0 ≤ int_of q.
Proof.
  intros Hq. unfold int_of. apply Z.quot_pos; [|lia].
  unfold Qcle, Qle in Hq. simpl in Hq. lia.
Qed.

Lemma capacity_nonneg gates top_k cf fp32 bpr c loss :
  (0 ≤ cf)%Qc → extract_critical gates top_k cf fp32 bpr = Ok (c, loss) →
  0 ≤ c_capacity c.
Proof.
  intros Hcf Hc.
  pose proof (extract_critical_inv _ _ _ _ _ _ _ Hc)
    as (Htop & _ & _ & _ & _ & _ & -> & _).
  apply Z.mul_nonneg_nonneg; [lia|]. apply int_of_nonneg.
  apply float_product_nonneg; [done|]. apply Z.div_pos; lia.
Qed.

(** The dtypes in which a dispatcher computes are supported where the input
    is. *)
Lemma supported_backend IS_HIP_EXTENSION dev experts cap x :
  supported IS_HIP_EXTENSION dev x →
  backend_supports dev
    (dtype_ (init IS_HIP_EXTENSION experts cap (t_size1 x) (t_dtype x))) = true.
Proof.
  intros [Hdev _]. simpl in *.
  destruct IS_HIP_EXTENSION, (t_dtype x), dev; simpl in *; try done;
    by destruct Hdev.
Qed.



(** * The properties on the scenario

    Each property that has premises, at the four tokens and two experts of
    the scenario. *)

(** C3 on the scenario: tokens 0 and 1, both sent to expert 0 at rank 0. *)
Lemma slots_unique_and_ordered_witness :
  ∃ c loss,
    extract_critical scenario_gates 1 1%Qc false false = Ok (c, loss)
    ∧ c_indices_s c !! 0%nat = Some [0; 0; 1; 1]
    ∧ c_locations_s c !! 0%nat = Some [0; 1; 0; 1]
    ∧ ((0%nat ≠ 1%nat → 0 ≠ 1)
       ∧ (false = false → (0 < 1)%nat → 0 < 1)
       ∧ (false = true →
          (top1_confidence scenario_gates 1 < top1_confidence scenario_gates 0)%Qc →
          0 < 1)).
Proof.
  eexists _, _. split; [vm_compute; reflexivity|].
  split; [reflexivity|]. split; [reflexivity|].
  eapply (slots_unique_and_ordered scenario_gates 1 1%Qc false false _ _
           0 [0; 0; 1; 1] [0; 1; 0; 1] 0 1 0 0 1).
  - repeat constructor.
  - vm_compute. reflexivity.
  - vm_compute. discriminate.
  - vm_compute. reflexivity.
  - reflexivity.
  - reflexivity.
  - reflexivity.
  - reflexivity.
  - reflexivity.
  - reflexivity.
Defined.

(** C4 on the scenario, with [top_k = 1]. *)
Lemma load_balance_loss_witness :
  ∃ c, extract_critical scenario_gates 1 1%Qc false false
       = Ok (c,
             let n := Qc_of_Z (Z.of_nat (g_size0 scenario_gates)) in
             let experts := Qc_of_Z (Z.of_nat (g_size1 scenario_gates)) in
             if bool_decide (g_dtype scenario_gates = float32) || false then
               experts
               * sum_over_experts scenario_gates
                   (λ e, gate_mass scenario_gates e
                         * Qc_of_Z (tokens_routed scenario_gates 1 e))
               / (n * n)
             else
               experts
               * sum_over_experts scenario_gates
                   (λ e, (gate_mass scenario_gates e / n)
                         * (Qc_of_Z (tokens_routed scenario_gates 1 e) / n)))%Qc.
Proof.
  apply (load_balance_loss scenario_gates 1 1%Qc false false).
  - repeat constructor.
  - vm_compute. lia.
  - vm_compute. lia.
Defined.

(** C5 on the scenario, with [top_k = 2], for token 0. *)
Lemma topk_gates_normalised_witness :
  ∃ c loss,
    extract_critical scenario_gates 2 1%Qc false false = Ok (c, loss)
    ∧ let total := sumQc (raw_score scenario_gates 2 0 <$> seq 0 2) in
      let eps := finfo_eps (g_dtype scenario_gates) in
      (∀ k, (k < 2)%nat →
         ∃ idx gs, c_indices_s c !! k = Some idx ∧ c_gates_s c !! k = Some gs
           ∧ idx !! 0%nat
             = Some (to_int32 (Z.of_nat (chosen scenario_gates 2 k !!! 0%nat)))
           ∧ gs !! 0%nat = Some (raw_score scenario_gates 2 0 k / Qcmax eps total)%Qc)
      ∧ ((eps ≤ total)%Qc →
         sumQc ((λ gs : list Qc, gs !!! 0%nat) <$> c_gates_s c) = 1%Qc).
Proof.
  eexists _, _. split; [vm_compute; reflexivity|].
  eapply (topk_gates_normalised scenario_gates 2 1%Qc false false _ _ 0).
  - repeat constructor.
  - lia.
  - vm_compute. lia.
  - vm_compute. reflexivity.
Defined.

(** C6 on the scenario, with [capacity_factor = 1]. *)
Lemma capacity_value_witness :
  ∃ c loss,
    extract_critical scenario_gates 1 1%Qc false false = Ok (c, loss)
    ∧ ∃ ceiling whole,
        (ceiling - 1) * Z.of_nat (g_size1 scenario_gates)
          < Z.of_nat (g_size0 scenario_gates)
          ≤ ceiling * Z.of_nat (g_size1 scenario_gates)
        ∧ (Qc_of_Z whole ≤ round64 (round64 1 * Qc_of_Z ceiling))%Qc
        ∧ (round64 (round64 1 * Qc_of_Z ceiling) < Qc_of_Z whole + 1)%Qc
        ∧ c_capacity c = Z.of_nat 1 * whole
        ∧ ∀ m, round64 1 = 1%Qc → (1 * Qc_of_Z ceiling)%Qc = Qc_of_Z m → m < 2 ^ 53 →
            Qc_of_Z (c_capacity c)
            = (Qc_of_Z (Z.of_nat 1) * 1 * Qc_of_Z ceiling)%Qc.
Proof.
  eexists _, _. split; [vm_compute; reflexivity|].
  eapply (capacity_value scenario_gates 1 1%Qc false false _ _).
  - vm_compute. reflexivity.
  - vm_compute. reflexivity.
Defined.

(** C10 on the scenario. *)
Lemma top1_gate_is_raw_score_witness :
  ∃ c loss,
    extract_critical scenario_gates 1 1%Qc false false = Ok (c, loss)
    ∧ ∃ idx gs, c_indices_s c = [idx] ∧ c_gates_s c = [gs]
        ∧ ∀ t row, g_data scenario_gates !! t = Some row →
            ∃ e, (e < g_size1 scenario_gates)%nat
                 ∧ idx !! t = Some (to_int32 (Z.of_nat e))
                 ∧ gs !! t = Some (row !!! e).
Proof.
  eexists _, _. split; [vm_compute; reflexivity|].
  eapply (top1_gate_is_raw_score scenario_gates 1%Qc false false _ _).
  - repeat constructor.
  - vm_compute. reflexivity.
Defined.

(** C7 on the scenario: a dispatcher of single precision on the CPU, with
    the gates applied in [decode] and with the gates applied in [encode];
    the upstream gradient is the encoded buffer itself, and the buffers of
    the backward pass hold what an earlier computation left. *)
Lemma encode_gates_and_gate_gradients_witness :
  ∃ c loss,
    extract_critical scenario_gates 1 1%Qc false false = Ok (c, loss)
    ∧ ∀ post, ∃ d pool ks ctx y last grads,
        update_with (init false 2 0 1 float32) c post ∅ = Ok (d, pool)
        ∧ kernels d = Some ks
        ∧ encode_apply d scenario_x = Ok (ctx, y)
        ∧ GatingEncoder.backward stale_memory ctx y = Ok (last, grads)
        ∧ length (t_data y) = Z.to_nat (num_global_experts d * capacity d)
        ∧ (∀ s, (s < Z.to_nat (num_global_experts d * capacity d))%nat →
             t_data y !! s
             = Some (dispatched
                       (if is_postscore d
                        then replicate (length (indices_ d)) (λ _, 1%Qc)
                        else (λ g t, v_data g !!! t) <$> gates_ d)
                       d (t_data scenario_x) s))
        ∧ (∀ mem' data' ctx' z, decode_apply mem' d data' = Ok (ctx', z) →
             ctx_gates_h2 ctx'
             = if is_postscore d then own_gate <$> gates_ d
               else replicate (length (indices_ d)) the_ones_helper)
        ∧ if is_postscore d then grads = []
          else
            length grads = length (zip (indices_ d) (locations_ d))
            ∧ ∀ k i l gg t,
                indices_ d !! k = Some i → locations_ d !! k = Some l →
                grads !! k = Some gg →
                (t < token_count d)%nat → kept l (capacity d) t →
                ∃ x r, t_data scenario_x !! t = Some x
                       ∧ t_data y !! slot_index i l (capacity d) t = Some r
                       ∧ v_data gg !! t = Some (dot x r).
Proof.
  eexists _, _. split; [vm_compute; reflexivity|].
  intros [|]; eexists _, _, _, _, _, _, _.
  all: split; [vm_compute; reflexivity|].
  all: split; [reflexivity|].
  all: split; [vm_compute; reflexivity|].
  all: split; [vm_compute; reflexivity|].
  all: eapply (encode_gates_and_gate_gradients stale_memory _ _ scenario_x _ _ _ _ _);
    [reflexivity|reflexivity|reflexivity| |discriminate
    |vm_compute; reflexivity|vm_compute; reflexivity].
  all: intros t Ht; vm_compute in Ht.
  all: do 4 (destruct t as [|t]; [reflexivity|]); lia.
Defined.

(** C8 for a dispatcher of half precision and a pool that holds the handles
    of [generate_cpu_kernel] for the CPU, and for calls of the scatter on
    buffers of half precision and on buffers of single precision. *)
Lemma cpu_dtype_checked_at_call_witness :
  (∃ d, update (init false 2 0 1 float16) [[0; 0; 1; 1]] [[0; 1; 0; 1]]
          [ones_vector 4 float32] false (Some 2) false
          {[false := cpu_kernels 4 float32]}
        = Ok (d, {[false := cpu_kernels 4 float32]})
        ∧ kernels d = Some (cpu_kernels 4 float32)
        ∧ dtype_ d = dtype_ (init false 2 0 1 float16))
  ∧ call (JitCompiler.generate_cpu_kernel forward_scatter) [0; 0; 1; 1] [0; 1; 0; 1]
      {| b_vector := ones_vector 4 float16; b_tokens := scenario_half;
         b_slots := zeros 4 1 float16 |} [4; 1; 2]
    = Raise cpu_dtype_message
  ∧ call (JitCompiler.generate_cpu_kernel forward_scatter) [0; 0; 1; 1] [0; 1; 0; 1]
      {| b_vector := ones_vector 4 float32; b_tokens := scenario_x;
         b_slots := zeros 4 1 float32 |} [4; 1; 2]
    = run_primitive float32 forward_scatter [0; 0; 1; 1] [0; 1; 0; 1]
        {| b_vector := ones_vector 4 float32; b_tokens := scenario_x;
           b_slots := zeros 4 1 float32 |} [4; 1; 2].
Proof.
  apply (cpu_dtype_checked_at_call (init false 2 0 1 float16) [0; 0; 1; 1] []
           [[0; 1; 0; 1]] [ones_vector 4 float32] false 2 false
           {[false := cpu_kernels 4 float32]} (cpu_kernels 4 float32)
           forward_scatter [0; 0; 1; 1] [0; 1; 0; 1]
           {| b_vector := ones_vector 4 float16; b_tokens := scenario_half;
              b_slots := zeros 4 1 float16 |}
           {| b_vector := ones_vector 4 float32; b_tokens := scenario_x;
              b_slots := zeros 4 1 float32 |} [4; 1; 2]).
  - simpl. discriminate.
  - vm_compute. reflexivity.
  - simpl. discriminate.
  - simpl. discriminate.
  - left. reflexivity.
Defined.


(** * Further properties of the code *)

(** ** The ranks of [topk] and the shapes of what [extract_critical] returns *)

Lemma topk_row_NoDup top_k row : NoDup (topk_row top_k row).
Proof.
  unfold topk_row. eapply sublist_NoDup; [|apply sublist_take].
  rewrite sort_positions_perm. apply NoDup_seq.
Qed.

(** The entries picked by [topk] descend with the rank. *)
Lemma topk_row_descending top_k row k1 k2 i1 i2 a b :
  (k1 < k2)%nat →
  topk_row top_k row !! k1 = Some i1 → topk_row top_k row !! k2 = Some i2 →
  row !! i1 = Some a → row !! i2 = Some b → (b ≤ a)%Qc.
Proof.
  intros Hk H1 H2 Ha Hb. unfold topk_row in H1, H2.
  apply lookup_take_Some in H1 as [H1 _]. apply lookup_take_Some in H2 as [H2 _].
  assert (bool_decide (a < b)%Qc = false) as H.
  { refine (sort_positions_sorted (λ a b, bool_decide (b < a)%Qc) _ _ row k1 k2 i1 i2 a b
              Hk H1 H2 Ha Hb).
    - intros x y Hxy%bool_decide_eq_true. apply bool_decide_eq_false.
      apply Qcle_not_lt. by apply Qclt_le_weak.
    - intros x y z Hyx%bool_decide_eq_false Hzy%bool_decide_eq_false.
      apply bool_decide_eq_false. apply Qcle_not_lt.
      apply Qcnot_lt_le in Hyx, Hzy. by eapply Qcle_trans. }
  apply bool_decide_eq_false in H. by apply Qcnot_lt_le.
Qed.

Lemma chosen_lookup gates top_k k t e :
  well_shaped gates → (k < top_k ≤ g_size1 gates)%nat →
  chosen gates top_k k !! t = Some e →
  ∃ row, g_data gates !! t = Some row ∧ length row = g_size1 gates
         ∧ topk_row top_k row !! k = Some e.
Proof.
  intros Hw Hk He. unfold chosen in He. rewrite <-list_fmap_compose in He.
  rewrite list_lookup_fmap in He.
  destruct (g_data gates !! t) as [row|] eqn:Hrow; [|done]. simpl in He.
  assert (length row = g_size1 gates) as Hlen.
  { unfold well_shaped in Hw. rewrite Forall_lookup in Hw. eauto. }
  exists row. split_and!; [done..|].
  destruct (topk_row_lookup top_k row k) as (i & Hi & _); [lia..|].
  rewrite (list_lookup_total_correct _ _ _ Hi) in He. by simplify_eq.
Qed.

Lemma locations_above_length cl cols acc prev rest :
  length (locations_above cl cols acc prev rest) = length rest.
Proof.
  revert acc prev. induction rest as [|m rest IH]; intros acc prev; simpl; [done|].
  by rewrite IH.
Qed.

Lemma Qcinv_nonneg (d : Qc) : (0 ≤ d)%Qc → (0 ≤ / d)%Qc.
Proof.
  intros Hd. unfold Qcle in *. change (0 <= Qred (/ d))%Q.
  rewrite Qred_correct. by apply Qinv_le_0_compat.
Qed.

Lemma Qcdiv_le_compat (a b d : Qc) : (0 ≤ d)%Qc → (a ≤ b)%Qc → (a / d ≤ b / d)%Qc.
Proof.
  intros Hd Hab. unfold Qcdiv. apply Qcmult_le_compat_r; [done|].
  by apply Qcinv_nonneg.
Qed.

Lemma Qcmax_nonneg (a b : Qc) : (0 ≤ a)%Qc → (0 ≤ Qcmax a b)%Qc.
Proof.
  intros Ha. unfold Qcmax. case_bool_decide as Hab; [|done].
  by eapply Qcle_trans.
Qed.

(** The gates of the ranks, as [extract_critical] returns them: the raw gates
    of each rank, or the raw gates over a denominator that is the same for
    every rank. *)
Lemma rank_gates gates top_k cf fp32 bpr c loss :
  extract_critical gates top_k cf fp32 bpr = Ok (c, loss) →
  ∃ denom : list Qc,
    Forall (λ d, 0 ≤ d)%Qc denom
    ∧ length (c_gates_s c) = top_k
    ∧ ((∀ k gs, c_gates_s c !! k = Some gs →
          (k < top_k)%nat ∧ gs = raw_gates gates top_k k)
       ∨ (∀ k gs, c_gates_s c !! k = Some gs →
            (k < top_k)%nat ∧ gs = zip_with Qcdiv (raw_gates gates top_k k) denom)).
Proof.
  intros Hc.
  apply extract_critical_inv in Hc as (Htop & _ & _ & _ & _ & Hg & _).
  case_bool_decide as Hk.
  - eexists. split; [|split].
    2:{ by rewrite Hg, !length_fmap, length_seq. }
    2:{ right. intros k gs Hgs. rewrite Hg in Hgs. rewrite <-list_fmap_compose in Hgs.
        rewrite list_lookup_fmap in Hgs.
        destruct (seq 0 top_k !! k) as [k'|] eqn:Hk'; [|done].
        apply lookup_seq in Hk' as [-> Hk']. simpl in Hgs. simplify_eq.
        split; [done|]. reflexivity. }
    apply Forall_fmap, Forall_forall. intros x _. simpl.
    apply Qcmax_nonneg. apply Qclt_le_weak, finfo_eps_pos.
  - exists []. split; [done|]. split; [by rewrite Hg, length_fmap, length_seq|].
    left. intros k gs Hgs. rewrite Hg, list_lookup_fmap in Hgs.
    destruct (seq 0 top_k !! k) as [k'|] eqn:Hk'; [|done].
    apply lookup_seq in Hk' as [-> Hk']. simpl in Hgs. by simplify_eq.
Qed.

(** X2: what [extract_critical] returns has the number of experts of the
    gates and, for indices, locations and gates alike, one stream per rank,
    [top_k] in all; every stream of indices and every stream of gates has
    one entry per token, and every index is an expert, from 0 to the number
    of experts less one. *)
Theorem extract_critical_shapes gates top_k cf fp32 bpr c loss :
  well_shaped gates → Z.of_nat (g_size1 gates) ≤ 2 ^ 31 →
  extract_critical gates top_k cf fp32 bpr = Ok (c, loss) →
  c_num_global_experts c = g_size1 gates
  ∧ length (c_indices_s c) = top_k
  ∧ length (c_locations_s c) = top_k
  ∧ length (c_gates_s c) = top_k
  ∧ Forall (λ idx, length idx = g_size0 gates
                   ∧ Forall (λ i, 0 ≤ i < Z.of_nat (g_size1 gates)) idx)
      (c_indices_s c)
  ∧ Forall (λ gs : list Qc, length gs = g_size0 gates) (c_gates_s c).
Proof.
  intros Hw HE Hc.
  destruct (rank_gates _ _ _ _ _ _ _ Hc) as (denom & _ & Hglen & _).
  pose proof (extract_critical_inv _ _ _ _ _ _ _ Hc)
    as (Htop & _ & Hexp & Hind & Hloc & Hg & _).
  split_and!; [done| | |done| |].
  - by rewrite Hind, length_fmap, length_seq.
  - rewrite Hloc. simpl. rewrite locations_above_length. unfold rank_masks.
    rewrite length_fmap, length_seq. lia.
  - rewrite Hind. apply Forall_fmap, Forall_forall. intros k Hk%elem_of_seq. simpl.
    split; [by rewrite length_fmap, chosen_length|].
    apply Forall_fmap. eapply Forall_impl; [apply (chosen_lt gates top_k k Hw); lia|].
    intros e He. simpl in *. rewrite to_int32_small; lia.
  - assert (∀ x : list Qc, length x = g_size0 gates →
              length (zip_with Qcdiv x
                        (Qcmax (finfo_eps (g_dtype gates))
                           <$> foldl (zip_with Qcplus) (replicate (g_size0 gates) 0%Qc)
                                 (raw_gates gates top_k <$> seq 0 top_k)))
              = g_size0 gates) as Hzip.
    { intros x Hx. rewrite length_zip_with, length_fmap, Hx.
      destruct (decide (g_size0 gates = 0%nat)) as [->|Hn]; [done|].
      destruct (foldl_zip_with_Qcplus_lookup (g_size0 gates)
                  (raw_gates gates top_k <$> seq 0 top_k)
                  (replicate (g_size0 gates) 0%Qc) 0) as [-> _]; [| |lia|lia].
      - apply Forall_fmap, Forall_forall. intros k _. apply raw_gates_length.
      - by rewrite length_replicate. }
    rewrite Hg. case_bool_decide.
    + rewrite <-list_fmap_compose. apply Forall_fmap, Forall_forall. intros k _. simpl.
      apply Hzip, raw_gates_length.
    + apply Forall_fmap, Forall_forall. intros k _. apply raw_gates_length.
Qed.

(** X3: two different ranks never send a token to the same expert: the
    indices of one token in two streams of [indices_s] differ. *)
Theorem ranks_choose_distinct_experts gates top_k cf fp32 bpr c loss
    k1 k2 idx1 idx2 t e1 e2 :
  well_shaped gates → Z.of_nat (g_size1 gates) ≤ 2 ^ 31 →
  extract_critical gates top_k cf fp32 bpr = Ok (c, loss) →
  k1 ≠ k2 →
  c_indices_s c !! k1 = Some idx1 → c_indices_s c !! k2 = Some idx2 →
  idx1 !! t = Some e1 → idx2 !! t = Some e2 →
  e1 ≠ e2.
Proof.
  intros Hw HE Hc Hk H1 H2 He1 He2.
  pose proof (extract_critical_inv _ _ _ _ _ _ _ Hc) as (Htop & _).
  destruct (rank_indices _ _ _ _ _ _ _ _ _ Hc H1) as [Hk1 ->].
  destruct (rank_indices _ _ _ _ _ _ _ _ _ Hc H2) as [Hk2 ->].
  rewrite list_lookup_fmap in He1, He2.
  destruct (chosen gates top_k k1 !! t) as [a|] eqn:Ha; [|done].
  destruct (chosen gates top_k k2 !! t) as [b|] eqn:Hb; [|done].
  simpl in He1, He2. simplify_eq.
  destruct (chosen_lookup gates top_k k1 t a Hw ltac:(lia) Ha) as (row & Hrow & Hlen & Hta).
  destruct (chosen_lookup gates top_k k2 t b Hw ltac:(lia) Hb) as (row' & Hrow' & _ & Htb).
  simplify_eq.
  pose proof (lookup_lt_Some _ _ _ Hta). pose proof (lookup_lt_Some _ _ _ Htb).
  assert (a ≠ b) as Hab.
  { intros ->. apply Hk. eapply NoDup_lookup; [apply topk_row_NoDup|done..]. }
  pose proof (chosen_lt gates top_k k1 Hw ltac:(lia)) as Hlt1.
  pose proof (chosen_lt gates top_k k2 Hw ltac:(lia)) as Hlt2.
  rewrite Forall_lookup in Hlt1, Hlt2.
  pose proof (Hlt1 _ _ Ha). pose proof (Hlt2 _ _ Hb).
  rewrite !to_int32_small by lia. lia.
Qed.

(** X4: the gate of a token does not grow with the rank: in [gates_s] the
    entry of a token at a lower rank is at least its entry at a higher
    rank, with or without the normalisation. *)
Theorem gates_descend_with_rank gates top_k cf fp32 bpr c loss k1 k2 gs1 gs2 t g1 g2 :
  well_shaped gates →
  extract_critical gates top_k cf fp32 bpr = Ok (c, loss) →
  (k1 < k2)%nat →
  c_gates_s c !! k1 = Some gs1 → c_gates_s c !! k2 = Some gs2 →
  gs1 !! t = Some g1 → gs2 !! t = Some g2 →
  (g2 ≤ g1)%Qc.
Proof.
  intros Hw Hc Hk H1 H2 Hg1 Hg2.
  pose proof (extract_critical_inv _ _ _ _ _ _ _ Hc) as (Htop & _).
  destruct (rank_gates _ _ _ _ _ _ _ Hc) as (denom & Hden & _ & Hgs).
  assert (∀ k r, (k < top_k)%nat → raw_gates gates top_k k !! t = Some r →
            ∃ row e a, g_data gates !! t = Some row ∧ length row = g_size1 gates
                       ∧ topk_row top_k row !! k = Some e
                       ∧ row !! e = Some a ∧ r = a) as Hraw.
  { intros k r Hk' Hr.
    assert (t < g_size0 gates)%nat as Ht.
    { rewrite <-(raw_gates_length gates top_k k). by eapply lookup_lt_Some. }
    destruct (lookup_lt_is_Some_2 (g_data gates) t Ht) as [row Hrow].
    destruct (raw_gates_lookup gates top_k k t row Hw ltac:(lia) Hrow)
      as (e & He & Hlt & Hraw).
    destruct (chosen_lookup gates top_k k t e Hw ltac:(lia) He)
      as (row1 & Hrow1 & Hlen & Hta).
    rewrite Hrow in Hrow1. injection Hrow1 as <-.
    destruct (lookup_lt_is_Some_2 row e) as [a Ha]; [lia|].
    rewrite (list_lookup_total_correct _ _ _ Ha) in Hraw.
    exists row, e, a. by simplify_eq. }
  assert (∀ r1 r2, raw_gates gates top_k k1 !! t = Some r1 →
            raw_gates gates top_k k2 !! t = Some r2 → (k2 < top_k)%nat → (r2 ≤ r1)%Qc)
    as Hle.
  { intros r1 r2 Hr1 Hr2 Hk2.
    destruct (Hraw k1 r1 ltac:(lia) Hr1) as (row & e1 & a & Hrow & _ & Ht1 & Ha & ->).
    destruct (Hraw k2 r2 Hk2 Hr2) as (row' & e2 & b & Hrow' & _ & Ht2 & Hb & ->).
    simplify_eq. by eapply (topk_row_descending top_k row k1 k2 e1 e2). }
  destruct Hgs as [Hgs|Hgs].
  - destruct (Hgs _ _ H1) as [Hk1 ->]. destruct (Hgs _ _ H2) as [Hk2 ->]. by eapply Hle.
  - destruct (Hgs _ _ H1) as [Hk1 ->]. destruct (Hgs _ _ H2) as [Hk2 ->].
    apply lookup_zip_with_Some in Hg1 as (x & d & -> & Hx & Hd).
    apply lookup_zip_with_Some in Hg2 as (y & d' & -> & Hy & Hd').
    simplify_eq. apply Qcdiv_le_compat; [|by eapply Hle].
    rewrite Forall_lookup in Hden. by eapply Hden.
Qed.

(** X5: the options of [extract_critical] each touch their own output only:
    for the same gates and [top_k], the number of experts, the indices and
    the gates are the same whatever the options; the locations depend on
    [batch_prioritized_routing] alone, the capacity on [capacity_factor]
    alone, the loss on [fp32_gate] alone. *)
Theorem options_touch_their_own_output gates top_k cf cf' fp32 fp32' bpr bpr'
    c loss c' loss' :
  extract_critical gates top_k cf fp32 bpr = Ok (c, loss) →
  extract_critical gates top_k cf' fp32' bpr' = Ok (c', loss') →
  c_num_global_experts c' = c_num_global_experts c
  ∧ c_indices_s c' = c_indices_s c
  ∧ c_gates_s c' = c_gates_s c
  ∧ (bpr' = bpr → c_locations_s c' = c_locations_s c)
  ∧ (cf' = cf → c_capacity c' = c_capacity c)
  ∧ (fp32' = fp32 → loss' = loss).
Proof.
  intros Hc Hc'.
  apply extract_critical_inv in Hc as (_ & Hl & -> & -> & -> & -> & -> & _).
  apply extract_critical_inv in Hc' as (_ & Hl' & -> & -> & -> & -> & -> & _).
  split_and!; try done.
  - intros ->. reflexivity.
  - intros ->. reflexivity.
  - intros ->. rewrite Hl in Hl'. by injection Hl'.
Qed.

Lemma int_of_lower (q : Qc) (z : Z) : 0 ≤ z → (Qc_of_Z z ≤ q)%Qc → z ≤ int_of q.
Proof.
  intros Hz Hq. destruct q as [[n d] Hcanon]. unfold int_of. cbn [this Qnum Qden].
  unfold Qcle, Qle in Hq. cbn in Hq.
  assert (0 ≤ n) by nia.
  rewrite Z.quot_div_nonneg by lia. apply Z.div_le_lower_bound; lia.
Qed.

(** X6: with a [capacity_factor] of at least 1 the buffer has room for
    every assignment taken together: the number of experts times the
    capacity is at least [top_k] times the number of tokens. *)
Theorem capacity_holds_every_assignment gates top_k cf fp32 bpr c loss :
  (1 ≤ cf)%Qc →
  extract_critical gates top_k cf fp32 bpr = Ok (c, loss) →
  Z.of_nat top_k * Z.of_nat (g_size0 gates)
  ≤ Z.of_nat (c_num_global_experts c) * c_capacity c.
Proof.
  intros Hcf Hc.
  apply extract_critical_inv in Hc as (Htop & _ & -> & _ & _ & _ & -> & _).
  set (ceiling := (Z.of_nat (g_size0 gates) + Z.of_nat (g_size1 gates) - 1)
                    `div` Z.of_nat (g_size1 gates)).
  pose proof (ceil_div_spec (Z.of_nat (g_size0 gates)) (Z.of_nat (g_size1 gates))
                ltac:(lia)) as [_ Hceil]. fold ceiling in Hceil.
  assert (0 ≤ ceiling) as Hpos by (apply Z.div_pos; lia).
  assert (ceiling ≤ int_of (round64 (round64 cf * Qc_of_Z ceiling))) as Hwhole.
  { apply int_of_lower; [done|]. apply round64_lower.
    rewrite <-(Qcmult_1_l (Qc_of_Z ceiling)) at 1.
    apply Qcmult_le_compat_r; [|by apply Qc_of_Z_nonneg].
    rewrite <-Z2Qc_inj_1. apply round64_lower. by rewrite Z2Qc_inj_1. }
  set (whole := int_of (round64 (round64 cf * Qc_of_Z ceiling))) in *.
  assert (Z.of_nat (g_size0 gates) ≤ whole * Z.of_nat (g_size1 gates)) by nia.
  nia.
Qed.

(** ** The loss *)

(** The loss in one form for both branches of [load_balance]. *)
Lemma load_balance_sums gates top_k fp32 :
  well_shaped gates → (0 < top_k ≤ g_size1 gates)%nat → (0 < g_size0 gates)%nat →
  load_balance gates (one_hot_with_dtype (chosen gates top_k 0) (g_size1 gates))
    (g_size1 gates) fp32
  = Ok (Qc_of_Z (Z.of_nat (g_size1 gates))
        * sum_over_experts gates
            (λ e, gate_mass gates e * Qc_of_Z (tokens_routed gates top_k e))
        / (Qc_of_Z (Z.of_nat (g_size0 gates)) * Qc_of_Z (Z.of_nat (g_size0 gates))))%Qc.
Proof.
  intros Hw Htop Hn. rewrite load_balance_value by done.
  assert (Qc_of_Z (Z.of_nat (g_size0 gates)) ≠ 0%Qc) as Hn0.
  { intros H. apply (f_equal this) in H. simpl in H. injection H. lia. }
  set (n := Qc_of_Z (Z.of_nat (g_size0 gates))) in *.
  set (experts := Qc_of_Z (Z.of_nat (g_size1 gates))) in *.
  cbv zeta. destruct (bool_decide (g_dtype gates = float32) || fp32); [done|].
  f_equal. unfold sum_over_experts.
  rewrite (list_fmap_ext _
             (λ e, gate_mass gates e * Qc_of_Z (tokens_routed gates top_k e) / (n * n))%Qc
             (seq 0 (g_size1 gates))).
  2:{ intros i e _. simpl. field. done. }
  rewrite (list_fmap_compose
             (λ e, gate_mass gates e * Qc_of_Z (tokens_routed gates top_k e))%Qc
             (λ r, r / (n * n))%Qc).
  rewrite sumQc_div. unfold Qcdiv. ring.
Qed.

Lemma sumQc_cons (x : Qc) l : sumQc (x :: l) = (x + sumQc l)%Qc.
Proof. done. Qed.

Lemma sumQc_plus {A} (f g : A → Qc) (l : list A) :
  sumQc ((λ a, f a + g a)%Qc <$> l) = (sumQc (f <$> l) + sumQc (g <$> l))%Qc.
Proof.
  induction l as [|a l IH]; [by rewrite Qcplus_0_l|].
  rewrite !fmap_cons, !sumQc_cons, IH. ring.
Qed.

Lemma sumQc_zero {A} (l : list A) : sumQc ((λ _, 0%Qc) <$> l) = 0%Qc.
Proof.
  induction l as [|a l IH]; [done|]. rewrite fmap_cons, sumQc_cons, IH. ring.
Qed.

Lemma sumQc_le {A} (f g : A → Qc) (l : list A) :
  (∀ a, a ∈ l → (f a ≤ g a)%Qc) →
  (sumQc (f <$> l) ≤ sumQc (g <$> l))%Qc.
Proof.
  induction l as [|a l IH]; intros H; [apply Qcle_refl|].
  rewrite !fmap_cons, !sumQc_cons. apply Qcplus_le_compat.
  - apply H. by left.
  - apply IH. intros b Hb. apply H. by right.
Qed.

Lemma sumQc_nonneg (l : list Qc) : Forall (λ q, 0 ≤ q)%Qc l → (0 ≤ sumQc l)%Qc.
Proof.
  induction 1 as [|q l Hq _ IH]; [done|]. rewrite sumQc_cons.
  rewrite <-(Qcplus_0_l 0). by apply Qcplus_le_compat.
Qed.

Lemma sumQc_scale_r {A} (f : A → Qc) (c : Qc) (l : list A) :
  sumQc ((λ a, f a * c)%Qc <$> l) = (sumQc (f <$> l) * c)%Qc.
Proof.
  induction l as [|a l IH]; [by rewrite Qcmult_0_l|].
  rewrite !fmap_cons, !sumQc_cons, IH. ring.
Qed.

(** The sums over the columns add up to the sums over the rows. *)
Lemma sum_columns_rows (cols : nat) (rows : list (list Qc)) :
  Forall (λ r : list Qc, length r = cols) rows →
  sumQc ((λ e, sumQc ((λ r : list Qc, r !!! e) <$> rows)) <$> seq 0 cols)
  = sumQc (sumQc <$> rows).
Proof.
  induction 1 as [|r rows Hr _ IH].
  - simpl. apply sumQc_zero.
  - rewrite fmap_cons, sumQc_cons, <-IH.
    replace (sumQc r) with (sumQc ((λ e, r !!! e) <$> seq 0 cols))
      by (by rewrite <-(total_fmap_seq r cols Hr)).
    by rewrite <-sumQc_plus.
Qed.

Lemma Qcmult_nonneg (a b : Qc) : (0 ≤ a)%Qc → (0 ≤ b)%Qc → (0 ≤ a * b)%Qc.
Proof.
  intros Ha Hb. rewrite <-(Qcmult_0_l b). by apply Qcmult_le_compat_r.
Qed.

Lemma gate_mass_nonneg gates e :
  Forall (Forall (λ g, 0 ≤ g)%Qc) (g_data gates) → (0 ≤ gate_mass gates e)%Qc.
Proof.
  intros Hpos. unfold gate_mass. apply sumQc_nonneg, Forall_fmap.
  eapply Forall_impl; [exact Hpos|]. intros row Hrow. simpl.
  destruct (row !! e) as [g|] eqn:Hg.
  - rewrite (list_lookup_total_correct _ _ _ Hg). rewrite Forall_lookup in Hrow. eauto.
  - by rewrite (list_lookup_total_alt row e), Hg.
Qed.

Lemma tokens_routed_bounds gates top_k e :
  0 ≤ tokens_routed gates top_k e ≤ Z.of_nat (g_size0 gates).
Proof.
  unfold tokens_routed. pose proof (length_filter (λ a, a = e) (chosen gates top_k 0)).
  rewrite chosen_length in *. lia.
Qed.

Lemma Qc_of_Z_le a b : a ≤ b → (Qc_of_Z a ≤ Qc_of_Z b)%Qc.
Proof. intros H. unfold Qcle, Qle. simpl. lia. Qed.

Lemma sumQc_ones {A} (l : list A) :
  sumQc ((λ _, 1%Qc) <$> l) = Qc_of_Z (Z.of_nat (length l)).
Proof.
  induction l as [|a l IH]; [by apply Qc_is_canon|].
  rewrite fmap_cons, sumQc_cons, IH. simpl length.
  rewrite Nat2Z.inj_succ, <-Z.add_1_l. apply Qc_is_canon.
  change (Qred (1 + inject_Z (Z.of_nat (length l))) == inject_Z (1 + Z.of_nat (length l)))%Q.
  rewrite Qred_correct. unfold Qeq. simpl. lia.
Qed.

(** X8: when every row of the gates is a distribution (no entry is
    negative and the row sums to 1), the loss lies between 0 and the number
    of experts. *)
Theorem loss_between_zero_and_experts gates top_k cf fp32 bpr c loss :
  well_shaped gates → (0 < g_size0 gates)%nat →
  Forall (λ row, Forall (λ g, 0 ≤ g)%Qc row ∧ sumQc row = 1%Qc) (g_data gates) →
  extract_critical gates top_k cf fp32 bpr = Ok (c, loss) →
  (0 ≤ loss ≤ Qc_of_Z (Z.of_nat (g_size1 gates)))%Qc.
Proof.
  intros Hw Hn Hrows Hc.
  apply extract_critical_inv in Hc as (Htop & Hl & _).
  rewrite load_balance_sums in Hl by done. injection Hl as <-.
  assert (Forall (Forall (λ g, 0 ≤ g)%Qc) (g_data gates)) as Hpos.
  { eapply Forall_impl; [exact Hrows|]. by intros row [? _]. }
  set (n := Qc_of_Z (Z.of_nat (g_size0 gates))).
  set (experts := Qc_of_Z (Z.of_nat (g_size1 gates))).
  set (S := sum_over_experts gates
              (λ e, gate_mass gates e * Qc_of_Z (tokens_routed gates top_k e))%Qc).
  assert (0 ≤ n)%Qc as Hn0 by (apply Qc_of_Z_nonneg; lia).
  assert (n ≠ 0%Qc) as Hnz.
  { intros H. apply (f_equal this) in H. simpl in H. injection H. lia. }
  assert (0 ≤ experts)%Qc as He0 by (apply Qc_of_Z_nonneg; lia).
  assert (0 ≤ S)%Qc as HS0.
  { unfold S, sum_over_experts. apply sumQc_nonneg, Forall_fmap, Forall_forall.
    intros e _. simpl. apply Qcmult_nonneg; [by apply gate_mass_nonneg|].
    apply Qc_of_Z_nonneg. apply tokens_routed_bounds. }
  assert (sum_over_experts gates (gate_mass gates) = n) as Hmass.
  { unfold sum_over_experts, gate_mass. rewrite (sum_columns_rows _ _ Hw).
    rewrite (list_fmap_ext sumQc (λ _, 1%Qc) (g_data gates)).
    2:{ intros i row Hi. rewrite Forall_lookup in Hrows.
        destruct (Hrows _ _ Hi) as [_ H1]. exact H1. }
    apply sumQc_ones. }
  assert (S ≤ n * n)%Qc as HSn.
  { rewrite <-Hmass at 1. unfold S, sum_over_experts. rewrite <-sumQc_scale_r.
    apply sumQc_le. intros e _. simpl.
    rewrite (Qcmult_comm (gate_mass gates e) (Qc_of_Z _)).
    rewrite (Qcmult_comm (gate_mass gates e) n).
    apply Qcmult_le_compat_r; [|by apply gate_mass_nonneg].
    apply Qc_of_Z_le. apply tokens_routed_bounds. }
  split.
  - unfold Qcdiv. apply Qcmult_nonneg; [by apply Qcmult_nonneg|].
    apply Qcinv_nonneg. by apply Qcmult_nonneg.
  - replace experts with (experts * (n * n) / (n * n))%Qc at 2 by (field; done).
    apply Qcdiv_le_compat; [by apply Qcmult_nonneg|].
    rewrite !(Qcmult_comm experts). by apply Qcmult_le_compat_r.
Qed.

(** ** [one_hot_with_dtype] *)

Lemma sumZ_replicate_0 n : sumZ (replicate n 0) = 0.
Proof. unfold sumZ. induction n as [|n IH]; simpl; [done|]. by rewrite IH. Qed.

Lemma sumZ_one_hot_row (i cols : nat) :
  (i < cols)%nat → sumZ (<[i := 1]> (replicate cols 0)) = 1.
Proof.
  revert i. induction cols as [|cols IH]; intros i Hi; [lia|].
  destruct i as [|i]; simpl.
  - change (1 + sumZ (replicate cols 0) = 1). rewrite sumZ_replicate_0. lia.
  - change (0 + sumZ (<[i := 1]> (replicate cols 0)) = 1). rewrite IH by lia. lia.
Qed.

(** X9: for indices that are classes, [one_hot_with_dtype] returns one row
    per index, of [num_classes] entries, with 1 at the index and 0
    elsewhere; so every row sums to 1. *)
Theorem one_hot_with_dtype_rows data num_classes :
  Forall (λ i, i < num_classes)%nat data →
  length (one_hot_with_dtype data num_classes) = length data
  ∧ ∀ t i, data !! t = Some i →
      ∃ row, one_hot_with_dtype data num_classes !! t = Some row
        ∧ length row = num_classes
        ∧ (∀ e, (e < num_classes)%nat → row !! e = Some (if decide (i = e) then 1 else 0))
        ∧ sumZ row = 1.
Proof.
  intros Hdata. split; [apply one_hot_length|].
  intros t i Hi. rewrite Forall_lookup in Hdata. pose proof (Hdata _ _ Hi) as Hlt.
  eexists. split; [by apply one_hot_lookup|]. split_and!.
  - apply one_hot_row_length.
  - intros e He. by apply one_hot_row_lookup.
  - by apply sumZ_one_hot_row.
Qed.

(** ** [update] and the kernel pool *)

(** X11: [update] and the pool.  The pool only grows: every entry it held is
    kept as it was, and only the entry of the device class of the indices can
    be new.  A dispatcher already on that device class keeps its kernels and
    leaves the pool alone; any other dispatcher leaves [update] bound to what
    the pool then holds for the class, which is what the pool held before
    or, when it held nothing, kernels made for the dispatcher's own dtype. *)
Theorem update_consults_pool_on_device_change self indices locations gates dev cap post
    pool d pool' :
  update self indices locations gates dev cap post pool = Ok (d, pool') →
  pool ⊆ pool'
  ∧ (∀ other, other ≠ dev → pool' !! other = pool !! other)
  ∧ (is_Some (pool !! dev) → pool' = pool)
  ∧ (is_cuda self = Some dev → kernels d = kernels self ∧ pool' = pool)
  ∧ (is_cuda self ≠ Some dev →
     is_Some (kernels d) ∧ kernels d = pool' !! dev
     ∧ (pool !! dev = None →
        ∃ first, indices !! 0%nat = Some first
          ∧ kernels d = Some (own_kernels self dev (length first)))).
Proof.
  unfold update. destruct indices as [|first rest]; simpl; [done|].
  destruct cap as [c|]; [|done]. rewrite length_fmap.
  case_bool_decide as Hdev.
  - destruct (pool !! dev) as [ks|] eqn:Hpool; intros H;
      [|apply create_kernels_Ok in H as [_ H]]; simplify_eq; simpl.
    + split_and!; done.
    + split_and!.
      * by apply insert_subseteq.
      * intros other Hne. by rewrite lookup_insert_ne.
      * by intros [? ?].
      * done.
      * intros _. rewrite lookup_insert_eq. split_and!; [by eexists|done|].
        intros _. by exists first.
  - intros H. simplify_eq. simpl. split_and!; done.
Qed.

(** X12: [update] is idempotent: a second [update] with the same arguments,
    on the dispatcher and the pool the first one left, changes neither. *)
Theorem update_twice self indices locations gates dev cap post pool d pool' :
  update self indices locations gates dev cap post pool = Ok (d, pool') →
  update d indices locations gates dev cap post pool' = Ok (d, pool').
Proof.
  unfold update. destruct indices as [|first rest]; simpl; [done|].
  destruct cap as [c|]; [|done]. rewrite length_fmap.
  destruct (decide (is_cuda self = Some dev)) as [Hd|Hd].
  - rewrite (bool_decide_eq_false_2 (is_cuda self ≠ Some dev)) by (intros Hx; by apply Hx).
    intros H. simplify_eq. simpl.
    rewrite (bool_decide_eq_false_2 (is_cuda self ≠ Some dev)) by (intros Hx; by apply Hx).
    by destruct (bool_decide (c = 0)).
  - rewrite (bool_decide_eq_true_2 (is_cuda self ≠ Some dev)) by done.
    destruct (pool !! dev) as [ks|] eqn:Hpool; intros H;
      [|apply create_kernels_Ok in H as [_ H]]; simplify_eq; simpl.
    all: rewrite (bool_decide_eq_false_2 (Some dev ≠ Some dev)) by (intros Hx; by apply Hx).
    all: by destruct (bool_decide (c = 0)).
Qed.

(** ** The gating operators *)

Lemma reduce_streams_length mem k ks config lhs rhs out_dtype ss grads :
  reduce_streams mem k ks config lhs rhs out_dtype ss = Ok grads →
  length grads = length ss.
Proof.
  revert k grads. induction ss as [|[i l] ss IH]; intros k grads H; simpl in H.
  { by simplify_eq. }
  apply bind_Ok in H as (extra & _ & H). apply bind_Ok in H as (b & _ & H).
  apply bind_Ok in H as (rest & Hrest & H). simplify_eq. simpl. by rewrite (IH _ _ Hrest).
Qed.

(** X15: of a matched [encode] and [decode] of one dispatcher that has
    gates, exactly one returns gate gradients from its backward pass: with
    [is_postscore] set [encode] returns none and [decode] one per stream,
    without it [encode] returns one per stream and [decode] none; this
    whatever the buffers of the passes hold when they are allocated. *)
Theorem gate_gradients_come_from_one_pass mem mem_e mem_d self x y ctx_e out_e ctx_d
    out_d g u last ge grad gd :
  gates_ self ≠ [] →
  encode_apply self x = Ok (ctx_e, out_e) →
  decode_apply mem self y = Ok (ctx_d, out_d) →
  GatingEncoder.backward mem_e ctx_e g = Ok (last, ge) →
  GatingDecoder.backward mem_d ctx_d u = Ok (grad, gd) →
  if is_postscore self
  then ge = [] ∧ length gd = length (zip (indices_ self) (locations_ self))
  else length ge = length (zip (indices_ self) (locations_ self)) ∧ gd = [].
Proof.
  intros Hgates He Hd Hbe Hbd.
  unfold encode_apply in He. unfold decode_apply in Hd.
  assert (∀ gs, gs = gates_ self → gates_h2_of self gs = own_gate <$> gs) as Hown.
  { intros gs ->. unfold gates_h2_of. by destruct (gates_ self). }
  unfold GatingEncoder.backward in Hbe. unfold GatingDecoder.backward in Hbd.
  apply bind_Ok in Hbe as (ks & _ & Hbe). apply bind_Ok in Hbe as (r1 & _ & Hbe).
  apply bind_Ok in Hbd as (ks' & _ & Hbd). apply bind_Ok in Hbd as (r2 & _ & Hbd).
  destruct (is_postscore self).
  - apply forward_context in He as ->. apply decoder_forward_context in Hd as ->.
    simpl in *. rewrite (Hown _ eq_refl) in Hbd.
    destruct (gates_ self) as [|g0 gs]; [done|]. simpl in Hbd.
    apply bind_Ok in Hbd as (gg & Hgg & Hbd). simplify_eq.
    apply reduce_streams_length in Hgg. split; [|done].
    destruct (indices_ self); simpl in Hbe; [done|]. by simplify_eq.
  - apply forward_context in He as ->. apply decoder_forward_context in Hd as ->.
    simpl in *. rewrite (Hown _ eq_refl) in Hbe.
    destruct (gates_ self) as [|g0 gs]; [done|]. simpl in Hbe.
    apply bind_Ok in Hbe as (gg & Hgg & Hbe). simplify_eq.
    apply reduce_streams_length in Hgg. split; [done|].
    destruct (indices_ self); simpl in Hbd; [done|]. by simplify_eq.
Qed.

(** What [update] keeps of the dispatcher and of the pool. *)
Lemma update_frame self indices locations gates dev cap post pool d pool' :
  update self indices locations gates dev cap post pool = Ok (d, pool') →
  original_dtype d = original_dtype self ∧ pool ⊆ pool' ∧ is_cuda d = Some dev
  ∧ (is_cuda self = None → is_Some (pool' !! dev)).
Proof.
  unfold update. destruct indices as [|first rest]; simpl; [done|].
  destruct cap as [c|]; [|done].
  destruct (decide (is_cuda self = Some dev)) as [Hd|Hd].
  - rewrite (bool_decide_eq_false_2 (is_cuda self ≠ Some dev)) by (intros Hx; by apply Hx).
    intros H. simplify_eq. simpl. split_and!; [done..|]. intros Hx. congruence.
  - rewrite (bool_decide_eq_true_2 (is_cuda self ≠ Some dev)) by done.
    destruct (pool !! dev) as [ks|] eqn:Hpool; intros H;
      [|apply create_kernels_Ok in H as [_ H]]; simplify_eq; simpl.
    + split_and!; [done..|]. intros _. by rewrite Hpool.
    + split_and!; [done|by apply insert_subseteq|done|].
      intros _. rewrite lookup_insert_eq. by eexists.
Qed.

(** X16: what [fast_encode] and [fast_decode] return has the dtype of their
    input, whatever dtype the dispatcher computes in and whatever the buffers
    hold when they are allocated; they keep every entry of the kernel pool
    and leave it with an entry for the device class of the critical data. *)
Theorem fast_paths_keep_dtype mem IS_HIP_EXTENSION data c post pool out pool' :
  fast_encode IS_HIP_EXTENSION data c post pool = Ok (out, pool')
  ∨ fast_decode mem IS_HIP_EXTENSION data c post pool = Ok (out, pool') →
  t_dtype out = t_dtype data
  ∧ pool ⊆ pool'
  ∧ is_Some (pool' !! c_is_cuda c).
Proof.
  intros [H|H].
  - unfold fast_encode in H. apply bind_Ok in H as ([d p] & Hup & H).
    apply bind_Ok in H as (y & Hy & H). simpl in *. simplify_eq.
    apply update_frame in Hup as (Ho & Hsub & _ & Hsome).
    unfold encode in Hy. apply bind_Ok in Hy as ([ctx r] & _ & Hy). simplify_eq.
    simpl. split_and!; [by rewrite Ho|done|by apply Hsome].
  - unfold fast_decode in H. apply bind_Ok in H as ([d p] & Hup & H).
    apply bind_Ok in H as (y & Hy & H). simpl in *. simplify_eq.
    apply update_frame in Hup as (Ho & Hsub & _ & Hsome).
    unfold decode in Hy. apply bind_Ok in Hy as ([ctx r] & _ & Hy). simpl in Hy.
    destruct r as [r|]; [|done]. simplify_eq.
    simpl. split_and!; [by rewrite Ho|done|by apply Hsome].
Qed.

(** ** The source text of a kernel *)

Lemma starts_with_spec p s : starts_with p s = true ↔ ∃ b, s = p +:+ b.
Proof.
  revert s. induction p as [|a p IH]; intros s; simpl.
  - split; [by exists s|done].
  - destruct s as [|b s]; simpl.
    + split; [done|]. by intros [? ?].
    + rewrite andb_true_iff, bool_decide_eq_true, IH. split.
      * intros [-> [r ->]]. by exists r.
      * intros [r Hr]. injection Hr as -> ->. split; [done|by exists r].
Qed.

Lemma contains_cons p ch s :
  contains p (String ch s) = starts_with p (String ch s) || contains p s.
Proof. done. Qed.

Lemma replace_absent old new s : contains old s = false → str_replace old new s = s.
Proof.
  unfold str_replace. induction s as [|ch s IH]; intros Hno; [done|].
  rewrite contains_cons in Hno. apply orb_false_iff in Hno as [Hst Hno].
  cbn [replace_from]. by rewrite Hst, IH.
Qed.

Lemma kernel_source_unchanged keyword_dict template :
  Forall (λ kv, contains (placeholder kv.1) template = false) keyword_dict →
  kernel_source keyword_dict template = template.
Proof.
  unfold kernel_source. induction 1 as [|kv kvs Hkv _ IH]; simpl; [done|].
  by rewrite replace_absent.
Qed.

Lemma app_String (ch : ascii) (a b : string) : String ch a +:+ b = String ch (a +:+ b).
Proof. done. Qed.

Lemma plain_app a b : plain (a +:+ b) = plain a && plain b.
Proof.
  induction a as [|ch a IH]; simpl; [done|]. rewrite IH. by rewrite andb_assoc.
Qed.

Lemma plain_no_placeholder key s : plain s = true → contains (placeholder key) s = false.
Proof.
  induction s as [|ch s IH]; intros Hs; [done|].
  simpl in Hs. apply andb_true_iff in Hs as [Hch Hs].
  apply negb_true_iff, bool_decide_eq_false in Hch.
  rewrite contains_cons, (IH Hs), orb_false_r. unfold placeholder. simpl.
  rewrite bool_decide_eq_false_2; [done|]. by intros <-.
Qed.

Lemma replace_from_skip old new u b :
  replace_from old new (String.length u) (u +:+ b) = replace_from old new 0 b.
Proof.
  induction u as [|ch u IH]; simpl; [done|]. exact IH.
Qed.

Lemma starts_with_app p b : starts_with p (p +:+ b) = true.
Proof. apply starts_with_spec. by exists b. Qed.

Lemma replace_placeholder key value a b :
  plain a = true → plain b = true →
  str_replace (placeholder key) value (a +:+ placeholder key +:+ b) = a +:+ value +:+ b.
Proof.
  intros Ha Hb. unfold str_replace. induction a as [|ch a IH].
  - change ("" +:+ placeholder key +:+ b) with (placeholder key +:+ b).
    change ("" +:+ value +:+ b) with (value +:+ b).
    unfold placeholder at 2. rewrite app_String. cbn [replace_from].
    rewrite <-app_String. fold (placeholder key).
    rewrite starts_with_app. f_equal.
    replace (String.length (placeholder key) - 1)%nat with (String.length (key +:+ "@")).
    2:{ unfold placeholder. simpl. lia. }
    rewrite replace_from_skip.
    apply (replace_absent (placeholder key) value b). by apply plain_no_placeholder.
  - simpl in Ha. apply andb_true_iff in Ha as [Hch Ha].
    rewrite !app_String. cbn [replace_from].
    assert (starts_with (placeholder key) (String ch (a +:+ placeholder key +:+ b)) = false)
      as ->.
    { unfold placeholder. simpl. apply negb_true_iff in Hch.
      apply bool_decide_eq_false in Hch. rewrite bool_decide_eq_false_2; [done|].
      by intros <-. }
    by rewrite IH.
Qed.

Lemma plain_with_at u v : plain (u +:+ String "@" v) = false.
Proof. rewrite plain_app. simpl. by rewrite andb_false_r. Qed.

Lemma contains_cons_inv p ch s :
  contains p (String ch s) = true →
  (∃ y, String ch s = p +:+ y) ∨ contains p s = true.
Proof.
  rewrite contains_cons. intros [H|H]%orb_true_iff; [left|by right].
  by apply starts_with_spec.
Qed.

(** Up to the first [@] two texts that continue with [@] agree, when the
    rest of one of them is plain. *)
Lemma plain_prefix_unique key k b y :
  plain key = true → plain b = true →
  key +:+ String "@" b = k +:+ String "@" y → k = key.
Proof.
  revert k. induction key as [|c key IH]; intros k Hkey Hb H.
  - destruct k as [|c' k]; [done|]. exfalso.
    change ("" +:+ String "@" b) with (String "@" b) in H.
    rewrite app_String in H. injection H as _ H.
    pose proof (plain_with_at k y) as Hp. rewrite <-H in Hp. congruence.
  - simpl in Hkey. apply andb_true_iff in Hkey as [Hc Hkey].
    apply negb_true_iff, bool_decide_eq_false in Hc.
    destruct k as [|c' k].
    + exfalso. rewrite app_String in H. by injection H as H _.
    + rewrite !app_String in H. injection H as -> H. f_equal. by apply IH.
Qed.

Lemma str_app_assoc (a b c : string) : (a +:+ b) +:+ c = a +:+ b +:+ c.
Proof. induction a as [|ch a IH]; [done|]. by rewrite !app_String, IH. Qed.

Lemma placeholder_app k y : placeholder k +:+ y = String "@" (k +:+ String "@" y).
Proof. unfold placeholder. by rewrite app_String, str_app_assoc. Qed.

Lemma no_placeholder_after_at key k b :
  plain key = true → plain b = true →
  contains (placeholder k) (key +:+ String "@" b) = false.
Proof.
  intros Hkey Hb. apply not_true_is_false. induction key as [|c key IH]; intros Hocc.
  - change ("" +:+ String "@" b) with (String "@" b) in Hocc.
    apply contains_cons_inv in Hocc as [[y Hy]|Hocc].
    + rewrite placeholder_app in Hy.
      injection Hy as Hy. pose proof (plain_with_at k y) as Hp. congruence.
    + by rewrite (plain_no_placeholder k b) in Hocc.
  - simpl in Hkey. apply andb_true_iff in Hkey as [Hc Hkey].
    apply negb_true_iff, bool_decide_eq_false in Hc.
    rewrite app_String in Hocc. apply contains_cons_inv in Hocc as [[y Hy]|Hocc].
    + rewrite placeholder_app in Hy. by injection Hy as Hy _.
    + by apply IH.
Qed.

(** In a text that is plain but for one placeholder, no other placeholder
    occurs. *)
Lemma other_placeholder_absent key k a b :
  plain a = true → plain key = true → plain b = true →
  contains (placeholder k) (a +:+ placeholder key +:+ b) = true → k = key.
Proof.
  intros Ha Hkey Hb. induction a as [|c a IH]; intros Hocc.
  - change ("" +:+ placeholder key +:+ b) with (placeholder key +:+ b) in Hocc.
    rewrite placeholder_app in Hocc. apply contains_cons_inv in Hocc as [[y Hy]|Hocc].
    + rewrite placeholder_app in Hy. injection Hy as Hy. by eapply plain_prefix_unique.
    + by rewrite no_placeholder_after_at in Hocc.
  - simpl in Ha. apply andb_true_iff in Ha as [Hc Ha].
    apply negb_true_iff, bool_decide_eq_false in Hc.
    rewrite app_String in Hocc. apply contains_cons_inv in Hocc as [[y Hy]|Hocc].
    + rewrite placeholder_app in Hy. by injection Hy as Hy _.
    + by apply IH.
Qed.

Lemma kernel_source_plain keyword_dict text :
  plain text = true → kernel_source keyword_dict text = text.
Proof.
  intros Hp. apply kernel_source_unchanged, Forall_forall.
  intros kv _. by apply plain_no_placeholder.
Qed.

(** X17: [generate_kernel] hands a template on as it is when no placeholder
    of the dictionary occurs in it, and so whenever the template has no
    [@] at all. *)
Theorem kernel_source_without_placeholders keyword_dict template :
  Forall (λ kv, contains (placeholder kv.1) template = false) keyword_dict
  ∨ plain template = true →
  kernel_source keyword_dict template = template.
Proof.
  intros [Habsent|Hplain]; [by apply kernel_source_unchanged|].
  by apply kernel_source_plain.
Qed.

(** X18: for a template that is plain text around one placeholder,
    [generate_kernel] hands on the text with the value of the key in the
    place of the placeholder, whatever other keys the dictionary has, when
    the key and its value have no [@]. *)
Theorem kernel_source_fills_placeholder keyword_dict key value a b :
  NoDup keyword_dict.*1 → (key, value) ∈ keyword_dict →
  plain a = true → plain key = true → plain value = true → plain b = true →
  kernel_source keyword_dict (a +:+ placeholder key +:+ b) = a +:+ value +:+ b.
Proof.
  intros Hnodup Hin Ha Hkey Hv Hb.
  apply list_elem_of_split in Hin as (d1 & d2 & ->).
  rewrite fmap_app, fmap_cons in Hnodup. apply NoDup_app in Hnodup as (_ & Hd1 & _).
  unfold kernel_source. rewrite foldl_app. simpl.
  fold (kernel_source d1 (a +:+ placeholder key +:+ b)).
  rewrite kernel_source_unchanged.
  - rewrite replace_placeholder by done.
    apply kernel_source_plain. rewrite !plain_app. by rewrite Ha, Hv, Hb.
  - apply Forall_forall. intros [k v] Hk. simpl. apply not_true_is_false. intros Hocc.
    apply other_placeholder_absent in Hocc as ->; [|done..].
    apply (Hd1 key); [|left]. apply list_elem_of_fmap. by exists (key, v).
Qed.

(** ** The further properties on the scenario *)

(** X2 on the scenario, with two ranks. *)
Lemma extract_critical_shapes_witness :
  ∃ c loss,
    extract_critical scenario_gates 2 1%Qc false false = Ok (c, loss)
    ∧ (c_num_global_experts c = g_size1 scenario_gates
       ∧ length (c_indices_s c) = 2%nat
       ∧ length (c_locations_s c) = 2%nat
       ∧ length (c_gates_s c) = 2%nat
       ∧ Forall (λ idx, length idx = g_size0 scenario_gates
                        ∧ Forall (λ i, 0 ≤ i < Z.of_nat (g_size1 scenario_gates)) idx)
           (c_indices_s c)
       ∧ Forall (λ gs : list Qc, length gs = g_size0 scenario_gates) (c_gates_s c)).
Proof.
  eexists _, _. split; [vm_compute; reflexivity|].
  eapply (extract_critical_shapes scenario_gates 2 1%Qc false false _ _).
  - repeat constructor.
  - vm_compute. discriminate.
  - vm_compute. reflexivity.
Defined.

(** X3 on the scenario, with two ranks, for token 0. *)
Lemma ranks_choose_distinct_experts_witness :
  ∃ c loss,
    extract_critical scenario_gates 2 1%Qc false false = Ok (c, loss)
    ∧ c_indices_s c !! 0%nat = Some [0; 0; 1; 1]
    ∧ c_indices_s c !! 1%nat = Some [1; 1; 0; 0]
    ∧ 0 ≠ 1.
Proof.
  eexists _, _. split; [vm_compute; reflexivity|].
  split; [reflexivity|]. split; [reflexivity|].
  eapply (ranks_choose_distinct_experts scenario_gates 2 1%Qc false false _ _
            0 1 [0; 0; 1; 1] [1; 1; 0; 0] 0 0 1).
  - repeat constructor.
  - vm_compute. discriminate.
  - vm_compute. reflexivity.
  - lia.
  - reflexivity.
  - reflexivity.
  - reflexivity.
  - reflexivity.
Defined.

(** X4 on the scenario, with two ranks, for token 0. *)
Lemma gates_descend_with_rank_witness :
  ∃ c loss gs1 gs2 g1 g2,
    extract_critical scenario_gates 2 1%Qc false false = Ok (c, loss)
    ∧ c_gates_s c !! 0%nat = Some gs1 ∧ c_gates_s c !! 1%nat = Some gs2
    ∧ gs1 !! 0%nat = Some g1 ∧ gs2 !! 0%nat = Some g2
    ∧ (g2 ≤ g1)%Qc.
Proof.
  eexists _, _, _, _, _, _. split; [vm_compute; reflexivity|].
  split; [reflexivity|]. split; [reflexivity|].
  split; [reflexivity|]. split; [reflexivity|].
  eapply (gates_descend_with_rank scenario_gates 2 1%Qc false false _ _ 0 1 _ _ 0).
  - repeat constructor.
  - vm_compute. reflexivity.
  - lia.
  - reflexivity.
  - reflexivity.
  - reflexivity.
  - reflexivity.
Defined.

(** X5 on the scenario: two calls that differ in every option. *)
Lemma options_touch_their_own_output_witness :
  ∃ c loss c' loss',
    extract_critical scenario_gates 1 1%Qc false false = Ok (c, loss)
    ∧ extract_critical scenario_gates 1 (Q2Qc 2) true true = Ok (c', loss')
    ∧ (c_num_global_experts c' = c_num_global_experts c
       ∧ c_indices_s c' = c_indices_s c
       ∧ c_gates_s c' = c_gates_s c
       ∧ (true = false → c_locations_s c' = c_locations_s c)
       ∧ (Q2Qc 2 = 1%Qc → c_capacity c' = c_capacity c)
       ∧ (true = false → loss' = loss)).
Proof.
  eexists _, _, _, _. split; [vm_compute; reflexivity|].
  split; [vm_compute; reflexivity|].
  eapply (options_touch_their_own_output scenario_gates 1 1%Qc (Q2Qc 2) false true
            false true).
  - vm_compute. reflexivity.
  - vm_compute. reflexivity.
Defined.

(** X6 on the scenario, with [capacity_factor = 1]. *)
Lemma capacity_holds_every_assignment_witness :
  ∃ c loss,
    extract_critical scenario_gates 1 1%Qc false false = Ok (c, loss)
    ∧ Z.of_nat 1 * Z.of_nat (g_size0 scenario_gates)
      ≤ Z.of_nat (c_num_global_experts c) * c_capacity c.
Proof.
  eexists _, _. split; [vm_compute; reflexivity|].
  eapply (capacity_holds_every_assignment scenario_gates 1 1%Qc false false).
  - vm_compute. discriminate.
  - vm_compute. reflexivity.
Defined.

(** X9 on the indices [0,0,1,1] and two classes. *)
Lemma one_hot_with_dtype_rows_witness :
  length (one_hot_with_dtype [0; 0; 1; 1]%nat 2) = length [0; 0; 1; 1]%nat
  ∧ ∀ t i, [0; 0; 1; 1]%nat !! t = Some i →
      ∃ row, one_hot_with_dtype [0; 0; 1; 1]%nat 2 !! t = Some row
        ∧ length row = 2%nat
        ∧ (∀ e, (e < 2)%nat → row !! e = Some (if decide (i = e) then 1 else 0))
        ∧ sumZ row = 1.
Proof.
  apply (one_hot_with_dtype_rows [0; 0; 1; 1]%nat 2).
  repeat (constructor; [lia|]). constructor.
Defined.

(** X11 for a fresh dispatcher of half precision on an accelerator and an
    empty pool. *)
Lemma update_consults_pool_on_device_change_witness :
  ∃ d pool',
    update (init false 2 2 4 float16) two_tokens two_slots (two_gates float16) true
      (Some 2) true ∅ = Ok (d, pool')
    ∧ ((∅ : kernel_pool) ⊆ pool'
       ∧ (∀ other, other ≠ true → pool' !! other = (∅ : kernel_pool) !! other)
       ∧ (is_Some ((∅ : kernel_pool) !! true) → pool' = ∅)
       ∧ (is_cuda (init false 2 2 4 float16) = Some true →
          kernels d = kernels (init false 2 2 4 float16) ∧ pool' = ∅)
       ∧ (is_cuda (init false 2 2 4 float16) ≠ Some true →
          is_Some (kernels d) ∧ kernels d = pool' !! true
          ∧ ((∅ : kernel_pool) !! true = None →
             ∃ first, two_tokens !! 0%nat = Some first
               ∧ kernels d
                 = Some (own_kernels (init false 2 2 4 float16) true (length first))))).
Proof.
  eexists _, _. split; [vm_compute; reflexivity|].
  eapply (update_consults_pool_on_device_change (init false 2 2 4 float16)
            two_tokens two_slots (two_gates float16) true (Some 2) true ∅).
  vm_compute. reflexivity.
Defined.

(** X12 for a fresh dispatcher of half precision on an accelerator and an
    empty pool. *)
Lemma update_twice_witness :
  ∃ d pool',
    update (init false 2 2 4 float16) two_tokens two_slots (two_gates float16) true
      (Some 2) true ∅ = Ok (d, pool')
    ∧ update d two_tokens two_slots (two_gates float16) true (Some 2) true pool'
      = Ok (d, pool').
Proof.
  eexists _, _. split; [vm_compute; reflexivity|].
  eapply (update_twice (init false 2 2 4 float16) two_tokens two_slots
            (two_gates float16) true (Some 2) true ∅).
  vm_compute. reflexivity.
Defined.

(** X15 on the scenario, with the gates applied in [decode]; the buffers of
    the forward pass of [decode] hold zeros when they are allocated, those of
    the backward passes what an earlier computation left. *)
Lemma gate_gradients_come_from_one_pass_witness :
  ∃ c loss d pool ctx_e out_e ctx_d out_d last ge grad gd,
    extract_critical scenario_gates 1 1%Qc false false = Ok (c, loss)
    ∧ update_with (init false 2 0 1 float32) c true ∅ = Ok (d, pool)
    ∧ encode_apply d scenario_x = Ok (ctx_e, out_e)
    ∧ decode_apply zero_memory d out_e = Ok (ctx_d, out_d)
    ∧ GatingEncoder.backward stale_memory ctx_e out_e = Ok (last, ge)
    ∧ GatingDecoder.backward stale_memory ctx_d scenario_x = Ok (grad, gd)
    ∧ if is_postscore d
      then ge = [] ∧ length gd = length (zip (indices_ d) (locations_ d))
      else length ge = length (zip (indices_ d) (locations_ d)) ∧ gd = [].
Proof.
  eexists _, _, _, _, _, _, _, _, _, _, _, _.
  lazymatch goal with
  | |- _ ∧ _ ∧ encode_apply ?d _ = Ok (?ctx_e, ?out_e)
       ∧ decode_apply _ _ _ = Ok (?ctx_d, ?out_d)
       ∧ GatingEncoder.backward _ _ _ = Ok (?last, ?ge)
       ∧ GatingDecoder.backward _ _ _ = Ok (?grad, ?gd) ∧ _ =>
    split; [vm_compute; reflexivity|];
    split; [vm_compute; reflexivity|];
    split; [vm_compute; reflexivity|];
    split; [vm_compute; reflexivity|];
    split; [vm_compute; reflexivity|];
    split; [vm_compute; reflexivity|];
    apply (gate_gradients_come_from_one_pass zero_memory stale_memory stale_memory d
             scenario_x out_e ctx_e out_e ctx_d out_d out_e scenario_x last ge grad gd)
  end.
  - vm_compute. discriminate.
  - vm_compute. reflexivity.
  - vm_compute. reflexivity.
  - vm_compute. reflexivity.
  - vm_compute. reflexivity.
Defined.

(** X16 for [fast_encode] on the scenario and an empty pool. *)
Lemma fast_paths_keep_dtype_witness :
  ∃ c loss out pool',
    extract_critical scenario_gates 1 1%Qc false false = Ok (c, loss)
    ∧ fast_encode false scenario_x c true ∅ = Ok (out, pool')
    ∧ (t_dtype out = t_dtype scenario_x
       ∧ (∅ : kernel_pool) ⊆ pool'
       ∧ is_Some (pool' !! c_is_cuda c)).
Proof.
  eexists _, _, _, _. split; [vm_compute; reflexivity|].
  split; [vm_compute; reflexivity|].
  eapply (fast_paths_keep_dtype stale_memory false scenario_x _ true ∅).
  left. vm_compute. reflexivity.
Defined.

(** X17 for a text without placeholders. *)
Lemma kernel_source_without_placeholders_witness :
  kernel_source scenario_keywords "__global__ void run() {}"
  = "__global__ void run() {}".
Proof.
  apply (kernel_source_without_placeholders scenario_keywords "__global__ void run() {}").
  left. repeat (constructor; [reflexivity|]). constructor.
Defined.

(** X18 for a type definition with the placeholder of [dtype]. *)
Lemma kernel_source_fills_placeholder_witness :
  kernel_source scenario_keywords ("typedef " +:+ placeholder "dtype" +:+ " T;")
  = "typedef " +:+ "float" +:+ " T;".
Proof.
  apply (kernel_source_fills_placeholder scenario_keywords "dtype" "float"
           "typedef " " T;").
  - compute_done.
  - compute_done.
  - reflexivity.
  - reflexivity.
  - reflexivity.
  - reflexivity.
Defined.

(** X8 on the scenario, whose rows are distributions. *)
Lemma loss_between_zero_and_experts_witness :
  ∃ c loss,
    extract_critical scenario_gates 1 1%Qc false false = Ok (c, loss)
    ∧ (0 ≤ loss ≤ Qc_of_Z (Z.of_nat (g_size1 scenario_gates)))%Qc.
Proof.
  eexists _, _. split; [vm_compute; reflexivity|].
  eapply (loss_between_zero_and_experts scenario_gates 1 1%Qc false false).
  - repeat constructor.
  - vm_compute. lia.
  - repeat (constructor; [split; [repeat (constructor; [by vm_compute|]); constructor
                                 |apply Qc_is_canon; reflexivity]|]).
    constructor.
  - vm_compute. reflexivity.
Defined.
